(** * podcastgen: the speech/music classification pipeline of [sound.c]

    A shallow embedding of [calculate_rms], [calculate_features],
    [classify_segments], [average_musicness] and [merge_segments], and the
    properties of the pipeline stated and proved (or refuted) on it.

    Conventions of the embedding.
    - C [float] and [double] values are IEEE 754 binary32 and binary64
      numbers, represented by [spec_float] with the operations of
      [SpecFloat] (round to nearest, ties to even, as in the default
      rounding mode; expressions are evaluated in the precision of their
      C type).
    - C arrays are lists, read with [l !!! i] and written with
      [<[i:=x]> l].  Storage that the C code reads without having written
      it (the [malloc]ed scratch buffer of [average_musicness], the
      caller's [merged_segments]) is an explicit argument holding the
      previous contents.
    - The globals assigned outside [sound.c] ([FRAMES_IN_RMS_FRAME],
      [RMS_FRAME_COUNT], [LONG_FRAME_COUNT], [RMS_FRAMES_IN_LONG_FRAME],
      [has_intro]) and the helper [signum] of [util.c] are parameters. *)

From Stdlib Require Import ZArith QArith List Bool Lia.
From Stdlib Require Import Floats.SpecFloat.
From stdpp Require Import base list.

Open Scope Z_scope.

(** ** IEEE 754 arithmetic *)

#[global] Instance spec_float_inhabited : Inhabited spec_float :=
  populate (S754_zero false).

(** C [float]: binary32. *)
Module F32.
Definition prec : Z := 24.
Definition emax : Z := 128.
Definition zero : spec_float := S754_zero false.
Definition of_int (z : Z) : spec_float := binary_normalize prec emax z 0 false.
Definition add : spec_float -> spec_float -> spec_float := SFadd prec emax.
Definition sub : spec_float -> spec_float -> spec_float := SFsub prec emax.
Definition mul : spec_float -> spec_float -> spec_float := SFmul prec emax.
Definition div : spec_float -> spec_float -> spec_float := SFdiv prec emax.
Definition leb : spec_float -> spec_float -> bool := SFleb.
Definition ltb : spec_float -> spec_float -> bool := SFltb.
(** Conversion of a [double] to [float] (rounding). *)
Definition of_double (x : spec_float) : spec_float :=
  match x with
  | S754_finite s m e => binary_round prec emax s m e
  | _ => x
  end.
End F32.

(** C [double]: binary64. *)
Module F64.
Definition prec : Z := 53.
Definition emax : Z := 1024.
Definition zero : spec_float := S754_zero false.
Definition of_int (z : Z) : spec_float := binary_normalize prec emax z 0 false.
Definition add : spec_float -> spec_float -> spec_float := SFadd prec emax.
Definition mul : spec_float -> spec_float -> spec_float := SFmul prec emax.
Definition div : spec_float -> spec_float -> spec_float := SFdiv prec emax.
Definition sqrt : spec_float -> spec_float := SFsqrt prec emax.
(** Promotion of a [float] to [double]: exact, the mantissa is
    re-aligned to the binary64 format. *)
Definition of_float (x : spec_float) : spec_float :=
  match x with
  | S754_finite s m e => binary_round prec emax s m e
  | _ => x
  end.
(** [pow(x, 2)]: the correctly rounded square. *)
Definition pow2 (x : spec_float) : spec_float := mul x x.
(** [rint]: round to an integral value, ties to even. *)
Definition rint (x : spec_float) : spec_float :=
  match x with
  | S754_finite s m e =>
      if 0 <=? e then x
      else
        let mrs := fst (shr (shr_record_of_loc (Zpos m) loc_Exact) e (- e)) in
        let z := round_nearest_even (shr_m mrs) (loc_of_shr_record mrs) in
        binary_normalize prec emax (cond_Zopp s z) 0 s
  | _ => x
  end.
(** Conversion to [bool]: any value that compares unequal to zero is
    [true]. *)
Definition to_bool (x : spec_float) : bool := negb (SFeqb x zero).
End F64.

(** The exact rational value of a finite floating-point number. *)
Definition SF2Q (x : spec_float) : Q :=
  match x with
  | S754_finite s m e =>
      (inject_Z (cond_Zopp s (Zpos m)) * Qpower 2 e)%Q
  | _ => 0%Q
  end.

Definition is_zero (x : spec_float) : bool :=
  match x with S754_zero _ => true | _ => false end.

Definition is_nan (x : spec_float) : bool :=
  match x with S754_nan => true | _ => false end.

(** ** The constants of [sound.c] *)

Definition RMS_FRAME_DURATION : Z := 20.
Definition LONG_FRAME_DURATION : Z := 1000.

(** Modelled from the spec: the assignment of [RMS_FRAMES_IN_LONG_FRAME]
    is outside [sound.c]; the block size is the aggregation window
    duration divided by the RMS window duration. *)
Definition default_RMS_FRAMES_IN_LONG_FRAME : nat :=
  Z.to_nat (LONG_FRAME_DURATION / RMS_FRAME_DURATION).

(** [0.20f], the binary32 number nearest to 0.2. *)
Definition LOW_ENERGY_COEFFICIENT : spec_float := S754_finite false 13421773 (-26).
Definition UPPER_MUSIC_THRESHOLD : spec_float := S754_zero false.

(** Modelled from the spec: [signum] is defined in [util.c], which is not
    among the sources; its value is the sign of its argument, one of
    -1, 0 and +1. *)
Definition signum (x : spec_float) : Z :=
  if F32.ltb F32.zero x then 1 else if F32.ltb x F32.zero then -1 else 0.

(** ** RMS extractor: [calculate_rms] *)

(** The arithmetic [calculate_rms] uses, on samples of type [F] ([float])
    and accumulators of type [D] ([double]). *)
Class SampleArith (F D : Type) := {
  to_double : F -> D;
  to_float : D -> F;
  d_of_int : Z -> D;
  d_add : D -> D -> D;
  d_div : D -> D -> D;
  d_pow2 : D -> D;
  d_sqrt : D -> D }.

#[global] Instance ieee_arith : SampleArith spec_float spec_float := {
  to_double := F64.of_float;
  to_float := F32.of_double;
  d_of_int := F64.of_int;
  d_add := F64.add;
  d_div := F64.div;
  d_pow2 := F64.pow2;
  d_sqrt := F64.sqrt }.

Section RmsExtractor.
Context {F D : Type} {arith : SampleArith F D}.
Variable FRAMES_IN_RMS_FRAME : nat.

(** [sf_readf_float(source_file, read_cache, frames)]: reads up to
    [frames] frames of the mono stream; returns the frames read and the
    rest of the stream. *)
Definition sf_readf_float (source_file : list F) (frames : nat) : list F * list F :=
  (take frames source_file, drop frames source_file).

(** The inner loop: [local_rms += pow(read_cache[frame], 2)] over the
    frames read. *)
Definition sum_squares (read_cache : list F) (local_rms : D) : D :=
  fold_left (fun local_rms x => d_add local_rms (d_pow2 (to_double x)))
            read_cache local_rms.

(** One iteration of the outer loop, from the frames read. *)
Definition rms_of_frames (read_cache : list F) : F :=
  let local_rms := sum_squares read_cache (d_of_int 0) in
  to_float (d_sqrt (d_div local_rms (d_of_int RMS_FRAME_DURATION))).

(** The [RMS_FRAME_COUNT] values written to [rms]. *)
Fixpoint calculate_rms (RMS_FRAME_COUNT : nat) (source_file : list F) : list F :=
  match RMS_FRAME_COUNT with
  | O => []
  | S count =>
      let '(read_cache, source_file') := sf_readf_float source_file FRAMES_IN_RMS_FRAME in
      rms_of_frames read_cache :: calculate_rms count source_file'
  end.
End RmsExtractor.

(** ** Feature aggregator: [calculate_features] *)

Record features := {
  mean_rms : spec_float;
  variance_rms : spec_float;
  norm_variance_rms : spec_float;
  mler : spec_float }.

Section FeatureAggregator.
Variable signum : spec_float -> Z.
Variable LOW_ENERGY_COEFFICIENT : spec_float.
Variable RMS_FRAMES_IN_LONG_FRAME : nat.

(** [variance_difference_sum += pow(x - rms_sum, 2)], a [float]
    accumulator updated with a [double] term. *)
Definition add_deviation (variance_difference_sum x rms_sum : spec_float) : spec_float :=
  F32.of_double (F64.add (F64.of_float variance_difference_sum)
                         (F64.pow2 (F64.of_float (F32.sub x rms_sum)))).

(** The body of the second inner loop, on the pair
    [(variance_difference_sum, mler[long_frame])]. *)
Definition variance_mler_step (rms : list spec_float) (rms_sum lowthres : spec_float)
    (acc : spec_float * spec_float) (current_rms_frame : nat) : spec_float * spec_float :=
  let x := rms !!! current_rms_frame in
  let vds := add_deviation (fst acc) x rms_sum in
  let ml := F32.add (snd acc) (F32.of_int (signum (F32.sub lowthres x) + 1)) in
  let vds := add_deviation vds x rms_sum in
  (vds, ml).

(** One iteration of the outer loop: the four features of the long frame
    whose block starts at [start_rms_frame]. *)
Definition long_frame_features (rms : list spec_float) (start_rms_frame : nat) : features :=
  let block := seq start_rms_frame RMS_FRAMES_IN_LONG_FRAME in
  let size := F32.of_int (Z.of_nat RMS_FRAMES_IN_LONG_FRAME) in
  let rms_sum :=
    fold_left (fun rms_sum i => F32.add rms_sum (rms !!! i)) block F32.zero in
  let mean := F32.div rms_sum size in
  let lowthres := F32.mul LOW_ENERGY_COEFFICIENT mean in
  let acc := fold_left (variance_mler_step rms rms_sum lowthres) block
                       (F32.zero, F32.zero) in
  let variance := F32.div (fst acc) size in
  {| mean_rms := mean;
     variance_rms := variance;
     norm_variance_rms := F32.div variance mean;
     mler := F32.div (snd acc) (F32.of_int (2 * Z.of_nat RMS_FRAMES_IN_LONG_FRAME)) |}.

(** The features of the long frames 0 .. [LONG_FRAME_COUNT]-1;
    [start_rms_frame] advances by the block size. *)
Definition calculate_features (LONG_FRAME_COUNT : nat) (rms : list spec_float) : list features :=
  map (fun long_frame => long_frame_features rms (long_frame * RMS_FRAMES_IN_LONG_FRAME)%nat)
      (seq 0 LONG_FRAME_COUNT).
End FeatureAggregator.

(** ** Classifier: [classify_segments] *)

Definition classify_segments (UPPER_MUSIC_THRESHOLD : spec_float)
    (mler : list spec_float) : list bool :=
  map (fun m => if F32.leb m UPPER_MUSIC_THRESHOLD then true else false) mler.

(** ** Smoother: [average_musicness] *)

Section Smoother.
Variable LONG_FRAME_COUNT : nat.

(** The [int] sum of the seven labels around [long_frame]. *)
Definition window_sum (labels : list bool) (long_frame : nat) : Z :=
  Z.b2z (labels !!! (long_frame - 3)%nat) + Z.b2z (labels !!! (long_frame - 2)%nat)
  + Z.b2z (labels !!! (long_frame - 1)%nat) + Z.b2z (labels !!! long_frame)
  + Z.b2z (labels !!! (long_frame + 1)%nat) + Z.b2z (labels !!! (long_frame + 2)%nat)
  + Z.b2z (labels !!! (long_frame + 3)%nat).

(** [rint(sum / 5.0)] stored into a [bool]. *)
Definition smoothed_label (labels : list bool) (long_frame : nat) : bool :=
  F64.to_bool (F64.rint (F64.div (F64.of_int (window_sum labels long_frame)) (F64.of_int 5))).

(** The scratch buffer when it is copied back: [music_second_pass] holds
    what [malloc] returned.  The interior loop runs over
    3 <= long_frame < LONG_FRAME_COUNT - 3.  (For LONG_FRAME_COUNT < 2 the
    C code indexes below the buffer; the natural-number subtraction of the
    model is exact from 2 on.) *)
Definition second_pass (music_second_pass labels : list bool) : list bool :=
  let msp := <[0%nat := true]> music_second_pass in
  let msp := <[1%nat := true]> msp in
  let msp := <[2%nat := true]> msp in
  let msp :=
    fold_left (fun msp long_frame => <[long_frame := smoothed_label labels long_frame]> msp)
              (seq 3 (LONG_FRAME_COUNT - 6)) msp in
  let msp := <[LONG_FRAME_COUNT := false]> msp in
  let msp := <[(LONG_FRAME_COUNT - 1)%nat := false]> msp in
  <[(LONG_FRAME_COUNT - 2)%nat := false]> msp.

(** The copy loop [is_music[long_frame] = music_second_pass[long_frame]]. *)
Definition copy_back (msp labels : list bool) : list bool :=
  fold_left (fun labels long_frame => <[long_frame := msp !!! long_frame]> labels)
            (seq 0 LONG_FRAME_COUNT) labels.

(** [average_musicness(is_music)]: the labels after the call. *)
Definition average_musicness (music_second_pass labels : list bool) : list bool :=
  copy_back (second_pass music_second_pass labels) labels.
End Smoother.

(** The smoother as the specification words it: three leading labels
    [true], interior labels the rounded average of the seven labels
    around them, three trailing labels [false]. *)
Definition rounded_average7 (labels : list bool) (i : nat) : bool :=
  7 <=? 2 * window_sum labels i.

Definition smoother_claim (labels : list bool) : list bool :=
  let n := length labels in
  [true; true; true]
  ++ map (rounded_average7 labels) (seq 3 (n - 6))
  ++ [false; false; false].

(** ** Segment merger: [merge_segments] *)

Record segment := {
  startframe : Z;
  endframe : Z;
  is_music : bool }.

#[global] Instance segment_inhabited : Inhabited segment :=
  populate {| startframe := 0; endframe := 0; is_music := false |}.

Definition set_startframe (s : segment) (v : Z) : segment :=
  {| startframe := v; endframe := endframe s; is_music := is_music s |}.
Definition set_endframe (s : segment) (v : Z) : segment :=
  {| startframe := startframe s; endframe := v; is_music := is_music s |}.
Definition set_is_music (s : segment) (v : bool) : segment :=
  {| startframe := startframe s; endframe := endframe s; is_music := v |}.

(** [a[i] = f(a[i])]: an update of one element in place. *)
Definition modify {A} `{Inhabited A} (i : nat) (f : A -> A) (a : list A) : list A :=
  <[i := f (a !!! i)]> a.

Definition GROW_BY_BEFORE : Z := 3.
Definition GROW_BY_AFTER : Z := 3.

(** The range of a C [int]. *)
Definition INT_MIN : Z := -2147483648.
Definition INT_MAX : Z := 2147483647.

(** Moving the boundaries of [m] by [GROW_BY_BEFORE] or [GROW_BY_AFTER]
    in either direction stays within the range of [int]. *)
Definition growth_in_range (m : segment) : Prop :=
  INT_MIN + GROW_BY_BEFORE <= startframe m <= INT_MAX - GROW_BY_BEFORE
  /\ INT_MIN + GROW_BY_AFTER <= endframe m <= INT_MAX - GROW_BY_AFTER.

Section SegmentMerger.
Variable has_intro : bool.
Variable LONG_FRAME_COUNT : nat.

(** Phase 1, the body of the loop over [long_frame], on the pair
    [(segments, current_segment)]. *)
Definition detect_step (labels : list bool) (st : list segment * nat) (long_frame : nat)
    : list segment * nat :=
  let '(segments, current_segment) := st in
  if (long_frame =? 0)%nat then
    (modify current_segment
       (fun s => set_is_music (set_endframe (set_startframe s 0) 0) true) segments,
     current_segment)
  else if Bool.eqb (labels !!! long_frame) (is_music (segments !!! current_segment)) then
    (modify current_segment (fun s => set_endframe s (endframe s + 1)) segments,
     current_segment)
  else
    let current_segment := S current_segment in
    (modify current_segment
       (fun s => set_is_music
                   (set_endframe (set_startframe s (Z.of_nat long_frame)) (Z.of_nat long_frame))
                   (labels !!! long_frame)) segments,
     current_segment).

(** [segments] is what [malloc] returned. *)
Definition detect_segments (segments : list segment) (labels : list bool)
    : list segment * nat :=
  fold_left (detect_step labels) (seq 0 LONG_FRAME_COUNT) (segments, 0%nat).

(** Phase 2, the body of the loop over [seg], on the pair
    [(merged_segments, current_merged_segment)]. *)
Definition merge_step (segments : list segment) (st : list segment * nat) (seg : nat)
    : list segment * nat :=
  let '(merged_segments, current_merged_segment) := st in
  let run := segments !!! seg in
  if (seg =? 0)%nat then
    let merged_segments :=
      modify 0%nat (fun m => set_endframe (set_startframe m (startframe (segments !!! 0%nat)))
                                          (endframe (segments !!! 0%nat)))
             merged_segments in
    (if has_intro then modify 0%nat (fun m => set_is_music m false) merged_segments
     else merged_segments,
     current_merged_segment)
  else if endframe run - startframe run <? 10 then
    (modify current_merged_segment (fun m => set_endframe m (endframe run)) merged_segments,
     current_merged_segment)
  else if Bool.eqb (is_music run) (is_music (merged_segments !!! current_merged_segment)) then
    (modify current_merged_segment (fun m => set_endframe m (endframe run)) merged_segments,
     current_merged_segment)
  else
    let current_merged_segment := S current_merged_segment in
    (modify current_merged_segment
       (fun m => set_is_music (set_endframe (set_startframe m (startframe run)) (endframe run))
                              (is_music run)) merged_segments,
     current_merged_segment).

(** The loop runs over 0 <= seg < current_segment. *)
Definition merge_runs (segments : list segment) (current_segment : nat)
    (merged_segments : list segment) : list segment * nat :=
  fold_left (merge_step segments) (seq 0 current_segment) (merged_segments, 0%nat).

(** Phase 3: the boundaries are moved; the loop runs over
    1 <= seg < current_segment.  The boundaries are C [int]s, here
    integers: the sums and differences below are those of the C code as
    long as they stay between [INT_MIN] and [INT_MAX], which holds for
    every slot that phase 2 has stored (its boundaries are long-frame
    indexes) and, for a slot that still holds what the caller left there,
    when its boundaries satisfy [growth_in_range]. *)
Definition grow_step (merged_segments : list segment) (seg : nat) : list segment :=
  if is_music (merged_segments !!! seg) then
    modify seg (fun m => set_endframe (set_startframe m (startframe m + GROW_BY_BEFORE))
                                      (endframe m - GROW_BY_AFTER)) merged_segments
  else
    modify seg (fun m => set_endframe (set_startframe m (startframe m - GROW_BY_BEFORE))
                                      (endframe m + GROW_BY_AFTER)) merged_segments.

(** The whole of phase 3: slot 0 first, then the loop.  The same remark
    on the range of [int] applies. *)
Definition grow_segments (current_segment : nat) (merged_segments : list segment)
    : list segment :=
  let merged_segments :=
    if has_intro
    then modify 0%nat (fun m => set_endframe m (endframe m + GROW_BY_AFTER)) merged_segments
    else modify 0%nat (fun m => set_endframe m (endframe m - GROW_BY_BEFORE)) merged_segments in
  fold_left grow_step (seq 1 (current_segment - 1)) merged_segments.

(** The merged segments before the boundaries are moved, with
    [current_segment] and [current_merged_segment]. *)
Definition merge_segments_pre_growth (segments : list segment) (labels : list bool)
    (merged_segments : list segment) : list segment * nat * nat :=
  let '(segments, current_segment) := detect_segments segments labels in
  let '(merged_segments, current_merged_segment) :=
    merge_runs segments current_segment merged_segments in
  (merged_segments, current_segment, current_merged_segment).

(** [merge_segments(is_music, merged_segments)]: the contents of
    [merged_segments] after the call and the returned integer. *)
Definition merge_segments (segments : list segment) (labels : list bool)
    (merged_segments : list segment) : list segment * Z :=
  let '(merged_segments, current_segment, current_merged_segment) :=
    merge_segments_pre_growth segments labels merged_segments in
  (grow_segments current_segment merged_segments, Z.of_nat current_merged_segment).
End SegmentMerger.

(** The long frames of a segment, and of a list of segments in order. *)
Definition segment_frames (s : segment) : list Z :=
  seqZ (startframe s) (endframe s - startframe s + 1).

Definition covered_frames (segs : list segment) : list Z :=
  flat_map segment_frames segs.

Definition all_frames (LONG_FRAME_COUNT : nat) : list Z :=
  seqZ 0 (Z.of_nat LONG_FRAME_COUNT).

(** The runs detected in the first [k] long frames tile them: run 0
    starts at frame 0, every run starts where the one before ends, and
    the current run ends at frame [k - 1]. *)
Definition runs_wf (segments : list segment) (current_segment k : nat) : Prop :=
  (current_segment < k)%nat
  /\ startframe (segments !!! 0%nat) = 0
  /\ endframe (segments !!! current_segment) = Z.of_nat k - 1
  /\ (forall j, (j <= current_segment)%nat ->
         startframe (segments !!! j) <= endframe (segments !!! j))
  /\ (forall j, (j < current_segment)%nat ->
         startframe (segments !!! S j) = endframe (segments !!! j) + 1).

(** After phase 2 has visited the runs 0 .. [j]-1, the merged segments
    0 .. [current_merged_segment] cover the frames of those runs. *)
Definition merged_wf (segments merged_segments : list segment)
    (current_merged_segment j : nat) : Prop :=
  (current_merged_segment < j)%nat
  /\ 0 <= endframe (segments !!! (j - 1)%nat)
  /\ covered_frames (take (S current_merged_segment) merged_segments)
     = seqZ 0 (endframe (segments !!! (j - 1)%nat) + 1)
  /\ endframe (merged_segments !!! current_merged_segment)
     = endframe (segments !!! (j - 1)%nat)
  /\ startframe (merged_segments !!! current_merged_segment)
     <= endframe (merged_segments !!! current_merged_segment).


(** ** The claimed behaviour, worded as the specification has it *)

(** The variance as claimed: the squared deviation of each RMS value of
    the block from the block's sum, each counted once, divided by the
    block size. *)
Definition variance_claim (RMS_FRAMES_IN_LONG_FRAME : nat) (rms : list spec_float)
    (start_rms_frame : nat) : spec_float :=
  let block := seq start_rms_frame RMS_FRAMES_IN_LONG_FRAME in
  let rms_sum :=
    fold_left (fun rms_sum i => F32.add rms_sum (rms !!! i)) block F32.zero in
  F32.div (fold_left (fun acc i => add_deviation acc (rms !!! i) rms_sum) block F32.zero)
          (F32.of_int (Z.of_nat RMS_FRAMES_IN_LONG_FRAME)).

(** The length of a run in long frames. *)
Definition run_length (s : segment) : Z := endframe s - startframe s + 1.

(** The absorption rule of phase 2 with a threshold on the length of the
    run: runs shorter than [minimum_segment_length] are absorbed, longer
    ones of the label of the previous merged segment too, any other run
    opens a merged segment. *)
Definition merge_rule (minimum_segment_length : Z) (segments : list segment)
    (st : list segment * nat) (seg : nat) : list segment * nat :=
  let '(merged_segments, current_merged_segment) := st in
  let run := segments !!! seg in
  let previous := merged_segments !!! current_merged_segment in
  if (run_length run <? minimum_segment_length)
     || Bool.eqb (is_music run) (is_music previous)
  then (<[current_merged_segment := set_endframe previous (endframe run)]> merged_segments,
        current_merged_segment)
  else (<[S current_merged_segment := run]> merged_segments, S current_merged_segment).

(** The integer sum of [sign(low_threshold - v) + 1] over a block. *)
Definition mler_count (signum : spec_float -> Z) (lowthres : spec_float)
    (rms : list spec_float) (block : list nat) : Z :=
  fold_right (fun i count => signum (F32.sub lowthres (rms !!! i)) + 1 + count) 0 block.

(** ** Small integers in binary32

    The sums that [calculate_features] forms for the MLER are integers
    between 0 and twice the block size.  For blocks of at most
    [max_block] RMS frames (the program's blocks have 1000/20 = 50) the
    facts about them are checked by evaluation. *)

Definition max_block : nat := 256.

Definition sf_eqb (x y : spec_float) : bool :=
  match x, y with
  | S754_zero a, S754_zero b => Bool.eqb a b
  | S754_infinity a, S754_infinity b => Bool.eqb a b
  | S754_nan, S754_nan => true
  | S754_finite a m e, S754_finite b m' e' => Bool.eqb a b && Pos.eqb m m' && Z.eqb e e'
  | _, _ => false
  end.

Definition half : spec_float := S754_finite false 8388608 (-24).

Definition add_small_check (k : nat) : bool :=
  forallb (fun d => sf_eqb (F32.add (F32.of_int (Z.of_nat k)) (F32.of_int d))
                           (F32.of_int (Z.of_nat k + d)))
          [0; 1; 2].

Definition div_small_check (n : nat) : bool :=
  sf_eqb (F32.div F32.zero (F32.of_int (Z.of_nat n))) F32.zero
  && sf_eqb (F32.div (F32.of_int (Z.of_nat n)) (F32.of_int (2 * Z.of_nat n))) half
  && forallb (fun k => let q := F32.div (F32.of_int (Z.of_nat k))
                                        (F32.of_int (2 * Z.of_nat n)) in
                       F32.leb F32.zero q && F32.leb q (F32.of_int 1))
             (seq 0 (2 * n + 1)).


(** ** Silence *)

(** A zero sample, of either sign. *)
Definition silent (x : spec_float) : Prop := is_zero x = true.

(** The features of a silent long frame. *)
Definition silent_features : features :=
  {| mean_rms := F32.zero; variance_rms := F32.zero;
     norm_variance_rms := S754_nan; mler := half |}.

(** The RMS frame [i] is zero. *)
Definition zero_at (rms : list spec_float) (i : nat) : Prop := rms !!! i = F32.zero.

(** ** Signs *)

(** The sign bit of [x] is clear, or [x] is a NaN. *)
Definition sign_clear (x : spec_float) : bool :=
  match x with
  | S754_zero s | S754_infinity s | S754_finite s _ _ => negb s
  | S754_nan => true
  end.

(** The four features of a long frame have their sign bits clear (or are
    NaN). *)
Definition features_sign_clear (f : features) : bool :=
  sign_clear (mean_rms f) && sign_clear (variance_rms f)
  && sign_clear (norm_variance_rms f) && sign_clear (mler f).

(** ** Quotients of small integers against the threshold 0.0 *)

(** For the block size [n]: the quotient 0 / 2n is at most 0.0, and the
    quotients k / 2n for 1 <= k <= 2n are not. *)
Definition music_check (n : nat) : bool :=
  F32.leb (F32.div (F32.of_int 0) (F32.of_int (2 * Z.of_nat n))) UPPER_MUSIC_THRESHOLD
  && forallb (fun k => negb (F32.leb (F32.div (F32.of_int (Z.of_nat k))
                                              (F32.of_int (2 * Z.of_nat n)))
                                     UPPER_MUSIC_THRESHOLD))
             (seq 1 (2 * n)).

(** ** Runs and merged segments *)

(** The labels of the runs detected in the first [k] long frames: run 0
    is a music run, neighbouring runs have different labels, no run
    reaches beyond frame [k - 1], and every frame but frame 0 has the
    label of its run. *)
Definition runs_labelled (labels : list bool) (segments : list segment)
    (current_segment k : nat) : Prop :=
  is_music (segments !!! 0%nat) = true
  /\ (forall j, (j < current_segment)%nat ->
        is_music (segments !!! S j) = negb (is_music (segments !!! j)))
  /\ (forall j, (j <= current_segment)%nat -> endframe (segments !!! j) <= Z.of_nat k - 1)
  /\ (forall j f, (j <= current_segment)%nat -> (1 <= f)%nat ->
        startframe (segments !!! j) <= Z.of_nat f <= endframe (segments !!! j) ->
        labels !!! f = is_music (segments !!! j)).

(** The merged segments 0 .. [current_merged_segment] before growth:
    the first starts at frame 0, each starts where the one before ends
    and has the other label, and all but the first span more than 10 long
    frames. *)
Definition merged_alternate (merged_segments : list segment)
    (current_merged_segment : nat) : Prop :=
  startframe (merged_segments !!! 0%nat) = 0
  /\ (forall i, (i < current_merged_segment)%nat ->
        startframe (merged_segments !!! S i) = endframe (merged_segments !!! i) + 1
        /\ is_music (merged_segments !!! S i) = negb (is_music (merged_segments !!! i)))
  /\ (forall i, (1 <= i <= current_merged_segment)%nat ->
        10 <= endframe (merged_segments !!! i) - startframe (merged_segments !!! i)).

(** What the growth loop stores for a segment: a music segment loses
    [GROW_BY_BEFORE] long frames at its start and [GROW_BY_AFTER] at its
    end, a speech segment gains them. *)
Definition grown (m : segment) : segment :=
  if is_music m
  then set_endframe (set_startframe m (startframe m + GROW_BY_BEFORE))
                    (endframe m - GROW_BY_AFTER)
  else set_endframe (set_startframe m (startframe m - GROW_BY_BEFORE))
                    (endframe m + GROW_BY_AFTER).

(** What the growth step stores in slot 0. *)
Definition grown_first (has_intro : bool) (m : segment) : segment :=
  if has_intro then set_endframe m (endframe m + GROW_BY_AFTER)
  else set_endframe m (endframe m - GROW_BY_BEFORE).

(** ** Rounding away from the limits of a format

    The definitions used to state when a computation of [calculate_rms]
    neither overflows nor reaches the subnormal range, where its
    rounding steps do not depend on the exponents. *)

(** The two rounding stages of [binary_round_aux] on a mantissa [m] with
    location [l], when the exponent is neither clamped to [emin] nor
    beyond [emax]: the rounded mantissa, and the amount added to the
    exponent. *)
Definition round_core (prec m : Z) (l : location) : Z * Z :=
  let n := Zdigits2 m - prec in
  let mrs' := fst (shr (shr_record_of_loc m l) 0 n) in
  let m1 := round_nearest_even (shr_m mrs') (loc_of_shr_record mrs') in
  let n2 := Zdigits2 m1 - prec in
  let mrs'' := fst (shr (shr_record_of_loc m1 loc_Exact) 0 n2) in
  (shr_m mrs'', Z.max n 0 + Z.max n2 0).

(** The conditions under which a value with [t = digits + exponent] is
    rounded as a normal number: above the subnormal range, and below the
    overflow threshold also after a carry. *)
Definition in_format (prec emax t : Z) : Prop :=
  emin prec emax + prec <= t /\ t + 1 <= emax.

(** [digits + exponent] of a finite number [x]: the least [t] with
    |x| < 2^t. *)
Definition magnitude (x : spec_float) : Z :=
  match x with
  | S754_finite _ m e => Zpos (digits2_pos m) + e
  | _ => 0
  end.

(** The binary32 number 2^j (for -126 <= j <= 127). *)
Definition power_of_two (j : Z) : spec_float := S754_finite false 8388608 (j - 23).

(** A sample that is zero, or a normal binary32 number [x] such that
    [x] and [2^j * x] have their magnitudes between [lo] and [hi]. *)
Definition sample_in_range (lo hi j : Z) (x : spec_float) : Prop :=
  match x with
  | S754_zero _ => True
  | S754_finite _ m e =>
      Zpos (digits2_pos m) = 24
      /\ lo <= magnitude x <= hi
      /\ lo <= magnitude x + j <= hi
  | _ => False
  end.

(** A positive binary64 number [m * 2^e] with a 53-digit mantissa, of
    magnitude at least [L] and value at most [c * 2^T]. *)
Definition sum_in_range (L T c : Z) (m : positive) (e : Z) : Prop :=
  Zpos (digits2_pos m) = 53 /\ L <= 53 + e /\ Zpos m <= c * 2 ^ (T - e).

(** The sums of squares of a window and of the same window scaled by
    [2^j]: both are zero, or the second is the first with its exponent
    moved by [2 * j]. *)
Definition sums_related (j L T c : Z) (acc1 acc2 : spec_float) : Prop :=
  acc1 = S754_zero false /\ acc2 = S754_zero false
  \/ exists m e,
       acc1 = S754_finite false m e /\ acc2 = S754_finite false m (e + 2 * j)
       /\ sum_in_range L T c m e /\ sum_in_range L T c m (e + 2 * j).

(** * Properties *)

(** ** Arrays *)

Section Arrays.
Context {A : Type} `{Inhabited A}.

Lemma lookup_total_modify (i j : nat) (f : A -> A) (a : list A) :
  modify i f a !!! j
  = if decide (i = j /\ (i < length a)%nat) then f (a !!! i) else a !!! j.
Proof. unfold modify. apply list_lookup_total_insert. Qed.

Lemma length_modify (i : nat) (f : A -> A) (a : list A) :
  length (modify i f a) = length a.
Proof. unfold modify. apply length_insert. Qed.

(** A projection [p] that [f] leaves alone is not changed by [modify]. *)
Lemma modify_preserves {B} (p : A -> B) (i j : nat) (f : A -> A) (a : list A) :
  (forall x, p (f x) = p x) -> p (modify i f a !!! j) = p (a !!! j).
Proof.
  intros Hf. rewrite lookup_total_modify.
  destruct (decide _) as [[-> _]|_]; [apply Hf|reflexivity].
Qed.

Lemma modify_other (i j : nat) (f : A -> A) (a : list A) :
  i <> j -> modify i f a !!! j = a !!! j.
Proof.
  intros Hne. rewrite lookup_total_modify.
  destruct (decide _) as [[? _]|_]; [contradiction|reflexivity].
Qed.

(** A loop that stores [g i] at each index [i] of [idxs]. *)
Lemma length_fold_insert (g : nat -> A) (idxs : list nat) (l : list A) :
  length (fold_left (fun l i => <[i := g i]> l) idxs l) = length l.
Proof.
  revert l. induction idxs as [|i idxs IH]; intros l; simpl; [reflexivity|].
  rewrite IH. apply length_insert.
Qed.

Lemma lookup_total_fold_insert (g : nat -> A) (idxs : list nat) (l : list A) (j : nat) :
  fold_left (fun l i => <[i := g i]> l) idxs l !!! j
  = if decide (j ∈ idxs /\ (j < length l)%nat) then g j else l !!! j.
Proof.
  revert l. induction idxs as [|i idxs IH]; intros l; cbn [fold_left].
  - case_decide as Hin; [|reflexivity].
    destruct Hin as [Hin _]. apply elem_of_nil in Hin. contradiction.
  - rewrite IH, length_insert, list_lookup_total_insert.
    repeat case_decide; try reflexivity;
      rewrite elem_of_cons in *; intuition (subst; try lia; tauto).
Qed.
Lemma take_S_lookup_total (i : nat) (a : list A) :
  (i < length a)%nat -> take (S i) a = take i a ++ [a !!! i].
Proof.
  intros Hi. apply take_S_r. apply list_lookup_lookup_total_lt. exact Hi.
Qed.

Lemma take_S_modify (i : nat) (f : A -> A) (a : list A) :
  (i < length a)%nat -> take (S i) (modify i f a) = take i a ++ [f (a !!! i)].
Proof.
  intros Hi. unfold modify.
  rewrite (take_S_r _ _ (f (a !!! i))) by (apply list_lookup_insert_eq; exact Hi).
  rewrite take_insert_ge by lia. reflexivity.
Qed.
End Arrays.

(** ** Smoother *)

Lemma length_second_pass (LONG_FRAME_COUNT : nat) (music_second_pass labels : list bool) :
  length (second_pass LONG_FRAME_COUNT music_second_pass labels) = length music_second_pass.
Proof.
  unfold second_pass.
  rewrite !length_insert, (length_fold_insert (smoothed_label labels)), !length_insert.
  reflexivity.
Qed.

(** What the copy loop leaves in [is_music]. *)
Lemma lookup_total_average_musicness (LONG_FRAME_COUNT : nat)
    (music_second_pass labels : list bool) (i : nat) :
  length labels = LONG_FRAME_COUNT -> (i < LONG_FRAME_COUNT)%nat ->
  average_musicness LONG_FRAME_COUNT music_second_pass labels !!! i
  = second_pass LONG_FRAME_COUNT music_second_pass labels !!! i.
Proof.
  intros Hlen Hi. unfold average_musicness, copy_back.
  rewrite (lookup_total_fold_insert
             (fun k => second_pass LONG_FRAME_COUNT music_second_pass labels !!! k)).
  case_decide as Hd; [reflexivity|].
  exfalso. apply Hd. split; [apply elem_of_seq|]; lia.
Qed.

(** The scratch buffer outside the indices the smoother stores to. *)
Lemma second_pass_unassigned (LONG_FRAME_COUNT : nat)
    (music_second_pass labels : list bool) (i : nat) :
  (3 <= i)%nat -> (LONG_FRAME_COUNT - 3 <= i)%nat ->
  i <> (LONG_FRAME_COUNT - 2)%nat -> i <> (LONG_FRAME_COUNT - 1)%nat ->
  i <> LONG_FRAME_COUNT ->
  second_pass LONG_FRAME_COUNT music_second_pass labels !!! i = music_second_pass !!! i.
Proof.
  intros H3 Hi H2 H1 H0. unfold second_pass.
  rewrite !list_lookup_total_insert_ne by lia.
  rewrite (lookup_total_fold_insert (smoothed_label labels)).
  case_decide as Hd.
  - destruct Hd as [Hd _]. apply elem_of_seq in Hd. lia.
  - rewrite !list_lookup_total_insert_ne by lia. reflexivity.
Qed.

(** C9. For every label sequence of length [LONG_FRAME_COUNT] >= 7, the
    label that [average_musicness] leaves at index [LONG_FRAME_COUNT - 3]
    is the value the scratch buffer held there when it was allocated,
    whatever the input labels are: no store of the smoother reaches that
    index.  The trailing stores go to [LONG_FRAME_COUNT],
    [LONG_FRAME_COUNT - 1] and [LONG_FRAME_COUNT - 2], the first of them
    one slot past the end of the label sequence. *)
Theorem average_musicness_reads_unassigned (LONG_FRAME_COUNT : nat)
    (music_second_pass labels : list bool) :
  (7 <= LONG_FRAME_COUNT)%nat ->
  length music_second_pass = (2 * LONG_FRAME_COUNT)%nat ->
  length labels = LONG_FRAME_COUNT ->
  average_musicness LONG_FRAME_COUNT music_second_pass labels !!! (LONG_FRAME_COUNT - 3)%nat
  = music_second_pass !!! (LONG_FRAME_COUNT - 3)%nat
  /\ second_pass LONG_FRAME_COUNT music_second_pass labels !!! LONG_FRAME_COUNT = false
  /\ second_pass LONG_FRAME_COUNT music_second_pass labels !!! (LONG_FRAME_COUNT - 1)%nat = false
  /\ second_pass LONG_FRAME_COUNT music_second_pass labels !!! (LONG_FRAME_COUNT - 2)%nat = false.
Proof.
  intros HN Hscratch Hlabels. split; [|split; [|split]].
  - rewrite lookup_total_average_musicness by lia.
    apply second_pass_unassigned; lia.
  - unfold second_pass.
    rewrite !list_lookup_total_insert_ne by lia.
    apply list_lookup_total_insert_eq.
    rewrite (length_fold_insert (smoothed_label labels)), !length_insert. lia.
  - unfold second_pass.
    rewrite list_lookup_total_insert_ne by lia.
    apply list_lookup_total_insert_eq.
    rewrite length_insert, (length_fold_insert (smoothed_label labels)), !length_insert. lia.
  - unfold second_pass.
    apply list_lookup_total_insert_eq.
    rewrite !length_insert, (length_fold_insert (smoothed_label labels)), !length_insert. lia.
Qed.

Lemma average_musicness_reads_unassigned_witness :
  (7 <= 7)%nat
  /\ average_musicness 7 (replicate 14 true) (replicate 7 false) !!! 4%nat = true.
Proof.
  split; [lia|].
  exact (proj1 (average_musicness_reads_unassigned 7 (replicate 14 true) (replicate 7 false)
                  ltac:(lia) ltac:(reflexivity) ltac:(reflexivity))).
Defined.

(** [rint(sum / 5.0)] is nonzero from a sum of 3 on. *)
Lemma smoothed_label_threshold (labels : list bool) (long_frame : nat) :
  smoothed_label labels long_frame = (3 <=? window_sum labels long_frame).
Proof.
  unfold smoothed_label, window_sum.
  destruct (labels !!! (long_frame - 3)%nat), (labels !!! (long_frame - 2)%nat),
    (labels !!! (long_frame - 1)%nat), (labels !!! long_frame),
    (labels !!! (long_frame + 1)%nat), (labels !!! (long_frame + 2)%nat),
    (labels !!! (long_frame + 3)%nat); vm_compute; reflexivity.
Qed.

(** The labels after smoothing, index by index. *)
Lemma average_musicness_labels (LONG_FRAME_COUNT : nat)
    (music_second_pass labels : list bool) (i : nat) :
  (7 <= LONG_FRAME_COUNT)%nat ->
  length music_second_pass = (2 * LONG_FRAME_COUNT)%nat ->
  length labels = LONG_FRAME_COUNT ->
  (i < LONG_FRAME_COUNT)%nat ->
  average_musicness LONG_FRAME_COUNT music_second_pass labels !!! i
  = if (i <? 3)%nat then true
    else if (i <? LONG_FRAME_COUNT - 3)%nat then 3 <=? window_sum labels i
    else if (i =? LONG_FRAME_COUNT - 3)%nat then music_second_pass !!! i
    else false.
Proof.
  intros HN Hscratch Hlabels Hi.
  rewrite lookup_total_average_musicness by lia.
  destruct (Nat.ltb_spec i 3) as [H3|H3];
    [|destruct (Nat.ltb_spec i (LONG_FRAME_COUNT - 3)) as [Hint|Hint];
      [|destruct (Nat.eqb_spec i (LONG_FRAME_COUNT - 3)) as [Heq|Hne]]].
  - unfold second_pass. rewrite !list_lookup_total_insert_ne by lia.
    rewrite (lookup_total_fold_insert (smoothed_label labels)).
    case_decide as Hd; [destruct Hd as [Hd%elem_of_seq _]; lia|].
    rewrite !list_lookup_total_insert, !length_insert.
    repeat case_decide; try reflexivity; lia.
  - unfold second_pass. rewrite !list_lookup_total_insert_ne by lia.
    rewrite (lookup_total_fold_insert (smoothed_label labels)), !length_insert.
    case_decide as Hd; [apply smoothed_label_threshold|].
    exfalso. apply Hd. split; [apply elem_of_seq|]; lia.
  - apply second_pass_unassigned; lia.
  - unfold second_pass.
    rewrite !list_lookup_total_insert, !length_insert,
      (length_fold_insert (smoothed_label labels)), !length_insert.
    repeat case_decide; try reflexivity; lia.
Qed.

(** C2. On the labels T T T F F F F, with a scratch buffer that held [b]
    everywhere, the smoother returns T T T T b F F: the interior label at
    index 3 is [true] although only three of the seven labels around it
    are (the sum is divided by 5.0, not by 7), and the label at index 4,
    one of the three trailing ones, is whatever the scratch buffer held.
    The claimed smoother returns T T T F F F F. *)
Theorem average_musicness_not_majority (b : bool) :
  average_musicness 7 (replicate 14 b) [true; true; true; false; false; false; false]
  = [true; true; true; true; b; false; false]
  /\ smoother_claim [true; true; true; false; false; false; false]
     = [true; true; true; false; false; false; false]
  /\ window_sum [true; true; true; false; false; false; false] 3 = 3.
Proof. destruct b; vm_compute; auto. Qed.

(** ** Segment merger *)

(** The fields of the element stored by a complete assignment. *)
Lemma assign_all_fields (m run : segment) :
  set_is_music (set_endframe (set_startframe m (startframe run)) (endframe run)) (is_music run)
  = run.
Proof. destruct run; reflexivity. Qed.

(** *** Phase 1: the detected runs *)

Lemma detect_step_first (labels : list bool) (segments : list segment) :
  (0 < length segments)%nat ->
  runs_wf (fst (detect_step labels (segments, 0%nat) 0)) 
          (snd (detect_step labels (segments, 0%nat) 0)) 1.
Proof.
  intros Hlen. cbn [detect_step Nat.eqb fst snd]. unfold runs_wf.
  rewrite !lookup_total_modify.
  split; [lia|]. split; [case_decide; [reflexivity|lia]|].
  split; [case_decide; [reflexivity|lia]|]. split.
  - intros j Hj. replace j with 0%nat by lia. rewrite lookup_total_modify.
    case_decide; [cbn; lia|lia].
  - intros j Hj. lia.
Qed.

Lemma detect_step_wf (labels : list bool) (segments : list segment)
    (current_segment k : nat) :
  (1 <= k < length segments)%nat ->
  runs_wf segments current_segment k ->
  runs_wf (fst (detect_step labels (segments, current_segment) k))
          (snd (detect_step labels (segments, current_segment) k)) (S k).
Proof.
  intros Hk (Hcur & H0 & Hend & Hle & Hadj).
  unfold detect_step. destruct (Nat.eqb_spec k 0) as [|_]; [lia|].
  destruct (Bool.eqb _ _); cbn [fst snd]; unfold runs_wf.
  - (* the current run is extended *)
    split; [lia|]. split; [|split; [|split]].
    + rewrite (modify_preserves startframe); [exact H0|reflexivity].
    + rewrite lookup_total_modify. case_decide; [cbn; lia|lia].
    + intros j Hj. rewrite (modify_preserves startframe) by reflexivity.
      rewrite lookup_total_modify. case_decide as Hd.
      * destruct Hd as [<- _]. specialize (Hle current_segment Hj). cbn. lia.
      * apply Hle, Hj.
    + intros j Hj. rewrite (modify_preserves startframe) by reflexivity.
      rewrite modify_other by lia. apply Hadj, Hj.
  - (* a run is opened *)
    split; [lia|]. split; [|split; [|split]].
    + rewrite modify_other by lia. exact H0.
    + rewrite lookup_total_modify. case_decide; [cbn; lia|lia].
    + intros j Hj. rewrite lookup_total_modify. case_decide as Hd.
      * cbn. lia.
      * apply Hle. lia.
    + intros j Hj. rewrite (modify_other (S current_segment) j) by lia.
      rewrite lookup_total_modify. case_decide as Hd.
      * destruct Hd as [Hd _]. injection Hd as <-. cbn. lia.
      * apply Hadj. lia.
Qed.

Lemma length_detect_step (labels : list bool) (st : list segment * nat) (k : nat) :
  length (fst (detect_step labels st k)) = length (fst st).
Proof.
  destruct st as [segments current_segment]. unfold detect_step.
  destruct (k =? 0)%nat; [|destruct (Bool.eqb _ _)]; cbn [fst]; apply length_modify.
Qed.

Lemma detect_loop_wf (labels : list bool) (count k : nat) (st : list segment * nat) :
  (1 <= k)%nat -> (k + count <= length (fst st))%nat ->
  runs_wf (fst st) (snd st) k ->
  runs_wf (fst (fold_left (detect_step labels) (seq k count) st))
          (snd (fold_left (detect_step labels) (seq k count) st)) (k + count).
Proof.
  revert k st. induction count as [|count IH]; intros k st Hk Hlen Hwf.
  - rewrite Nat.add_0_r. exact Hwf.
  - cbn [seq fold_left]. replace (k + S count)%nat with (S k + count)%nat by lia.
    apply IH; [lia|rewrite length_detect_step; lia|].
    destruct st as [segments current_segment]. apply detect_step_wf; [cbn in *; lia|exact Hwf].
Qed.

(** The runs that phase 1 detects tile the long frames
    0 .. LONG_FRAME_COUNT-1. *)
Lemma detect_segments_wf (LONG_FRAME_COUNT : nat) (segments : list segment)
    (labels : list bool) :
  (1 <= LONG_FRAME_COUNT <= length segments)%nat ->
  runs_wf (fst (detect_segments LONG_FRAME_COUNT segments labels))
          (snd (detect_segments LONG_FRAME_COUNT segments labels)) LONG_FRAME_COUNT.
Proof.
  intros HN. unfold detect_segments.
  destruct LONG_FRAME_COUNT as [|count]; [lia|].
  cbn [seq fold_left].
  apply (detect_loop_wf labels count 1); [lia|rewrite length_detect_step; cbn; lia|].
  apply detect_step_first. lia.
Qed.

(** *** Phase 2: the merged segments *)

Lemma covered_frames_snoc (l : list segment) (s : segment) :
  covered_frames (l ++ [s]) = covered_frames l ++ segment_frames s.
Proof.
  unfold covered_frames. rewrite flat_map_app. cbn. rewrite app_nil_r. reflexivity.
Qed.

Lemma length_merge_step (has_intro : bool) (segments : list segment)
    (st : list segment * nat) (seg : nat) :
  length (fst (merge_step has_intro segments st seg)) = length (fst st).
Proof.
  destruct st as [merged cm]. unfold merge_step.
  destruct (seg =? 0)%nat; [destruct has_intro|destruct (_ <? _); [|destruct (Bool.eqb _ _)]];
    cbn [fst]; rewrite ?length_modify; reflexivity.
Qed.

Section Phase2.
Variable has_intro : bool.
Variables (segments : list segment) (current_segment LONG_FRAME_COUNT : nat).
Hypothesis runs : runs_wf segments current_segment LONG_FRAME_COUNT.

Lemma merge_step_first (merged_segments : list segment) :
  (0 < length merged_segments)%nat ->
  merged_wf segments (fst (merge_step has_intro segments (merged_segments, 0%nat) 0))
            (snd (merge_step has_intro segments (merged_segments, 0%nat) 0)) 1.
Proof.
  intros Hlen. destruct runs as (_ & H0 & _ & Hle & _).
  specialize (Hle 0%nat ltac:(lia)).
  cbn [merge_step Nat.eqb fst snd]. unfold merged_wf.
  change (1 - 1)%nat with 0%nat.
  split; [lia|]. split; [lia|].
  destruct has_intro.
  - rewrite take_S_modify, covered_frames_snoc, take_0
      by (rewrite length_modify; exact Hlen).
    rewrite !lookup_total_modify. case_decide; [|lia].
    case_decide; [|rewrite length_modify in *; lia].
    unfold segment_frames. cbn. rewrite H0. split; [f_equal; lia|]. split; lia.
  - rewrite take_S_modify, covered_frames_snoc, take_0 by exact Hlen.
    rewrite !lookup_total_modify. case_decide; [|lia].
    unfold segment_frames. cbn. rewrite H0. split; [f_equal; lia|]. split; lia.
Qed.

Lemma merge_step_wf (merged_segments : list segment) (current_merged_segment j : nat) :
  (1 <= j <= current_segment)%nat -> (j < length merged_segments)%nat ->
  merged_wf segments merged_segments current_merged_segment j ->
  merged_wf segments
            (fst (merge_step has_intro segments (merged_segments, current_merged_segment) j))
            (snd (merge_step has_intro segments (merged_segments, current_merged_segment) j))
            (S j).
Proof.
  intros Hj Hlen (Hcm & Hnonneg & Hcov & Hend & Hle).
  destruct runs as (_ & _ & _ & Hrle & Hradj).
  specialize (Hrle j ltac:(lia)). specialize (Hradj (j - 1)%nat ltac:(lia)).
  replace (S (j - 1)) with j in Hradj by lia.
  rewrite take_S_lookup_total, covered_frames_snoc in Hcov by lia.
  unfold segment_frames in Hcov. rewrite Hend in Hcov.
  unfold merge_step. destruct (Nat.eqb_spec j 0) as [|_]; [lia|].
  unfold merged_wf. replace (S j - 1)%nat with j by lia.
  set (run := segments !!! j) in *. set (e := endframe (segments !!! (j - 1)%nat)) in *.
  assert (seqZ 0 (endframe run + 1) = seqZ 0 (e + 1) ++ seqZ (e + 1) (endframe run - e)) as Hall.
  { replace (endframe run + 1) with ((e + 1) + (endframe run - e)) by lia.
    rewrite seqZ_app by lia. reflexivity. }
  assert (absorbed :
    merged_wf segments
      (modify current_merged_segment (fun m => set_endframe m (endframe run)) merged_segments)
      current_merged_segment (S j)).
  { unfold merged_wf. replace (S j - 1)%nat with j by lia. fold run.
    split; [lia|]. split; [lia|].
    rewrite take_S_modify, covered_frames_snoc by lia.
    rewrite lookup_total_modify. case_decide; [|lia].
    unfold segment_frames. cbn [set_endframe startframe endframe].
    split; [|split; [reflexivity|lia]].
    rewrite Hall, <- Hcov, <- app_assoc. f_equal.
    set (a := startframe (merged_segments !!! current_merged_segment)) in *.
    replace (endframe run - a + 1) with ((e - a + 1) + (endframe run - e)) by lia.
    rewrite seqZ_app by lia. do 2 f_equal. lia. }
  unfold merged_wf in absorbed. replace (S j - 1)%nat with j in absorbed by lia.
  destruct (_ <? _); [exact absorbed|]. destruct (Bool.eqb _ _); [exact absorbed|].
  cbn [fst snd]. split; [lia|]. split; [lia|].
  rewrite take_S_modify, covered_frames_snoc by lia.
  rewrite assign_all_fields, lookup_total_modify. case_decide; [|lia].
  rewrite assign_all_fields.
  rewrite take_S_lookup_total, covered_frames_snoc by lia.
  split; [|split; [reflexivity|exact Hrle]].
  unfold segment_frames. rewrite Hend, Hcov, Hall, Hradj. do 2 f_equal. lia.
Qed.

Lemma merge_loop_wf (count j : nat) (st : list segment * nat) :
  (1 <= j)%nat -> (j + count <= S current_segment)%nat ->
  (current_segment < length (fst st))%nat ->
  merged_wf segments (fst st) (snd st) j ->
  merged_wf segments
            (fst (fold_left (merge_step has_intro segments) (seq j count) st))
            (snd (fold_left (merge_step has_intro segments) (seq j count) st))
            (j + count).
Proof.
  revert j st. induction count as [|count IH]; intros j st Hj Hcount Hlen Hwf.
  - rewrite Nat.add_0_r. exact Hwf.
  - cbn [seq fold_left]. replace (j + S count)%nat with (S j + count)%nat by lia.
    apply IH; [lia|lia|rewrite length_merge_step; exact Hlen|].
    destruct st as [merged cm]. apply merge_step_wf; [lia|cbn in *; lia|exact Hwf].
Qed.
End Phase2.

(** Before growth, with at least two detected runs, the merged segments
    0 .. [current_merged_segment] cover, in order and once each, the long
    frames before the start of the last detected run, and stop there: the
    frames of the last run are in no merged segment.  With a single
    detected run, phase 2 stores nothing. *)
Theorem merge_runs_cover_all_but_last_run (has_intro : bool) (LONG_FRAME_COUNT : nat)
    (segments : list segment) (labels : list bool) (merged_segments : list segment) :
  (1 <= LONG_FRAME_COUNT)%nat ->
  (LONG_FRAME_COUNT <= length segments)%nat ->
  (LONG_FRAME_COUNT <= length merged_segments)%nat ->
  let pre := merge_segments_pre_growth has_intro LONG_FRAME_COUNT segments labels
                                       merged_segments in
  let merged := fst (fst pre) in
  let current_segment := snd (fst pre) in
  let current_merged_segment := snd pre in
  (current_segment = 0%nat -> merged = merged_segments /\ current_merged_segment = 0%nat)
  /\ (current_segment <> 0%nat ->
      exists last_start : Z,
        0 < last_start < Z.of_nat LONG_FRAME_COUNT
        /\ covered_frames (take (S current_merged_segment) merged) = seqZ 0 last_start
        /\ covered_frames (take (S current_merged_segment) merged)
           <> all_frames LONG_FRAME_COUNT).
Proof.
  intros HN Hsegs Hmerged. cbv zeta. unfold merge_segments_pre_growth.
  pose proof (detect_segments_wf LONG_FRAME_COUNT segments labels ltac:(lia)) as Hruns.
  destruct (detect_segments LONG_FRAME_COUNT segments labels) as [runs current_segment].
  cbn [fst snd] in Hruns. unfold merge_runs.
  destruct current_segment as [|c].
  - cbn. split; [auto|]. intros []. reflexivity.
  - cbn [seq fold_left].
    pose proof (merge_loop_wf has_intro runs (S c) LONG_FRAME_COUNT Hruns c 1
                  (merge_step has_intro runs (merged_segments, 0%nat) 0)) as Hwf.
    pose proof (merge_step_first has_intro runs (S c) LONG_FRAME_COUNT Hruns
                  merged_segments ltac:(lia)) as Hfirst.
    destruct Hruns as (Hcur & _ & Hlast & Hle & Hadj).
    specialize (Hwf ltac:(lia) ltac:(lia)).
    rewrite length_merge_step in Hwf. cbn [fst] in Hwf.
    specialize (Hwf ltac:(lia) Hfirst).
    destruct (fold_left _ _ _) as [merged cm]. cbn [fst snd] in *.
    split; [discriminate|]. intros _.
    destruct Hwf as (_ & Hnonneg & Hcov & _).
    replace (1 + c - 1)%nat with c in * by lia.
    specialize (Hadj c ltac:(lia)). specialize (Hle (S c) ltac:(lia)).
    exists (endframe (runs !!! c) + 1).
    split; [lia|]. split; [exact Hcov|].
    rewrite Hcov. unfold all_frames. intros Heq.
    apply (f_equal length) in Heq. rewrite !length_seqZ in Heq. lia.
Qed.

(** C1. On the labels T T F F the runs 0-1 and 2-3 are detected, and
    phase 2 visits the first one only ([seg < current_segment], with
    [current_segment] the index of the last run): before growth the one
    merged segment is 0-1, and the long frames 2 and 3 are in no merged
    segment. *)
Theorem merge_segments_drops_last_run (has_intro : bool) (m : segment) :
  merge_segments_pre_growth has_intro 4 (replicate 4 m) [true; true; false; false]
                            (replicate 4 m)
  = ([ {| startframe := 0; endframe := 1;
          is_music := if has_intro then false else is_music m |}; m; m; m ],
     1%nat, 0%nat)
  /\ covered_frames [ {| startframe := 0; endframe := 1;
                         is_music := if has_intro then false else is_music m |} ]
     = [0; 1]
  /\ all_frames 4 = [0; 1; 2; 3].
Proof. destruct has_intro; vm_compute; auto. Qed.

(** C5. On the labels T T F F one merged segment is stored (slot 0) and
    the returned integer is 0; on T F^11 T, with [true] in the [is_music]
    field of the caller's slot 0, two merged segments are stored and the
    returned integer is 1: the index of the last merged segment, not the
    number of merged segments. *)
Theorem merge_segments_returns_last_index (m : segment) :
  merge_segments false 4 (replicate 4 m) [true; true; false; false] (replicate 4 m)
  = ([ {| startframe := 0; endframe := -2; is_music := is_music m |}; m; m; m ], 0)
  /\ merge_segments false 13 (replicate 13 m) (true :: replicate 11 false ++ [true])
       ({| startframe := 0; endframe := 0; is_music := true |} :: replicate 12 m)
     = ({| startframe := 0; endframe := -3; is_music := true |}
        :: {| startframe := -2; endframe := 14; is_music := false |}
        :: replicate 11 m, 1).
Proof. vm_compute; auto. Qed.

(** The runs detected on T F^11 T^10 F. *)
Lemma detect_segments_example (m : segment) :
  detect_segments 23 (replicate 23 m)
                  (true :: replicate 11 false ++ replicate 10 true ++ [false])
  = ({| startframe := 0; endframe := 0; is_music := true |}
     :: {| startframe := 1; endframe := 11; is_music := false |}
     :: {| startframe := 12; endframe := 21; is_music := true |}
     :: {| startframe := 22; endframe := 22; is_music := false |}
     :: replicate 19 m, 3%nat).
Proof. vm_compute. reflexivity. Qed.

(** C4, as claimed, fails: with [has_intro] set, on the labels
    T F^11 T^10 F, the third run (long frames 12 to 21) has 10 long frames
    and the label [true], the merged segment before it has the label
    [false]; the code absorbs the run, the claimed rule (threshold 10 on
    the length) opens a merged segment for it. *)
Lemma merge_step_absorbs_run_of_ten :
  let m := {| startframe := 0; endframe := 0; is_music := false |} in
  let segments :=
    fst (detect_segments 23 (replicate 23 m)
           (true :: replicate 11 false ++ replicate 10 true ++ [false])) in
  let st := fold_left (merge_step true segments) [0; 1]%nat (replicate 23 m, 0%nat) in
  run_length (segments !!! 2%nat) = 10
  /\ is_music (segments !!! 2%nat) = true
  /\ is_music (fst st !!! snd st) = false
  /\ merge_step true segments st 2
     = ({| startframe := 0; endframe := 21; is_music := false |} :: replicate 22 m, 0%nat)
  /\ merge_rule 10 segments st 2
     = ({| startframe := 0; endframe := 11; is_music := false |}
        :: {| startframe := 12; endframe := 21; is_music := true |}
        :: replicate 21 m, 1%nat)
  /\ merge_step true segments st 2 <> merge_rule 10 segments st 2.
Proof. vm_compute. repeat split; discriminate. Qed.

(** C4, amended. A run that phase 2 visits after the first one is
    absorbed into the current merged segment (whose end becomes the end of
    the run) when [endframe - startframe < 10], that is when it has at most
    10 long frames, whatever its label, and when it is longer and has the
    label of the current merged segment; any other run opens a merged
    segment with its own start, end and label. *)
Theorem merge_step_rule (has_intro : bool) (segments : list segment)
    (st : list segment * nat) (seg : nat) :
  seg <> 0%nat ->
  merge_step has_intro segments st seg = merge_rule 11 segments st seg.
Proof.
  intros Hseg. destruct st as [merged_segments current_merged_segment].
  unfold merge_step, merge_rule, run_length.
  destruct (Nat.eqb_spec seg 0) as [|_]; [contradiction|].
  destruct (Z.ltb_spec (endframe (segments !!! seg) - startframe (segments !!! seg)) 10) as [Hlt|Hge];
    destruct (Z.ltb_spec (endframe (segments !!! seg) - startframe (segments !!! seg) + 1) 11);
    try lia; cbn [orb]; [reflexivity|].
  destruct (Bool.eqb _ _); [reflexivity|].
  unfold modify. rewrite assign_all_fields. reflexivity.
Qed.

Lemma merge_step_rule_witness :
  let segments := [ {| startframe := 0; endframe := 0; is_music := true |};
                    {| startframe := 1; endframe := 10; is_music := false |} ] in
  let st := ([ {| startframe := 0; endframe := 0; is_music := true |};
               {| startframe := 7; endframe := 7; is_music := true |} ], 0%nat) in
  1%nat <> 0%nat
  /\ merge_step false segments st 1 = merge_rule 11 segments st 1.
Proof.
  split; [discriminate|]. apply merge_step_rule. discriminate.
Defined.

(** Phase 2 and phase 3 leave the [is_music] field of slot 0 alone when
    [has_intro] is not set. *)
Lemma merge_step_first_label (segments : list segment) (st : list segment * nat) (seg : nat) :
  is_music (fst (merge_step false segments st seg) !!! 0%nat) = is_music (fst st !!! 0%nat).
Proof.
  destruct st as [merged cm]. unfold merge_step. cbn [fst].
  destruct (seg =? 0)%nat; [|destruct (_ <? _); [|destruct (Bool.eqb _ _)]]; cbn [fst].
  - apply (modify_preserves is_music). reflexivity.
  - apply (modify_preserves is_music). reflexivity.
  - apply (modify_preserves is_music). reflexivity.
  - apply (f_equal is_music). apply modify_other. discriminate.
Qed.

Lemma merge_runs_first_label (segments : list segment) (current_segment : nat)
    (merged_segments : list segment) :
  is_music (fst (merge_runs false segments current_segment merged_segments) !!! 0%nat)
  = is_music (merged_segments !!! 0%nat).
Proof.
  unfold merge_runs.
  change merged_segments with (fst (merged_segments, 0%nat)) at 2.
  generalize (merged_segments, 0%nat). generalize (seq 0 current_segment).
  intros idxs. induction idxs as [|seg idxs IH]; intros st; cbn [fold_left]; [reflexivity|].
  rewrite IH. apply merge_step_first_label.
Qed.

Lemma grow_segments_label (has_intro : bool) (current_segment : nat)
    (merged_segments : list segment) (i : nat) :
  is_music (grow_segments has_intro current_segment merged_segments !!! i)
  = is_music (merged_segments !!! i).
Proof.
  unfold grow_segments.
  transitivity (is_music ((if has_intro
     then modify 0%nat (fun m => set_endframe m (endframe m + GROW_BY_AFTER)) merged_segments
     else modify 0%nat (fun m => set_endframe m (endframe m - GROW_BY_BEFORE)) merged_segments)
     !!! i)).
  - generalize (if has_intro
     then modify 0%nat (fun m => set_endframe m (endframe m + GROW_BY_AFTER)) merged_segments
     else modify 0%nat (fun m => set_endframe m (endframe m - GROW_BY_BEFORE)) merged_segments).
    generalize (seq 1 (current_segment - 1)).
    intros idxs. induction idxs as [|seg idxs IH]; intros l; cbn [fold_left]; [reflexivity|].
    rewrite IH. unfold grow_step.
    destruct (is_music (l !!! seg)); apply (modify_preserves is_music); reflexivity.
  - destruct has_intro; apply (modify_preserves is_music); reflexivity.
Qed.

(** C10. Without [has_intro], the [is_music] field of the first merged
    segment after [merge_segments] is the value the caller's storage held
    there before the call, for every label sequence; and the absorption
    decisions depend on it: on T F^11 T the call returns 0 when that value
    is [false] (the second run is absorbed) and 1 when it is [true]. *)
Theorem merge_segments_first_label_unwritten :
  (forall (LONG_FRAME_COUNT : nat) (segments : list segment) (labels : list bool)
          (merged_segments : list segment),
      is_music (fst (merge_segments false LONG_FRAME_COUNT segments labels merged_segments)
                !!! 0%nat)
      = is_music (merged_segments !!! 0%nat))
  /\ (forall m : segment,
        snd (merge_segments false 13 (replicate 13 m) (true :: replicate 11 false ++ [true])
               (replicate 13 (set_is_music m false))) = 0
        /\ snd (merge_segments false 13 (replicate 13 m) (true :: replicate 11 false ++ [true])
                  (replicate 13 (set_is_music m true))) = 1).
Proof.
  split.
  - intros N segments labels merged_segments.
    unfold merge_segments, merge_segments_pre_growth.
    destruct (detect_segments N segments labels) as [segs current_segment].
    pose proof (merge_runs_first_label segs current_segment merged_segments) as Hruns.
    destruct (merge_runs false segs current_segment merged_segments) as [merged cm].
    cbn [fst] in *. rewrite grow_segments_label. exact Hruns.
  - intros m. vm_compute. auto.
Qed.

(** ** RMS extractor *)

(** C7, as claimed, fails under rounding: with one frame per RMS frame,
    the sample 1.0 has the RMS value 15005998 * 2^-26; the sample 3.0 has
    the RMS value 11254499 * 2^-24, and three times the former is
    11254498.5 * 2^-24, which the [float] product rounds to
    11254498 * 2^-24. *)
Lemma calculate_rms_not_homogeneous :
  let k := F32.of_int 3 in
  let samples := [F32.of_int 1] in
  calculate_rms 1 1 samples = [S754_finite false 15005998 (-26)]
  /\ calculate_rms 1 1 (map (F32.mul k) samples) = [S754_finite false 11254499 (-24)]
  /\ map (F32.mul k) (calculate_rms 1 1 samples) = [S754_finite false 11254498 (-24)]
  /\ calculate_rms 1 1 (map (F32.mul k) samples)
     <> map (F32.mul k) (calculate_rms 1 1 samples)
  /\ ~ (SF2Q (S754_finite false 11254499 (-24))
        == 3 * SF2Q (S754_finite false 15005998 (-26)))%Q.
Proof. vm_compute. repeat split; discriminate. Qed.

(** *** Scaling by a power of two

    What remains of C7 under rounding.  The rounding steps of
    [calculate_rms] depend on the mantissas only, as long as no
    intermediate value is subnormal or overflows; multiplying the samples
    by [2^j] moves their exponents by [j], those of the squares and of
    their sum by [2 * j], and that of the RMS value by [j]. *)

(** *** Digits *)

Lemma digits2_pos_size (p : positive) : digits2_pos p = Pos.size p.
Proof. induction p; cbn; congruence. Qed.

Lemma Zdigits2_log2 (m : Z) : 0 < m -> Zdigits2 m = Z.log2 m + 1.
Proof.
  destruct m as [|p|p]; try lia. intros _. cbn [Zdigits2]. rewrite digits2_pos_size.
  destruct p; cbn [Z.log2 Pos.size]; lia.
Qed.

Lemma Zdigits2_bounds (m : Z) :
  0 < m -> 1 <= Zdigits2 m /\ 2 ^ (Zdigits2 m - 1) <= m < 2 ^ Zdigits2 m.
Proof.
  intros Hm. rewrite Zdigits2_log2 by lia.
  pose proof (Z.log2_nonneg m). pose proof (Z.log2_spec m Hm) as Hs.
  replace (Z.log2 m + 1 - 1) with (Z.log2 m) by lia.
  replace (Z.succ (Z.log2 m)) with (Z.log2 m + 1) in Hs by lia. lia.
Qed.

Lemma Zdigits2_unique (m d : Z) :
  1 <= d -> 2 ^ (d - 1) <= m < 2 ^ d -> Zdigits2 m = d.
Proof.
  intros Hd Hm.
  assert (0 < 2 ^ (d - 1)) by (apply Z.pow_pos_nonneg; lia).
  rewrite Zdigits2_log2 by lia.
  rewrite (Z.log2_unique m (d - 1)); [lia|lia|].
  replace (Z.succ (d - 1)) with d by lia. exact Hm.
Qed.

Lemma Zdigits2_upper (m d : Z) : 0 < m -> 0 <= d -> m < 2 ^ d -> Zdigits2 m <= d.
Proof.
  intros Hm Hd Hlt. destruct (Zdigits2_bounds m Hm) as (H1 & Hlo & _).
  apply Z.nlt_ge. intros Hc.
  assert (2 ^ d <= 2 ^ (Zdigits2 m - 1)) by (apply Z.pow_le_mono_r; lia). lia.
Qed.

Lemma Zdigits2_lower (m d : Z) : 1 <= d -> 2 ^ (d - 1) <= m -> d <= Zdigits2 m.
Proof.
  intros Hd Hle.
  assert (0 < 2 ^ (d - 1)) by (apply Z.pow_pos_nonneg; lia).
  destruct (Zdigits2_bounds m ltac:(lia)) as (H1 & _ & Hhi).
  apply Z.nlt_ge. intros Hc.
  assert (2 ^ Zdigits2 m <= 2 ^ (d - 1)) by (apply Z.pow_le_mono_r; lia). lia.
Qed.

Lemma Zdigits2_le (a b : Z) : 0 < a -> a <= b -> Zdigits2 a <= Zdigits2 b.
Proof.
  intros Ha Hab. destruct (Zdigits2_bounds a Ha) as (H1 & Hlo & _).
  apply Zdigits2_lower; lia.
Qed.

Lemma Zdigits2_mul_pow2 (m k : Z) :
  0 < m -> 0 <= k -> Zdigits2 (m * 2 ^ k) = Zdigits2 m + k.
Proof.
  intros Hm Hk. destruct (Zdigits2_bounds m Hm) as (H1 & Hlo & Hhi).
  assert (0 < 2 ^ k) by (apply Z.pow_pos_nonneg; lia).
  apply Zdigits2_unique; [lia|].
  replace (Zdigits2 m + k - 1) with (Zdigits2 m - 1 + k) by lia.
  rewrite !Z.pow_add_r by lia. nia.
Qed.

Lemma Zdigits2_div_pow2 (m k : Z) :
  0 < m -> 0 <= k < Zdigits2 m -> Zdigits2 (m / 2 ^ k) = Zdigits2 m - k.
Proof.
  intros Hm Hk. destruct (Zdigits2_bounds m Hm) as (H1 & Hlo & Hhi).
  assert (0 < 2 ^ k) by (apply Z.pow_pos_nonneg; lia).
  apply Zdigits2_unique; [lia|]. split.
  - apply Z.div_le_lower_bound; [lia|].
    rewrite <- Z.pow_add_r by lia. replace (k + (Zdigits2 m - k - 1)) with (Zdigits2 m - 1) by lia.
    exact Hlo.
  - apply Z.div_lt_upper_bound; [lia|].
    rewrite <- Z.pow_add_r by lia. replace (k + (Zdigits2 m - k)) with (Zdigits2 m) by lia.
    exact Hhi.
Qed.

(** *** Shifts to the right *)

Lemma iter_pos_invariant {A} (f : A -> A) (P : Z -> A -> Prop) :
  (forall k x, 0 <= k -> P k x -> P (k + 1) (f x)) ->
  forall p k x, 0 <= k -> P k x -> P (k + Zpos p) (SpecFloat.iter_pos f p x).
Proof.
  intros Hstep. induction p as [p IH|p IH|]; intros k x Hk HP; cbn [SpecFloat.iter_pos].
  - replace (k + Zpos p~1) with (k + 1 + Zpos p + Zpos p) by lia.
    apply IH; [lia|]. apply IH; [lia|]. apply Hstep; assumption.
  - replace (k + Zpos p~0) with (k + Zpos p + Zpos p) by lia.
    apply IH; [lia|]. apply IH; assumption.
  - apply Hstep; assumption.
Qed.

Lemma shr_1_spec (mrs : shr_record) :
  0 <= shr_m mrs ->
  shr_m (shr_1 mrs) = shr_m mrs / 2
  /\ shr_r (shr_1 mrs) = Z.odd (shr_m mrs)
  /\ shr_s (shr_1 mrs) = shr_r mrs || shr_s mrs.
Proof.
  destruct mrs as [m r s]. cbn [shr_m shr_r shr_s]. intros Hm.
  rewrite <- Z.div2_div.
  destruct m as [|[p|p|]|p]; try lia; cbn; auto.
Qed.

Lemma shr_m_iter (p : positive) (mrs : shr_record) :
  0 <= shr_m mrs ->
  shr_m (SpecFloat.iter_pos shr_1 p mrs) = shr_m mrs / 2 ^ Zpos p.
Proof.
  intros Hm.
  pose proof (iter_pos_invariant shr_1
                (fun k x => 0 <= shr_m x /\ shr_m x = shr_m mrs / 2 ^ k)) as Hinv.
  apply (Hinv ltac:(
    intros k x Hk [Hx0 Hx]; destruct (shr_1_spec x Hx0) as (-> & _);
    split; [apply Z.div_pos; lia|];
    rewrite Hx, Z.pow_add_r, Z.pow_1_r by lia;
    rewrite Z.div_div; [reflexivity|apply Z.pow_nonzero; lia|lia]) p 0 mrs ltac:(lia)).
  split; [exact Hm|]. rewrite Z.pow_0_r, Z.div_1_r. reflexivity.
Qed.

Lemma mod_pow2_succ (m k : Z) :
  0 <= k -> m mod 2 ^ (k + 1) = 0 -> m mod 2 ^ k = 0 /\ Z.odd (m / 2 ^ k) = false.
Proof.
  intros Hk Hm.
  assert (0 < 2 ^ k) as Hp by (apply Z.pow_pos_nonneg; lia).
  apply Z.mod_divide in Hm; [|rewrite Z.pow_add_r by lia; lia].
  destruct Hm as [t Ht]. rewrite Z.pow_add_r, Z.pow_1_r in Ht by lia.
  assert (m = (2 * t) * 2 ^ k) as -> by lia.
  rewrite Z.mod_mul, Z.div_mul by lia. split; [reflexivity|].
  rewrite Z.odd_mul. reflexivity.
Qed.

Lemma shr_exact_iter (p : positive) (m : Z) :
  0 <= m -> m mod 2 ^ Zpos p = 0 ->
  loc_of_shr_record (SpecFloat.iter_pos shr_1 p (shr_record_of_loc m loc_Exact)) = loc_Exact.
Proof.
  intros Hm Hmod.
  pose proof (iter_pos_invariant shr_1
                (fun k x => 0 <= shr_m x /\ shr_m x = m / 2 ^ k
                            /\ (m mod 2 ^ k = 0 -> shr_r x = false /\ shr_s x = false)))
    as Hinv.
  assert (forall k x, 0 <= k ->
            0 <= shr_m x /\ shr_m x = m / 2 ^ k
            /\ (m mod 2 ^ k = 0 -> shr_r x = false /\ shr_s x = false) ->
            0 <= shr_m (shr_1 x) /\ shr_m (shr_1 x) = m / 2 ^ (k + 1)
            /\ (m mod 2 ^ (k + 1) = 0 -> shr_r (shr_1 x) = false /\ shr_s (shr_1 x) = false))
    as Hstep.
  { intros k x Hk (Hx0 & Hx & Hex). destruct (shr_1_spec x Hx0) as (Hm1 & Hr1 & Hs1).
    rewrite Hm1, Hr1, Hs1. split; [apply Z.div_pos; lia|]. split.
    - rewrite Hx, Z.pow_add_r, Z.pow_1_r by lia.
      rewrite Z.div_div; [reflexivity|apply Z.pow_nonzero; lia|lia].
    - intros H1. destruct (mod_pow2_succ m k Hk H1) as [H2 H3].
      destruct (Hex H2) as [-> ->]. rewrite Hx, H3. auto. }
  specialize (Hinv Hstep p 0 (shr_record_of_loc m loc_Exact) ltac:(lia)).
  cbn [shr_record_of_loc shr_m shr_r shr_s] in Hinv.
  destruct Hinv as (_ & _ & Hex).
  { split; [exact Hm|]. rewrite Z.pow_0_r, Z.div_1_r. auto. }
  rewrite Z.add_0_l in Hex. destruct (Hex Hmod) as [Hr Hs].
  destruct (SpecFloat.iter_pos shr_1 p _) as [m' r s]. cbn in Hr, Hs. subst. reflexivity.
Qed.

Lemma shr_m_of_loc (m : Z) (l : location) : shr_m (shr_record_of_loc m l) = m.
Proof. destruct l as [|[]]; reflexivity. Qed.

Lemma loc_of_shr_of_loc (m : Z) (l : location) :
  loc_of_shr_record (shr_record_of_loc m l) = l.
Proof. destruct l as [|[]]; reflexivity. Qed.

Lemma shr_split (mrs : shr_record) (e n : Z) :
  shr mrs e n = (fst (shr mrs 0 n), e + Z.max n 0).
Proof. destruct n; cbn [shr fst]; f_equal; lia. Qed.

Lemma shr_m_shr (m : Z) (l : location) (n : Z) :
  0 <= m -> 0 <= n ->
  shr_m (fst (shr (shr_record_of_loc m l) 0 n)) = m / 2 ^ n.
Proof.
  intros Hm Hn. destruct n as [|p|p]; try lia; cbn [shr fst].
  - rewrite shr_m_of_loc, Z.pow_0_r, Z.div_1_r. reflexivity.
  - rewrite shr_m_iter by (rewrite shr_m_of_loc; exact Hm).
    rewrite shr_m_of_loc. reflexivity.
Qed.

Lemma round_nearest_even_bounds (m : Z) (l : location) :
  m <= round_nearest_even m l <= m + 1.
Proof. destruct l as [|[]]; cbn; try destruct (Z.even m); lia. Qed.

Lemma round_nearest_even_exact (m : Z) : round_nearest_even m loc_Exact = m.
Proof. reflexivity. Qed.

Section RoundCore.
Variable prec : Z.
Hypothesis prec_pos : 1 <= prec.

(** The two stages of [round_core] on a mantissa of at least [prec]
    digits. *)
Lemma round_core_stages (m : Z) (l : location) :
  0 < m -> prec <= Zdigits2 m ->
  let n := Zdigits2 m - prec in
  let mrs' := fst (shr (shr_record_of_loc m l) 0 n) in
  let m1 := round_nearest_even (shr_m mrs') (loc_of_shr_record mrs') in
  shr_m mrs' = m / 2 ^ n
  /\ Zdigits2 (m / 2 ^ n) = prec
  /\ 0 < m / 2 ^ n <= m1 /\ m1 <= m / 2 ^ n + 1
  /\ (Zdigits2 m1 = prec
      /\ round_core prec m l = (m1, n)
      \/ Zdigits2 m1 = prec + 1
         /\ round_core prec m l = (m1 / 2, n + 1)
         /\ Zdigits2 (m1 / 2) = prec).
Proof.
  intros Hm Hd n mrs' m1.
  assert (shr_m mrs' = m / 2 ^ n) as Hq by (apply shr_m_shr; lia).
  assert (Zdigits2 (m / 2 ^ n) = prec) as Hdq
    by (rewrite Zdigits2_div_pow2 by lia; lia).
  assert (m / 2 ^ n <= m1 <= m / 2 ^ n + 1) as Hm1
    by (unfold m1; rewrite <- Hq; apply round_nearest_even_bounds).
  assert (0 < m / 2 ^ n) as Hq0.
  { destruct (Z.lt_trichotomy 0 (m / 2 ^ n)) as [?|[Heq|Hneg]]; [assumption| |].
    - rewrite <- Heq in Hdq. cbn in Hdq. lia.
    - pose proof (Z.div_pos m (2 ^ n) ltac:(lia) ltac:(apply Z.pow_pos_nonneg; lia)). lia. }
  split; [exact Hq|]. split; [exact Hdq|]. split; [lia|]. split; [lia|].
  destruct (Zdigits2_bounds _ Hq0) as (_ & Hlo & Hhi). rewrite Hdq in Hlo, Hhi.
  assert (prec <= Zdigits2 m1) as Hge by (rewrite <- Hdq; apply Zdigits2_le; lia).
  assert (Zdigits2 m1 <= prec + 1) as Hle.
  { apply Zdigits2_upper; [lia|lia|]. rewrite Z.pow_add_r, Z.pow_1_r by lia. lia. }
  assert (round_core prec m l
          = (shr_m (fst (shr (shr_record_of_loc m1 loc_Exact) 0 (Zdigits2 m1 - prec))),
             Z.max n 0 + Z.max (Zdigits2 m1 - prec) 0)) as Hrc by reflexivity.
  destruct (Z.eq_dec (Zdigits2 m1) prec) as [Heq|Hne].
  - left. split; [exact Heq|]. rewrite Hrc, Heq, Z.sub_diag. cbn [shr fst shr_m shr_record_of_loc].
    f_equal. lia.
  - right. assert (Zdigits2 m1 = prec + 1) as Heq by lia. split; [exact Heq|].
    assert (Zdigits2 (m1 / 2) = prec) as Hhalf.
    { change 2 with (2 ^ 1) at 1. rewrite Zdigits2_div_pow2 by lia. lia. }
    split; [|exact Hhalf].
    rewrite Hrc, Heq. replace (prec + 1 - prec) with 1 by lia.
    rewrite shr_m_shr by lia. rewrite Z.pow_1_r. f_equal. lia.
Qed.

Lemma round_core_spec (m : Z) (l : location) :
  0 < m -> prec <= Zdigits2 m ->
  0 < fst (round_core prec m l)
  /\ Zdigits2 (fst (round_core prec m l)) = prec
  /\ Zdigits2 m - prec <= snd (round_core prec m l) <= Zdigits2 m - prec + 1.
Proof.
  intros Hm Hd.
  destruct (round_core_stages m l Hm Hd)
    as (_ & _ & Hq0 & _ & [[Hd1 ->]|(Hd1 & -> & Hd2)]); cbn [fst snd].
  - split; [lia|split; [exact Hd1|lia]].
  - split; [|split; [exact Hd2|lia]].
    pose proof (Z.div_pos (round_nearest_even
                  (shr_m (fst (shr (shr_record_of_loc m l) 0 (Zdigits2 m - prec))))
                  (loc_of_shr_record (fst (shr (shr_record_of_loc m l) 0 (Zdigits2 m - prec)))))
                  2 ltac:(lia) ltac:(lia)) as Hnn.
    destruct (_ / 2) as [|p|p]; cbn in Hd2; lia.
Qed.

(** With an exact location, rounding does not pass a bound [K * 2^t] that
    lies on the grid of the result. *)
Lemma round_core_le (m K t : Z) :
  0 < m -> prec <= Zdigits2 m ->
  Zdigits2 m - prec + 1 <= t -> m <= K * 2 ^ t ->
  fst (round_core prec m loc_Exact)
  <= K * 2 ^ (t - snd (round_core prec m loc_Exact)).
Proof.
  intros Hm Hd Ht Hle.
  destruct (round_core_stages m loc_Exact Hm Hd) as (Hq & Hdq & Hq0 & Hm1 & Hcases).
  set (n := Zdigits2 m - prec) in *.
  assert (0 < 2 ^ n) as Hpn by (apply Z.pow_pos_nonneg; lia).
  assert (K * 2 ^ t = K * 2 ^ (t - n) * 2 ^ n) as HB.
  { rewrite <- Z.mul_assoc, <- Z.pow_add_r by lia. do 2 f_equal. lia. }
  set (mrs' := fst (shr (shr_record_of_loc m loc_Exact) 0 n)) in *.
  set (m1 := round_nearest_even (shr_m mrs') (loc_of_shr_record mrs')) in *.
  assert (m1 <= K * 2 ^ (t - n)) as Hb1.
  { destruct (Z.eq_dec (m mod 2 ^ n) 0) as [Hex|Hin].
    - assert (loc_of_shr_record mrs' = loc_Exact) as Hloc.
      { unfold mrs'. destruct n as [|p|p] eqn:Hn; try lia; cbn [shr fst].
        - reflexivity.
        - apply shr_exact_iter; [lia|exact Hex]. }
      unfold m1. rewrite Hloc, round_nearest_even_exact, Hq.
      apply Z.div_le_upper_bound; [lia|]. lia.
    - assert (m / 2 ^ n < K * 2 ^ (t - n)); [|lia].
      apply Z.div_lt_upper_bound; [lia|].
      pose proof (Z.div_mod m (2 ^ n) ltac:(lia)) as Hdm.
      pose proof (Z.mod_pos_bound m (2 ^ n) Hpn) as Hmb.
      destruct (Z.le_gt_cases (K * 2 ^ (t - n)) (m / 2 ^ n)) as [Hc|Hc]; [|nia].
      exfalso. nia. }
  destruct Hcases as [[_ ->]|(_ & -> & _)]; cbn [fst snd]; [exact Hb1|].
  replace (t - n) with (t - (n + 1) + 1) in Hb1 by lia.
  rewrite Z.pow_add_r, Z.pow_1_r in Hb1 by lia.
  apply Z.div_le_upper_bound; [lia|]. lia.
Qed.

(** When [m] is a [prec]-digit mantissa shifted to the left, rounding
    gives it back. *)
Lemma round_core_exact (m k : Z) :
  0 < m -> Zdigits2 m = prec -> 0 <= k ->
  round_core prec (m * 2 ^ k) loc_Exact = (m, k).
Proof.
  intros Hm Hd Hk.
  assert (0 < 2 ^ k) as Hpk by (apply Z.pow_pos_nonneg; lia).
  assert (Zdigits2 (m * 2 ^ k) = prec + k) as Hdk by (rewrite Zdigits2_mul_pow2; lia).
  destruct (round_core_stages (m * 2 ^ k) loc_Exact ltac:(lia) ltac:(lia))
    as (Hq & Hdq & Hq0 & Hm1 & Hcases).
  rewrite Hdk in *. replace (prec + k - prec) with k in * by lia.
  set (mrs' := fst (shr (shr_record_of_loc (m * 2 ^ k) loc_Exact) 0 k)) in *.
  assert (loc_of_shr_record mrs' = loc_Exact) as Hloc.
  { unfold mrs'. destruct k as [|p|p] eqn:Hkk; try lia; cbn [shr fst].
    - reflexivity.
    - apply shr_exact_iter; [lia|]. apply Z.mod_mul. lia. }
  rewrite Hloc, round_nearest_even_exact, Hq, Z.div_mul in Hcases by lia.
  destruct Hcases as [[_ ->]|(Hbad & _)]; [reflexivity|lia].
Qed.
End RoundCore.

(** *** Rounding away from the limits of the format *)

Section RoundAux.
Variables prec emax : Z.
Hypothesis prec_pos : 1 <= prec.

Lemma fexp_linear (t : Z) : emin prec emax + prec <= t -> fexp prec emax t = t - prec.
Proof. intros Ht. unfold fexp. lia. Qed.

Lemma shr_fexp_linear (m e : Z) (l : location) :
  emin prec emax + prec <= Zdigits2 m + e ->
  shr_fexp prec emax m e l
  = (fst (shr (shr_record_of_loc m l) 0 (Zdigits2 m - prec)),
     e + Z.max (Zdigits2 m - prec) 0).
Proof.
  intros Ht. unfold shr_fexp. rewrite fexp_linear by exact Ht.
  replace (Zdigits2 m + e - prec - e) with (Zdigits2 m - prec) by lia.
  apply shr_split.
Qed.

Lemma binary_round_aux_core (s : bool) (m e : Z) (l : location) :
  0 < m -> prec <= Zdigits2 m ->
  emin prec emax + prec <= Zdigits2 m + e ->
  Zdigits2 m + e + 1 <= emax ->
  binary_round_aux prec emax s m e l
  = S754_finite s (Z.to_pos (fst (round_core prec m l))) (e + snd (round_core prec m l)).
Proof.
  intros Hm Hd Hlo Hhi.
  pose proof (round_core_spec prec prec_pos m l Hm Hd) as (Hpos & Hdig & Hoff).
  destruct (round_core_stages prec prec_pos m l Hm Hd) as (Hq & Hdq & Hq0 & Hm1 & Hcases).
  unfold binary_round_aux. rewrite shr_fexp_linear by exact Hlo.
  set (n := Zdigits2 m - prec) in *.
  set (mrs' := fst (shr (shr_record_of_loc m l) 0 n)) in *.
  set (m1 := round_nearest_even (shr_m mrs') (loc_of_shr_record mrs')) in *.
  assert (prec <= Zdigits2 m1) as Hd1 by (destruct Hcases as [[? _]|[? _]]; lia).
  rewrite shr_fexp_linear by lia.
  assert (round_core prec m l
          = (shr_m (fst (shr (shr_record_of_loc m1 loc_Exact) 0 (Zdigits2 m1 - prec))),
             Z.max n 0 + Z.max (Zdigits2 m1 - prec) 0)) as Hrc by reflexivity.
  rewrite Hrc in *. cbn [fst snd] in *.
  destruct (shr_m (fst (shr (shr_record_of_loc m1 loc_Exact) 0 (Zdigits2 m1 - prec))))
    as [|p|p]; try lia.
  assert ((e + Z.max n 0 + Z.max (Zdigits2 m1 - prec) 0 <=? emax - prec) = true) as ->
    by (apply Z.leb_le; lia).
  cbn [Z.to_pos]. f_equal. lia.
Qed.
End RoundAux.

Lemma Zpos_iter_xO (m d : positive) : Zpos (Pos.iter xO m d) = Zpos m * 2 ^ Zpos d.
Proof.
  induction d as [|d IH] using Pos.peano_ind.
  - cbn. lia.
  - rewrite Pos.iter_succ, Pos2Z.inj_succ, Z.pow_succ_r by lia.
    rewrite Pos2Z.inj_xO, IH. lia.
Qed.

Lemma shl_align_spec (mx : positive) (ex ex' : Z) :
  Zpos (fst (shl_align mx ex ex')) = Zpos mx * 2 ^ Z.max (ex - ex') 0
  /\ snd (shl_align mx ex ex') = Z.min ex ex'.
Proof.
  unfold shl_align. destruct (ex' - ex) as [|d|d] eqn:Hd; cbn [fst snd].
  - replace (Z.max (ex - ex') 0) with 0 by lia. rewrite Z.pow_0_r. lia.
  - replace (Z.max (ex - ex') 0) with 0 by lia. rewrite Z.pow_0_r. lia.
  - rewrite Zpos_iter_xO. replace (Z.max (ex - ex') 0) with (Zpos d) by lia. lia.
Qed.

Section Round.
Variables prec emax : Z.
Hypothesis prec_pos : 1 <= prec.

Lemma binary_round_aux_spec (m : Z) (l : location) :
  0 < m -> prec <= Zdigits2 m ->
  exists (mo : positive) (off : Z),
    Zpos (digits2_pos mo) = prec
    /\ Zdigits2 m - prec <= off <= Zdigits2 m - prec + 1
    /\ (l = loc_Exact -> forall K t,
          Zdigits2 m - prec + 1 <= t -> m <= K * 2 ^ t -> Zpos mo <= K * 2 ^ (t - off))
    /\ (forall s e, in_format prec emax (Zdigits2 m + e) ->
          binary_round_aux prec emax s m e l = S754_finite s mo (e + off)).
Proof.
  intros Hm Hd.
  pose proof (round_core_spec prec prec_pos m l Hm Hd) as (Hpos & Hdig & Hoff).
  exists (Z.to_pos (fst (round_core prec m l))), (snd (round_core prec m l)).
  assert (Zpos (Z.to_pos (fst (round_core prec m l))) = fst (round_core prec m l)) as Hz
    by (apply Z2Pos.id; lia).
  split; [|split; [exact Hoff|split]].
  - change (Zdigits2 (Zpos (Z.to_pos (fst (round_core prec m l)))) = prec).
    rewrite Hz. exact Hdig.
  - intros -> K t Ht Hle. rewrite Hz. apply round_core_le; assumption.
  - intros s e [Hlo Hhi]. apply binary_round_aux_core; assumption.
Qed.

Lemma binary_round_spec (mx : positive) :
  exists (mo : positive) (off : Z),
    Zpos (digits2_pos mo) = prec
    /\ Zdigits2 (Zpos mx) - prec <= off <= Zdigits2 (Zpos mx) - prec + 1
    /\ (forall K t,
          Zdigits2 (Zpos mx) - prec + 1 <= t -> Zpos mx <= K * 2 ^ t ->
          Zpos mo <= K * 2 ^ (t - off))
    /\ (forall s e, in_format prec emax (Zdigits2 (Zpos mx) + e) ->
          binary_round prec emax s mx e = S754_finite s mo (e + off)).
Proof.
  set (dx := Zdigits2 (Zpos mx)).
  assert (1 <= dx) as Hdx by (apply (Zdigits2_bounds (Zpos mx)); lia).
  set (d := Z.max (prec - dx) 0).
  assert (d = Z.max (prec - dx) 0) as Hdd by reflexivity. clearbody d.
  assert (0 < 2 ^ d) as Hpd by (apply Z.pow_pos_nonneg; lia).
  assert (Zdigits2 (Zpos mx * 2 ^ d) = dx + d) as Hdz
    by (apply Zdigits2_mul_pow2; lia).
  destruct (binary_round_aux_spec (Zpos mx * 2 ^ d) loc_Exact
              ltac:(apply Z.mul_pos_pos; lia) ltac:(rewrite Hdz; lia))
    as (mo & off & Hdig & Hoff & Hle & Hbra).
  exists mo, (off - d). rewrite Hdz in *.
  split; [exact Hdig|]. split; [lia|]. split.
  - intros K t Ht HK. replace (t - (off - d)) with (t + d - off) by lia.
    assert (0 <= t) as Ht0.
    { apply Z.nlt_ge. intros Hneg. rewrite Z.pow_neg_r in HK by lia. lia. }
    apply (Hle eq_refl); [lia|]. rewrite Z.pow_add_r, Z.mul_assoc by lia.
    apply Z.mul_le_mono_nonneg_r; lia.
  - intros s e Hfmt. unfold binary_round.
    fold dx in Hfmt. change (Zpos (digits2_pos mx)) with dx.
    rewrite (fexp_linear prec emax) by apply Hfmt.
    pose proof (shl_align_spec mx e (dx + e - prec)) as [Hfst Hsnd].
    destruct (shl_align mx e (dx + e - prec)) as [mz ez]. cbn [fst snd] in *.
    replace (Z.max (e - (dx + e - prec)) 0) with d in Hfst by lia.
    rewrite Hfst. rewrite (Hbra s ez) by (rewrite Hsnd; unfold in_format in *; lia).
    f_equal. lia.
Qed.
End Round.

Lemma in_format_between (prec emax a b t : Z) :
  in_format prec emax a -> in_format prec emax b -> a <= t <= b -> in_format prec emax t.
Proof. unfold in_format. lia. Qed.

Lemma pow2_le_from_bound (m K t : Z) : 0 < m -> m <= K * 2 ^ t -> 0 <= t /\ 0 < K.
Proof.
  intros Hm Hle. split.
  - apply Z.nlt_ge. intros Hneg. rewrite Z.pow_neg_r in Hle by lia. lia.
  - destruct (Z.lt_ge_cases t 0) as [Hneg|Hpos].
    + rewrite Z.pow_neg_r in Hle by lia. lia.
    + pose proof (Z.pow_pos_nonneg 2 t ltac:(lia) Hpos). nia.
Qed.

Lemma scale_bound (m K a b : Z) :
  0 <= a -> 0 <= b -> m <= K * 2 ^ a -> m * 2 ^ b <= K * 2 ^ (a + b).
Proof.
  intros Ha Hb Hm. rewrite Z.pow_add_r, Z.mul_assoc by lia.
  apply Z.mul_le_mono_nonneg_r; [|exact Hm].
  apply Z.lt_le_incl, Z.pow_pos_nonneg; lia.
Qed.

Lemma Zdigits2_mul_bounds (a b : Z) :
  0 < a -> 0 < b ->
  Zdigits2 a + Zdigits2 b - 1 <= Zdigits2 (a * b) <= Zdigits2 a + Zdigits2 b.
Proof.
  intros Ha Hb.
  destruct (Zdigits2_bounds a Ha) as (Ha1 & Halo & Hahi).
  destruct (Zdigits2_bounds b Hb) as (Hb1 & Hblo & Hbhi).
  assert (0 < 2 ^ (Zdigits2 a - 1)) by (apply Z.pow_pos_nonneg; lia).
  assert (0 < 2 ^ (Zdigits2 b - 1)) by (apply Z.pow_pos_nonneg; lia).
  split.
  - apply Zdigits2_lower; [lia|].
    replace (Zdigits2 a + Zdigits2 b - 1 - 1) with ((Zdigits2 a - 1) + (Zdigits2 b - 1)) by lia.
    rewrite Z.pow_add_r by lia. nia.
  - apply Zdigits2_upper; [nia|lia|].
    rewrite Z.pow_add_r by lia. nia.
Qed.

(** *** The operations of [calculate_rms] on normal numbers *)

Section SquareAndSum.
Variables prec emax : Z.
Hypothesis prec_big : 2 <= prec.

(** The square of a [prec]-digit number. *)
Lemma square_spec (m : positive) :
  Zpos (digits2_pos m) = prec ->
  exists (mo : positive) (off : Z),
    Zpos (digits2_pos mo) = prec
    /\ prec - 1 <= off <= prec + 1
    /\ (forall t, 0 <= t -> Zpos m <= 2 ^ t -> 0 <= 2 * t - off /\ Zpos mo <= 2 ^ (2 * t - off))
    /\ (forall s e, in_format prec emax (2 * (prec + e) - 1) ->
          in_format prec emax (2 * (prec + e)) ->
          SFmul prec emax (S754_finite s m e) (S754_finite s m e)
          = S754_finite false mo (e + e + off)).
Proof.
  intros Hd.
  pose proof (Zdigits2_mul_bounds (Zpos m) (Zpos m) ltac:(lia) ltac:(lia)) as Hdm.
  change (Zdigits2 (Zpos m)) with (Zpos (digits2_pos m)) in Hdm. rewrite Hd in Hdm.
  destruct (binary_round_aux_spec prec emax ltac:(lia) (Zpos m * Zpos m) loc_Exact
              ltac:(lia) ltac:(lia)) as (mo & off & Hdig & Hoff & Hle & Hbra).
  exists mo, off. split; [exact Hdig|]. split; [lia|]. split.
  - intros t Ht Hm.
    assert (Zpos m * Zpos m <= 1 * 2 ^ (2 * t)) as Hsq.
    { replace (2 * t) with (t + t) by lia. rewrite Z.pow_add_r by lia. nia. }
    assert (Zdigits2 (Zpos m * Zpos m) - prec + 1 <= 2 * t) as Hgrid.
    { assert (Zdigits2 (Zpos m * Zpos m) <= 2 * t + 1); [|lia].
      apply Zdigits2_upper; [lia|lia|].
      rewrite Z.pow_add_r, Z.pow_1_r by lia. lia. }
    pose proof (Hle eq_refl 1 (2 * t) Hgrid Hsq) as Hb.
    rewrite Z.mul_1_l in Hb. split; [|exact Hb].
    apply (pow2_le_from_bound (Zpos mo) 1); lia.
  - intros s e H1 H2. cbn [SFmul]. rewrite xorb_nilpotent.
    change (Zpos (m * m)) with (Zpos m * Zpos m).
    apply Hbra. apply (in_format_between prec emax _ _ _ H1 H2). lia.
Qed.

(** The sum of two positive [prec]-digit numbers. *)
Lemma add_spec (m1 m2 : positive) (e1 e2 : Z) :
  Zpos (digits2_pos m1) = prec -> Zpos (digits2_pos m2) = prec ->
  exists (mo : positive) (eo : Z),
    Zpos (digits2_pos mo) = prec
    /\ Z.max e1 e2 <= eo
    /\ (forall K1 K2 T, e1 <= T -> e2 <= T ->
          Zpos m1 <= K1 * 2 ^ (T - e1) -> Zpos m2 <= K2 * 2 ^ (T - e2) ->
          Zdigits2 (K1 + K2) < prec ->
          eo <= T /\ Zpos mo <= (K1 + K2) * 2 ^ (T - eo))
    /\ (forall j, in_format prec emax (prec + Z.max e1 e2 + j) ->
          in_format prec emax (prec + eo + j) ->
          SFadd prec emax (S754_finite false m1 (e1 + j)) (S754_finite false m2 (e2 + j))
          = S754_finite false mo (eo + j)).
Proof.
  intros Hd1 Hd2.
  set (ez := Z.min e1 e2).
  set (M := Zpos m1 * 2 ^ (e1 - ez) + Zpos m2 * 2 ^ (e2 - ez)).
  assert (0 < 2 ^ (e1 - ez)) as Hp1 by (apply Z.pow_pos_nonneg; lia).
  assert (0 < 2 ^ (e2 - ez)) as Hp2 by (apply Z.pow_pos_nonneg; lia).
  assert (0 < M) as HM by (unfold M; nia).
  assert (Zdigits2 (Zpos m1 * 2 ^ (e1 - ez)) = prec + (e1 - ez)) as HdA
    by (rewrite Zdigits2_mul_pow2 by lia; cbn [Zdigits2]; lia).
  assert (Zdigits2 (Zpos m2 * 2 ^ (e2 - ez)) = prec + (e2 - ez)) as HdB
    by (rewrite Zdigits2_mul_pow2 by lia; cbn [Zdigits2]; lia).
  assert (prec + (Z.max e1 e2 - ez) <= Zdigits2 M) as HdM.
  { destruct (Z.le_ge_cases e1 e2).
    - replace (Z.max e1 e2) with e2 by lia. rewrite <- HdB.
      apply Zdigits2_le; [nia|unfold M; nia].
    - replace (Z.max e1 e2) with e1 by lia. rewrite <- HdA.
      apply Zdigits2_le; [nia|unfold M; nia]. }
  destruct M as [|Mp|Mp] eqn:HMp; try lia.
  destruct (binary_round_spec prec emax ltac:(lia) Mp)
    as (mo & off & Hdig & Hoff & Hle & Hbr).
  exists mo, (ez + off). split; [exact Hdig|]. split; [lia|]. split.
  - intros K1 K2 T HT1 HT2 HK1 HK2 HK.
    assert (0 < 2 ^ (T - e1)) as Hq1 by (apply Z.pow_pos_nonneg; lia).
    assert (0 < 2 ^ (T - e2)) as Hq2 by (apply Z.pow_pos_nonneg; lia).
    assert (Zpos Mp <= (K1 + K2) * 2 ^ (T - ez)) as HMK.
    { rewrite <- HMp. unfold M. rewrite Z.mul_add_distr_r.
      apply Z.add_le_mono.
      - replace (T - ez) with ((T - e1) + (e1 - ez)) by lia.
        apply scale_bound; [lia|lia|exact HK1].
      - replace (T - ez) with ((T - e2) + (e2 - ez)) by lia.
        apply scale_bound; [lia|lia|exact HK2]. }
    assert (0 < K1 + K2) as HKpos.
    { pose proof (Z.pow_pos_nonneg 2 (T - ez) ltac:(lia) ltac:(lia)). nia. }
    assert (Zdigits2 (Zpos Mp) <= Zdigits2 (K1 + K2) + (T - ez)) as HdMK.
    { rewrite <- Zdigits2_mul_pow2 by lia. apply Zdigits2_le; lia. }
    pose proof (Hle (K1 + K2) (T - ez) ltac:(lia) HMK) as Hb.
    replace (T - (ez + off)) with (T - ez - off) by lia.
    split; [|exact Hb].
    destruct (pow2_le_from_bound (Zpos mo) (K1 + K2) (T - ez - off) ltac:(lia) Hb). lia.
  - intros j H1 H2. cbn [SFadd cond_Zopp].
    replace (Z.min (e1 + j) (e2 + j)) with (ez + j) by lia.
    pose proof (shl_align_spec m1 (e1 + j) (ez + j)) as [HA _].
    pose proof (shl_align_spec m2 (e2 + j) (ez + j)) as [HB _].
    replace (Z.max (e1 + j - (ez + j)) 0) with (e1 - ez) in HA by lia.
    replace (Z.max (e2 + j - (ez + j)) 0) with (e2 - ez) in HB by lia.
    rewrite HA, HB. fold M. rewrite HMp. cbn [binary_normalize].
    rewrite Hbr; [f_equal; lia|].
    apply (in_format_between prec emax _ _ _ H1 H2). lia.
Qed.
End SquareAndSum.

Section QuotientAndRoot.
Variables prec emax : Z.
Hypothesis prec_big : 2 <= prec.

Lemma SFdiv_core_binary_normal (m1 m2 : positive) (e1 e2 : Z) :
  Zpos (digits2_pos m1) = prec -> Zpos (digits2_pos m2) = prec ->
  emin prec emax + prec <= e1 - e2 ->
  SFdiv_core_binary prec emax (Zpos m1) e1 (Zpos m2) e2
  = (Zpos m1 * 2 ^ prec / Zpos m2, e1 - e2 - prec,
     new_location (Zpos m2) ((Zpos m1 * 2 ^ prec) mod Zpos m2)).
Proof.
  intros Hd1 Hd2 Hlin. unfold SFdiv_core_binary. cbn [Zdigits2]. rewrite Hd1, Hd2.
  replace (prec + e1 - (prec + e2)) with (e1 - e2) by lia.
  rewrite fexp_linear by exact Hlin.
  replace (Z.min (e1 - e2 - prec) (e1 - e2)) with (e1 - e2 - prec) by lia.
  replace (e1 - e2 - (e1 - e2 - prec)) with prec by lia.
  unfold Z.div, Z.modulo.
  destruct prec as [|p|p] eqn:Hp; try lia.
  rewrite Z.shiftl_mul_pow2 by lia.
  destruct (Z.div_eucl (Zpos m1 * 2 ^ Zpos p) (Zpos m2)) as [q r]. reflexivity.
Qed.

Lemma div_spec (m1 m2 : positive) :
  Zpos (digits2_pos m1) = prec -> Zpos (digits2_pos m2) = prec ->
  exists (mo : positive) (off : Z),
    Zpos (digits2_pos mo) = prec
    /\ - prec <= off <= - prec + 2
    /\ (forall s1 s2 e1 e2,
          in_format prec emax (e1 - e2) -> in_format prec emax (e1 - e2 + 1) ->
          SFdiv prec emax (S754_finite s1 m1 e1) (S754_finite s2 m2 e2)
          = S754_finite (xorb s1 s2) mo (e1 - e2 + off)).
Proof.
  intros Hd1 Hd2.
  destruct (Zdigits2_bounds (Zpos m1) ltac:(lia)) as (_ & Hlo1 & Hhi1).
  destruct (Zdigits2_bounds (Zpos m2) ltac:(lia)) as (_ & Hlo2 & Hhi2).
  cbn [Zdigits2] in *. rewrite Hd1 in *. rewrite Hd2 in *.
  assert (0 < 2 ^ (prec - 1)) as Hp1 by (apply Z.pow_pos_nonneg; lia).
  assert (2 ^ prec = 2 * 2 ^ (prec - 1)) as Hpp.
  { replace prec with (1 + (prec - 1)) at 1 by lia. rewrite Z.pow_add_r by lia. lia. }
  set (q := Zpos m1 * 2 ^ prec / Zpos m2).
  assert (2 ^ (prec - 1) <= q) as Hqlo.
  { apply Z.div_le_lower_bound; [lia|]. nia. }
  assert (q < 2 ^ (prec + 1)) as Hqhi.
  { apply Z.div_lt_upper_bound; [lia|].
    rewrite Z.pow_add_r, Z.pow_1_r by lia. nia. }
  assert (prec <= Zdigits2 q) as Hdq1 by (apply Zdigits2_lower; lia).
  assert (Zdigits2 q <= prec + 1) as Hdq2 by (apply Zdigits2_upper; lia).
  destruct (binary_round_aux_spec prec emax ltac:(lia) q
              (new_location (Zpos m2) ((Zpos m1 * 2 ^ prec) mod Zpos m2))
              ltac:(lia) Hdq1) as (mo & off & Hdig & Hoff & _ & Hbra).
  exists mo, (off - prec). split; [exact Hdig|]. split; [lia|].
  intros s1 s2 e1 e2 H1 H2. cbn [SFdiv].
  rewrite SFdiv_core_binary_normal by (try assumption; apply H1).
  fold q. rewrite Hbra; [f_equal; lia|].
  apply (in_format_between prec emax _ _ _ H1 H2). lia.
Qed.

Lemma SFsqrt_core_binary_normal (m : positive) (e : Z) :
  Zpos (digits2_pos m) = prec ->
  emin prec emax + prec <= Z.div2 (prec + e + 1) ->
  let s := e - 2 * (Z.div2 (prec + e + 1) - prec) in
  let m' := Zpos m * 2 ^ s in
  SFsqrt_core_binary prec emax (Zpos m) e
  = (Z.sqrt m', Z.div2 (prec + e + 1) - prec,
     if m' - Z.sqrt m' * Z.sqrt m' =? 0 then loc_Exact
     else loc_Inexact (if m' - Z.sqrt m' * Z.sqrt m' <=? Z.sqrt m' then Lt else Gt)).
Proof.
  intros Hd Hlin s m'. unfold SFsqrt_core_binary. cbn [Zdigits2]. rewrite Hd.
  rewrite fexp_linear by exact Hlin.
  assert (Z.min (Z.div2 (prec + e + 1) - prec) (Z.div2 e) = Z.div2 (prec + e + 1) - prec)
    as ->.
  { rewrite !Z.div2_div. apply Z.min_l.
    pose proof (Z.div_mod (prec + e + 1) 2 ltac:(lia)).
    pose proof (Z.mod_pos_bound (prec + e + 1) 2 ltac:(lia)).
    pose proof (Z.div_mod e 2 ltac:(lia)).
    pose proof (Z.mod_pos_bound e 2 ltac:(lia)). lia. }
  fold s.
  assert (prec - 1 <= s <= prec) as Hs.
  { unfold s. rewrite Z.div2_div.
    pose proof (Z.div_mod (prec + e + 1) 2 ltac:(lia)).
    pose proof (Z.mod_pos_bound (prec + e + 1) 2 ltac:(lia)). lia. }
  destruct s as [|p|p] eqn:Hsp; try lia.
  rewrite Z.shiftl_mul_pow2 by lia. fold m'.
  pose proof (Z.sqrtrem_spec m') as Hspec.
  pose proof (Z.sqrtrem_sqrt m') as Hsq.
  destruct (Z.sqrtrem m') as [q r]. cbn [fst] in Hsq. subst q.
  assert (0 <= m') as Hm' by (unfold m'; pose proof (Z.pow_pos_nonneg 2 (Zpos p)); nia).
  destruct (Hspec Hm') as [Heq _].
  replace (m' - Z.sqrt m' * Z.sqrt m') with r by lia. reflexivity.
Qed.

Lemma sqrt_spec (m : positive) (e : Z) :
  Zpos (digits2_pos m) = prec ->
  exists (mo : positive) (eo : Z),
    Zpos (digits2_pos mo) = prec
    /\ Z.div2 (prec + e + 1) - prec <= eo <= Z.div2 (prec + e + 1) - prec + 1
    /\ (forall j, in_format prec emax (Z.div2 (prec + e + 1) + j) ->
          SFsqrt prec emax (S754_finite false m (e + 2 * j)) = S754_finite false mo (eo + j)).
Proof.
  intros Hd.
  destruct (Zdigits2_bounds (Zpos m) ltac:(lia)) as (_ & Hlo & Hhi).
  cbn [Zdigits2] in *. rewrite Hd in *.
  set (s := e - 2 * (Z.div2 (prec + e + 1) - prec)).
  assert (prec - 1 <= s <= prec) as Hs.
  { unfold s. rewrite Z.div2_div.
    pose proof (Z.div_mod (prec + e + 1) 2 ltac:(lia)).
    pose proof (Z.mod_pos_bound (prec + e + 1) 2 ltac:(lia)). lia. }
  set (m' := Zpos m * 2 ^ s).
  assert (0 < 2 ^ (prec - 1)) as Hp1 by (apply Z.pow_pos_nonneg; lia).
  assert (2 ^ (prec - 1) * 2 ^ (prec - 1) <= m') as Hm'lo.
  { unfold m'. assert (2 ^ (prec - 1) <= 2 ^ s) by (apply Z.pow_le_mono_r; lia). nia. }
  assert (m' < 2 ^ prec * 2 ^ prec) as Hm'hi.
  { unfold m'. assert (2 ^ s <= 2 ^ prec) by (apply Z.pow_le_mono_r; lia).
    assert (0 < 2 ^ s) by (apply Z.pow_pos_nonneg; lia). nia. }
  assert (2 ^ (prec - 1) <= Z.sqrt m') as Hqlo.
  { rewrite <- (Z.sqrt_square (2 ^ (prec - 1))) by lia. apply Z.sqrt_le_mono. lia. }
  assert (Z.sqrt m' < 2 ^ prec) as Hqhi.
  { apply Z.sqrt_lt_square; [lia|lia|]. lia. }
  assert (Zdigits2 (Z.sqrt m') = prec) as Hdq by (apply Zdigits2_unique; lia).
  destruct (binary_round_aux_spec prec emax ltac:(lia) (Z.sqrt m')
              (if m' - Z.sqrt m' * Z.sqrt m' =? 0 then loc_Exact
               else loc_Inexact (if m' - Z.sqrt m' * Z.sqrt m' <=? Z.sqrt m' then Lt else Gt))
              ltac:(lia) ltac:(lia)) as (mo & off & Hdig & Hoff & _ & Hbra).
  exists mo, (Z.div2 (prec + e + 1) - prec + off).
  split; [exact Hdig|]. split; [lia|].
  intros j Hfmt. cbn [SFsqrt].
  assert (Z.div2 (prec + (e + 2 * j) + 1) = Z.div2 (prec + e + 1) + j) as Hdiv2.
  { rewrite !Z.div2_div. replace (prec + (e + 2 * j) + 1) with (prec + e + 1 + j * 2) by lia.
    apply Z.div_add. lia. }
  pose proof (SFsqrt_core_binary_normal m (e + 2 * j) Hd) as Hcore.
  rewrite Hdiv2 in Hcore. specialize (Hcore ltac:(apply Hfmt)). cbv zeta in Hcore.
  replace (e + 2 * j - 2 * (Z.div2 (prec + e + 1) + j - prec)) with s in Hcore
    by (unfold s; lia).
  fold m' in Hcore. rewrite Hcore.
  rewrite Hbra; [f_equal; lia|].
  rewrite Hdq. replace (prec + (Z.div2 (prec + e + 1) + j - prec))
    with (Z.div2 (prec + e + 1) + j) by lia. exact Hfmt.
Qed.
End QuotientAndRoot.

(** *** The loop of [calculate_rms] on scaled samples *)

Lemma in_format64 (t : Z) : -1021 <= t <= 1023 -> in_format 53 1024 t.
Proof. unfold in_format, emin. lia. Qed.

Lemma in_format32 (t : Z) : -125 <= t <= 127 -> in_format 24 128 t.
Proof. unfold in_format, emin. lia. Qed.

(** The square of a sample, in [double]. *)
Lemma square_of_sample (m : positive) :
  exists (mt : positive) (off : Z),
    Zpos (digits2_pos mt) = 53
    /\ 2 * Zpos (digits2_pos m) - 1 <= 53 + off
    /\ 0 <= 2 * Zpos (digits2_pos m) - off
    /\ Zpos mt <= 2 ^ (2 * Zpos (digits2_pos m) - off)
    /\ (forall s e, -500 <= Zpos (digits2_pos m) + e <= 500 ->
          F64.pow2 (F64.of_float (S754_finite s m e)) = S754_finite false mt (2 * e + off)).
Proof.
  destruct (binary_round_spec 53 1024 ltac:(lia) m) as (m1 & off1 & Hd1 & Hoff1 & Hle1 & Hbr).
  destruct (square_spec 53 1024 ltac:(lia) m1 Hd1) as (mt & off2 & Hdt & Hoff2 & Hle2 & Hsq).
  cbn [Zdigits2] in *.
  set (d := Zpos (digits2_pos m)) in *.
  assert (1 <= d) as Hd by (apply (Zdigits2_bounds (Zpos m)); lia).
  assert (Zpos m1 <= 2 ^ (d - off1)) as Hv1.
  { pose proof (Hle1 1 d ltac:(lia)) as H. rewrite !Z.mul_1_l in H. apply H.
    apply Z.lt_le_incl, (Zdigits2_bounds (Zpos m)). lia. }
  assert (0 <= d - off1) as Hnn.
  { apply (pow2_le_from_bound (Zpos m1) 1); lia. }
  destruct (Hle2 (d - off1) Hnn Hv1) as [Hnn2 Hv2].
  exists mt, (2 * off1 + off2).
  split; [exact Hdt|]. split; [lia|].
  replace (2 * d - (2 * off1 + off2)) with (2 * (d - off1) - off2) by lia.
  split; [exact Hnn2|]. split; [exact Hv2|].
  intros s e He. unfold F64.pow2, F64.of_float, F64.mul, F64.prec, F64.emax.
  rewrite Hbr by (apply in_format64; fold d; lia).
  rewrite Hsq by (apply in_format64; lia).
  f_equal. lia.
Qed.

(** Multiplying a normal binary32 number by [2^j] moves its exponent. *)
Lemma mul_power_of_two (j : Z) (s : bool) (m : positive) (e : Z) :
  Zpos (digits2_pos m) = 24 -> -125 <= 24 + e + j <= 127 ->
  F32.mul (power_of_two j) (S754_finite s m e) = S754_finite s m (e + j).
Proof.
  intros Hd Hr. unfold F32.mul, power_of_two, F32.prec, F32.emax. cbn [SFmul xorb].
  replace (Zpos (8388608 * m)) with (Zpos m * 2 ^ 23)
    by (change (2 ^ 23) with 8388608; lia).
  assert (Zdigits2 (Zpos m * 2 ^ 23) = 47) as Hdm.
  { rewrite Zdigits2_mul_pow2 by lia. cbn [Zdigits2]. lia. }
  rewrite binary_round_aux_core; try lia.
  - rewrite round_core_exact by (cbn [Zdigits2]; lia). cbn [fst snd Z.to_pos].
    f_equal. lia.
  - rewrite Hdm. unfold emin. lia.
Qed.

Lemma mul_power_of_two_zero (j : Z) (s : bool) :
  F32.mul (power_of_two j) (S754_zero s) = S754_zero s.
Proof. reflexivity. Qed.

Section Scaling.
Variables j lo hi : Z.
Hypothesis lo_ge : -122 <= lo.
Hypothesis hi_le : hi <= 126.

Lemma sum_in_range_le (c : Z) (m : positive) (e : Z) :
  sum_in_range (2 * lo - 1) (2 * hi) c m e -> 0 < c /\ e <= (2 * hi) /\ 53 + e <= 2 * hi + Zdigits2 c.
Proof.
  intros (Hd & HL & Hv).
  destruct (pow2_le_from_bound (Zpos m) c (2 * hi - e) ltac:(lia) Hv) as [Hnn Hc].
  assert (Zdigits2 (Zpos m) <= Zdigits2 (c * 2 ^ (2 * hi - e))) as Hdd
    by (apply Zdigits2_le; lia).
  rewrite Zdigits2_mul_pow2 in Hdd by lia.
  change (Zdigits2 (Zpos m)) with (Zpos (digits2_pos m)) in Hdd.
  rewrite Hd in Hdd. lia.
Qed.

Lemma sum_in_range_mono (c c' : Z) (m : positive) (e : Z) :
  c <= c' -> sum_in_range (2 * lo - 1) (2 * hi) c m e -> sum_in_range (2 * lo - 1) (2 * hi) c' m e.
Proof.
  intros Hc (Hd & HL & Hv). split; [exact Hd|]. split; [exact HL|].
  destruct (pow2_le_from_bound (Zpos m) c (2 * hi - e) ltac:(lia) Hv) as [Hnn _].
  pose proof (Z.pow_pos_nonneg 2 (2 * hi - e) ltac:(lia) Hnn). nia.
Qed.

(** The square of a sample in range is a term in range. *)
Lemma square_in_range (m mt : positive) (e off : Z) :
  Zpos (digits2_pos m) = 24 -> lo <= 24 + e <= hi ->
  Zpos (digits2_pos mt) = 53 -> 2 * 24 - 1 <= 53 + off ->
  0 <= 2 * 24 - off -> Zpos mt <= 2 ^ (2 * 24 - off) ->
  sum_in_range (2 * lo - 1) (2 * hi) 1 mt (2 * e + off).
Proof.
  intros Hd He Hdt Hoff Hnn Hv. split; [exact Hdt|]. split; [lia|].
  rewrite Z.mul_1_l. etransitivity; [exact Hv|].
  apply Z.pow_le_mono_r; lia.
Qed.

(** One step of the inner loop on both windows. *)
Lemma sum_squares_step (x : spec_float) (c : Z) (acc1 acc2 : spec_float) :
  sample_in_range lo hi j x -> 0 <= c -> c + 1 < 2 ^ 52 ->
  sums_related j (2 * lo - 1) (2 * hi) c acc1 acc2 ->
  sums_related j (2 * lo - 1) (2 * hi) (c + 1)
    (F64.add acc1 (F64.pow2 (F64.of_float x)))
    (F64.add acc2 (F64.pow2 (F64.of_float (F32.mul (power_of_two j) x)))).
Proof.
  intros Hx Hc Hc52 Hrel.
  destruct x as [s| | |s m e]; try contradiction.
  - (* a zero sample *)
    assert (F64.pow2 (F64.of_float (S754_zero s)) = S754_zero false) as ->
      by (destruct s; reflexivity).
    assert (F64.pow2 (F64.of_float (F32.mul (power_of_two j) (S754_zero s)))
            = S754_zero false) as -> by (destruct s; reflexivity).
    destruct Hrel as [[-> ->]|(ma & ea & -> & -> & H1 & H2)].
    + left. split; reflexivity.
    + right. exists ma, ea. split; [reflexivity|]. split; [reflexivity|].
      split; apply (sum_in_range_mono c); (lia || assumption).
  - destruct Hx as (Hd & Ha & Haj). cbn [magnitude] in Ha, Haj. rewrite Hd in Ha, Haj.
    rewrite mul_power_of_two by (try assumption; lia).
    destruct (square_of_sample m) as (mt & off & Hdt & Hoff & Hnn & Hv & Hterm).
    rewrite Hd in Hoff, Hnn, Hv, Hterm.
    rewrite !Hterm by lia.
    pose proof (square_in_range m mt e off Hd Ha Hdt Hoff Hnn Hv) as Ht1.
    pose proof (square_in_range m mt (e + j) off Hd ltac:(lia) Hdt Hoff Hnn Hv) as Ht2.
    replace (2 * (e + j) + off) with (2 * e + off + 2 * j) in * by lia.
    set (et := 2 * e + off) in *.
    destruct Hrel as [[-> ->]|(ma & ea & -> & -> & H1 & H2)].
    + right. exists mt, et. split; [reflexivity|]. split; [reflexivity|].
      split; apply (sum_in_range_mono 1); (lia || assumption).
    + pose proof (sum_in_range_le c ma ea H1) as (Hcpos & HeT1 & _).
      pose proof (sum_in_range_le c ma (ea + 2 * j) H2) as (_ & HeT2 & _).
      pose proof (sum_in_range_le 1 mt et Ht1) as (_ & HtT1 & _).
      pose proof (sum_in_range_le 1 mt (et + 2 * j) Ht2) as (_ & HtT2 & _).
      destruct H1 as (Hda & HL1 & Hv1). destruct H2 as (_ & HL2 & Hv2).
      destruct Ht1 as (_ & HLt1 & Hvt1). destruct Ht2 as (_ & HLt2 & Hvt2).
      destruct (add_spec 53 1024 ltac:(lia) ma mt ea et Hda Hdt)
        as (mo & eo & Hdo & Hmax & Hval & Hadd).
      assert (Zdigits2 (c + 1) < 53) as Hdc.
      { assert (Zdigits2 (c + 1) <= 52); [|lia]. apply Zdigits2_upper; lia. }
      destruct (Hval c 1 (2 * hi) HeT1 HtT1 Hv1 Hvt1 Hdc) as [HoT1 Hvo1].
      destruct (Hval c 1 (2 * hi - 2 * j) ltac:(lia) ltac:(lia)) as [HoT2 Hvo2].
      { replace (2 * hi - 2 * j - ea) with (2 * hi - (ea + 2 * j)) by lia. exact Hv2. }
      { replace (2 * hi - 2 * j - et) with (2 * hi - (et + 2 * j)) by lia. exact Hvt2. }
      { exact Hdc. }
      right. exists mo, eo. unfold F64.add, F64.prec, F64.emax.
      pose proof (Hadd 0) as Hadd0. rewrite !Z.add_0_r in Hadd0.
      rewrite Hadd0 by (apply in_format64; lia).
      rewrite (Hadd (2 * j)) by (apply in_format64; lia).
      split; [reflexivity|]. split; [reflexivity|]. split.
      * split; [exact Hdo|]. split; [lia|exact Hvo1].
      * split; [exact Hdo|]. split; [lia|].
        replace (2 * hi - (eo + 2 * j)) with (2 * hi - 2 * j - eo) by lia. exact Hvo2.
Qed.

Lemma sum_squares_related (read_cache : list spec_float) (c : Z) (acc1 acc2 : spec_float) :
  Forall (sample_in_range lo hi j) read_cache ->
  0 <= c -> c + Z.of_nat (length read_cache) < 2 ^ 52 ->
  sums_related j (2 * lo - 1) (2 * hi) c acc1 acc2 ->
  sums_related j (2 * lo - 1) (2 * hi) (c + Z.of_nat (length read_cache))
    (sum_squares read_cache acc1)
    (sum_squares (map (F32.mul (power_of_two j)) read_cache) acc2).
Proof.
  intros Hall. revert c acc1 acc2.
  induction Hall as [|x l Hx Hl IH]; intros c acc1 acc2 Hc Hlen Hrel.
  - cbn. rewrite Z.add_0_r. exact Hrel.
  - cbn [length map] in *. unfold sum_squares in *. cbn [fold_left].
    replace (c + Z.of_nat (S (length l))) with (c + 1 + Z.of_nat (length l)) by lia.
    apply IH; [lia|lia|].
    apply sum_squares_step; [exact Hx|lia|lia|exact Hrel].
Qed.

(** One RMS value of the scaled samples. *)
Lemma rms_of_frames_power_of_two (read_cache : list spec_float) :
  Forall (sample_in_range lo hi j) read_cache ->
  Z.of_nat (length read_cache) < 2 ^ 52 ->
  2 * hi + Zdigits2 (Z.of_nat (length read_cache)) <= 253 ->
  rms_of_frames (map (F32.mul (power_of_two j)) read_cache)
  = F32.mul (power_of_two j) (rms_of_frames read_cache).
Proof.
  intros Hall Hlen Hhi.
  pose proof (sum_squares_related read_cache 0 (S754_zero false) (S754_zero false)
                Hall ltac:(lia) ltac:(lia) ltac:(left; split; reflexivity)) as Hrel.
  rewrite Z.add_0_l in Hrel. unfold rms_of_frames.
  change (d_of_int 0) with (S754_zero false).
  change (d_of_int RMS_FRAME_DURATION) with (S754_finite false 5629499534213120 (-48)).
  set (c := Z.of_nat (length read_cache)) in *.
  destruct Hrel as [[-> ->]|(m & e & -> & -> & H1 & H2)]; [reflexivity|].
  pose proof (sum_in_range_le c m e H1) as (Hcpos & _ & Hmag1).
  pose proof (sum_in_range_le c m (e + 2 * j) H2) as (_ & _ & Hmag2).
  destruct H1 as (Hd & HL1 & _). destruct H2 as (_ & HL2 & _).
    destruct (div_spec 53 1024 ltac:(lia) m 5629499534213120 Hd eq_refl)
    as (md & offd & Hdd & Hoffd & Hdiv).
  destruct (sqrt_spec 53 1024 ltac:(lia) md (e - -48 + offd) Hdd)
    as (ms & es & Hds & Hes & Hsqrt).
  destruct (binary_round_spec 24 128 ltac:(lia) ms) as (mf & offf & Hdf & Hofff & _ & Hbr).
  cbn [Zdigits2] in Hofff, Hbr. rewrite Hds in Hofff, Hbr.
  cbn [to_float d_sqrt d_div ieee_arith].
  unfold F64.div, F64.sqrt, F32.of_double, F64.prec, F64.emax, F32.prec, F32.emax.
  rewrite !Hdiv by (apply in_format64; lia). cbn [xorb].
  assert (Z.div2 (53 + (e - -48 + offd) + 1) = (53 + (e - -48 + offd) + 1) / 2) as Hdiv2
    by apply Z.div2_div.
  pose proof (Z.div_mod (53 + (e - -48 + offd) + 1) 2 ltac:(lia)) as Hdm.
  pose proof (Z.mod_pos_bound (53 + (e - -48 + offd) + 1) 2 ltac:(lia)) as Hmb.
  pose proof (Hsqrt 0) as Hsqrt0. rewrite Z.mul_0_r, !Z.add_0_r in Hsqrt0.
  rewrite Hsqrt0 by (apply in_format64; lia).
  replace (e + 2 * j - -48 + offd) with (e - -48 + offd + 2 * j) by lia.
  rewrite (Hsqrt j) by (apply in_format64; lia).
  rewrite !Hbr by (apply in_format32; lia).
  rewrite mul_power_of_two by (try assumption; lia).
  f_equal. lia.
Qed.
End Scaling.

(** C7, amended. With the [float] and [double] arithmetic of the code,
    scaling every sample by a power of two [k = 2^j] scales every RMS value
    by [k], exactly, as long as nothing overflows or leaves the range of
    the normal numbers: every sample is zero or a normal binary32 number
    [x] with 2^-123 <= |x| < 2^hi and 2^-123 <= |k * x| < 2^hi, and the
    RMS window has fewer than 2^52 frames, with
    2 * hi + log2 (frames) <= 252.  (For other factors the equality fails
    by rounding, as [k = 3] shows above.) *)
Theorem calculate_rms_power_of_two (FRAMES_IN_RMS_FRAME RMS_FRAME_COUNT : nat)
    (j hi : Z) (samples : list spec_float) :
  -126 <= j <= 127 ->
  Z.of_nat FRAMES_IN_RMS_FRAME < 2 ^ 52 ->
  2 * hi + Z.log2 (Z.of_nat FRAMES_IN_RMS_FRAME) <= 252 ->
  Forall (sample_in_range (-122) hi j) samples ->
  calculate_rms FRAMES_IN_RMS_FRAME RMS_FRAME_COUNT (map (F32.mul (power_of_two j)) samples)
  = map (F32.mul (power_of_two j)) (calculate_rms FRAMES_IN_RMS_FRAME RMS_FRAME_COUNT samples).
Proof.
  intros Hj Hw Hhi. revert samples.
  induction RMS_FRAME_COUNT as [|count IH]; intros samples Hall; [reflexivity|].
  cbn [calculate_rms sf_readf_float map].
  rewrite firstn_map, skipn_map.
  rewrite IH by (apply Forall_drop; exact Hall).
  f_equal.
  pose proof (Z.log2_nonneg (Z.of_nat FRAMES_IN_RMS_FRAME)) as Hlog.
  pose proof (length_take samples FRAMES_IN_RMS_FRAME) as Hlen.
  apply (rms_of_frames_power_of_two j (-122) hi); [lia|lia| | |].
  - apply Forall_take. exact Hall.
  - lia.
  - destruct (Nat.eq_dec (length (take FRAMES_IN_RMS_FRAME samples)) 0%nat) as [->|Hne];
      [change (Zdigits2 (Z.of_nat 0)) with 0; lia|].
    assert (Zdigits2 (Z.of_nat (length (take FRAMES_IN_RMS_FRAME samples)))
            <= Zdigits2 (Z.of_nat FRAMES_IN_RMS_FRAME)) as Hd
      by (apply Zdigits2_le; lia).
    rewrite (Zdigits2_log2 (Z.of_nat FRAMES_IN_RMS_FRAME)) in Hd by lia. lia.
Qed.

Lemma calculate_rms_power_of_two_witness :
  let samples := [F32.of_int 1; F32.of_int 3; F32.div (F32.of_int 1) (F32.of_int 3);
                  F32.zero; F32.div (F32.of_int (-7)) (F32.of_int 11)] in
  -126 <= 1 <= 127
  /\ Z.of_nat 2 < 2 ^ 52
  /\ 2 * 3 + Z.log2 (Z.of_nat 2) <= 252
  /\ Forall (sample_in_range (-122) 3 1) samples
  /\ calculate_rms 2 3 (map (F32.mul (power_of_two 1)) samples)
     = map (F32.mul (power_of_two 1)) (calculate_rms 2 3 samples).
Proof.
  intros samples.
  assert (Forall (sample_in_range (-122) 3 1) samples) as Hs.
  { unfold samples.
    repeat (constructor; [vm_compute; try exact I; intuition discriminate|]).
    constructor. }
  split; [lia|]. split; [vm_compute; reflexivity|]. split; [vm_compute; discriminate|].
  split; [exact Hs|].
  apply (calculate_rms_power_of_two 2 3 1 3 samples);
    [lia|vm_compute; reflexivity|vm_compute; discriminate|exact Hs].
Defined.

(** ** Feature aggregator *)

(** C3. One long frame of 50 RMS frames, produced by five samples 2.0
    followed by silence: the RMS values are 1.0 and 49 times 0.0, their sum
    is 1.0, and the squared deviations from the sum add up to 49.  The
    claimed variance is 49/50; the code adds every squared deviation twice
    and stores 98/50, and the normalized variance is twice the claimed one
    as well (about 98 instead of about 49). *)
Theorem variance_counts_deviations_twice :
  let size := default_RMS_FRAMES_IN_LONG_FRAME in
  let rms := calculate_rms 5 size (replicate 5 (F32.of_int 2) ++ replicate 245 F32.zero) in
  let f := long_frame_features signum LOW_ENERGY_COEFFICIENT size rms 0 in
  size = 50%nat
  /\ rms = F32.of_int 1 :: replicate 49 F32.zero
  /\ variance_rms f = F32.div (F32.of_int 98) (F32.of_int 50)
  /\ variance_claim size rms 0 = F32.div (F32.of_int 49) (F32.of_int 50)
  /\ variance_rms f <> variance_claim size rms 0
  /\ norm_variance_rms f = F32.div (variance_rms f) (mean_rms f)
  /\ norm_variance_rms f = S754_finite false 12845057 (-17)
  /\ F32.div (variance_claim size rms 0) (mean_rms f) = S754_finite false 12845057 (-18).
Proof. vm_compute. repeat split; discriminate. Qed.

(** *** Small integers in binary32 *)

Lemma sf_eqb_eq (x y : spec_float) : sf_eqb x y = true -> x = y.
Proof.
  destruct x, y; simpl; try discriminate; try reflexivity.
  - intros ->%Bool.eqb_prop. reflexivity.
  - intros ->%Bool.eqb_prop. reflexivity.
  - intros [[->%Bool.eqb_prop ->%Pos.eqb_eq]%andb_prop ->%Z.eqb_eq]%andb_prop.
    reflexivity.
Qed.

Lemma add_small_checked : forallb add_small_check (seq 0 (2 * max_block + 1)) = true.
Proof. vm_compute. reflexivity. Qed.

Lemma div_small_checked : forallb div_small_check (seq 1 max_block) = true.
Proof. vm_compute. reflexivity. Qed.

Lemma add_small (k d : Z) :
  0 <= k <= 2 * Z.of_nat max_block -> 0 <= d <= 2 ->
  F32.add (F32.of_int k) (F32.of_int d) = F32.of_int (k + d).
Proof.
  intros Hk Hd.
  pose proof (proj1 (forallb_forall _ _) add_small_checked (Z.to_nat k)) as Hc.
  specialize (Hc ltac:(apply in_seq; lia)).
  unfold add_small_check in Hc. rewrite Z2Nat.id in Hc by lia.
  pose proof (proj1 (forallb_forall _ _) Hc d) as Hcd.
  apply sf_eqb_eq, Hcd.
  assert (d = 0 \/ d = 1 \/ d = 2) as [->|[->| ->]] by lia; simpl; auto.
Qed.

Lemma div_small (n : nat) :
  (0 < n <= max_block)%nat ->
  F32.div F32.zero (F32.of_int (Z.of_nat n)) = F32.zero
  /\ F32.div (F32.of_int (Z.of_nat n)) (F32.of_int (2 * Z.of_nat n)) = half
  /\ forall k, 0 <= k <= 2 * Z.of_nat n ->
       F32.leb F32.zero (F32.div (F32.of_int k) (F32.of_int (2 * Z.of_nat n))) = true
       /\ F32.leb (F32.div (F32.of_int k) (F32.of_int (2 * Z.of_nat n))) (F32.of_int 1) = true.
Proof.
  intros Hn.
  pose proof (proj1 (forallb_forall _ _) div_small_checked n) as Hc.
  specialize (Hc ltac:(apply in_seq; lia)).
  unfold div_small_check in Hc.
  apply andb_prop in Hc as [[H0 Hh]%andb_prop Hall].
  split; [apply sf_eqb_eq, H0|]. split; [apply sf_eqb_eq, Hh|].
  intros k Hk.
  pose proof (proj1 (forallb_forall _ _) Hall (Z.to_nat k)) as Hck.
  specialize (Hck ltac:(apply in_seq; lia)). cbv beta zeta in Hck.
  rewrite Z2Nat.id in Hck by lia.
  apply andb_prop in Hck. exact Hck.
Qed.

Section Mler.
Variable sgn : spec_float -> Z.
Hypothesis sgn_range : forall x, -1 <= sgn x <= 1.

Lemma mler_count_range (lowthres : spec_float) (rms : list spec_float) (block : list nat) :
  0 <= mler_count sgn lowthres rms block <= 2 * Z.of_nat (length block).
Proof.
  induction block as [|i block IH]; cbn [mler_count fold_right length]; [lia|].
  fold (mler_count sgn lowthres rms block).
  pose proof (sgn_range (F32.sub lowthres (rms !!! i))). lia.
Qed.

(** The MLER accumulator holds the integer sum of the terms seen so
    far. *)
Lemma mler_accumulates (rms : list spec_float) (rms_sum lowthres : spec_float)
    (block : list nat) (vds : spec_float) (a : Z) :
  0 <= a -> a + 2 * Z.of_nat (length block) <= 2 * Z.of_nat max_block ->
  snd (fold_left (variance_mler_step sgn rms rms_sum lowthres) block (vds, F32.of_int a))
  = F32.of_int (a + mler_count sgn lowthres rms block).
Proof.
  revert vds a. induction block as [|i block IH]; intros vds a Ha Hlen.
  - cbn. rewrite Z.add_0_r. reflexivity.
  - cbn [fold_left length mler_count fold_right] in *.
    fold (mler_count sgn lowthres rms block).
    unfold variance_mler_step at 2. cbn [fst snd].
    pose proof (sgn_range (F32.sub lowthres (rms !!! i))) as Hs.
    rewrite add_small by lia.
    rewrite IH by lia. f_equal. lia.
Qed.
End Mler.

Lemma lookup_map {A B} (f : A -> B) (l : list A) (i : nat) :
  map f l !! i = option_map f (l !! i).
Proof.
  revert i. induction l as [|x l IH]; intros [|i]; cbn; try reflexivity. apply IH.
Qed.

(** C8. For every long frame [long_frame] below [LONG_FRAME_COUNT] (with
    blocks of at most [max_block] RMS frames), [calculate_features] stores
    a record whose mean is the [float] sum of the block (the RMS frames
    [long_frame * RMS_FRAMES_IN_LONG_FRAME] and the following ones)
    divided by the block size, and whose MLER is the sum over the block of
    [signum(lowthres - v) + 1], with
    [lowthres = LOW_ENERGY_COEFFICIENT * mean] for that mean, divided by
    twice the block size; the MLER lies between 0 and 1. *)
Theorem mler_formula_and_range (sgn : spec_float -> Z) (coefficient : spec_float)
    (RMS_FRAMES_IN_LONG_FRAME LONG_FRAME_COUNT : nat) (rms : list spec_float)
    (long_frame : nat) :
  (forall x, -1 <= sgn x <= 1) ->
  (0 < RMS_FRAMES_IN_LONG_FRAME <= max_block)%nat ->
  (long_frame < LONG_FRAME_COUNT)%nat ->
  let block := seq (long_frame * RMS_FRAMES_IN_LONG_FRAME) RMS_FRAMES_IN_LONG_FRAME in
  let rms_sum := fold_left (fun rms_sum i => F32.add rms_sum (rms !!! i)) block F32.zero in
  let mean := F32.div rms_sum (F32.of_int (Z.of_nat RMS_FRAMES_IN_LONG_FRAME)) in
  let lowthres := F32.mul coefficient mean in
  exists f : features,
    calculate_features sgn coefficient RMS_FRAMES_IN_LONG_FRAME LONG_FRAME_COUNT rms
      !! long_frame = Some f
    /\ mean_rms f = mean
    /\ mler f = F32.div (F32.of_int (mler_count sgn lowthres rms block))
                        (F32.of_int (2 * Z.of_nat RMS_FRAMES_IN_LONG_FRAME))
    /\ F32.leb F32.zero (mler f) = true
    /\ F32.leb (mler f) (F32.of_int 1) = true.
Proof.
  intros Hsgn Hn Hlf block rms_sum mean lowthres.
  exists (long_frame_features sgn coefficient RMS_FRAMES_IN_LONG_FRAME rms
            (long_frame * RMS_FRAMES_IN_LONG_FRAME)).
  split.
  { unfold calculate_features. rewrite lookup_map, lookup_seq_lt by exact Hlf.
    reflexivity. }
  split; [reflexivity|].
  assert (mler (long_frame_features sgn coefficient RMS_FRAMES_IN_LONG_FRAME rms
                  (long_frame * RMS_FRAMES_IN_LONG_FRAME))
          = F32.div (F32.of_int (mler_count sgn lowthres rms block))
                    (F32.of_int (2 * Z.of_nat RMS_FRAMES_IN_LONG_FRAME))) as Hm.
  { unfold long_frame_features. cbn [mler]. f_equal.
    change (F32.zero, F32.zero) with (F32.zero, F32.of_int 0).
    rewrite (mler_accumulates sgn Hsgn) by (rewrite ?length_seq; lia).
    reflexivity. }
  split; [exact Hm|]. rewrite Hm.
  pose proof (mler_count_range sgn Hsgn lowthres rms
                (seq (long_frame * RMS_FRAMES_IN_LONG_FRAME) RMS_FRAMES_IN_LONG_FRAME)) as Hc.
  rewrite length_seq in Hc.
  apply (proj2 (proj2 (div_small RMS_FRAMES_IN_LONG_FRAME Hn))). exact Hc.
Qed.

Lemma signum_range (x : spec_float) : -1 <= signum x <= 1.
Proof. unfold signum. destruct (F32.ltb F32.zero x), (F32.ltb x F32.zero); lia. Qed.

Lemma default_block_size :
  (0 < default_RMS_FRAMES_IN_LONG_FRAME <= max_block)%nat.
Proof. vm_compute. lia. Qed.

Lemma mler_formula_and_range_witness :
  (0 < default_RMS_FRAMES_IN_LONG_FRAME <= max_block)%nat
  /\ (1 < 2)%nat
  /\ exists f : features,
       calculate_features signum LOW_ENERGY_COEFFICIENT default_RMS_FRAMES_IN_LONG_FRAME 2
         (replicate 50 F32.zero ++ F32.of_int 1 :: replicate 49 F32.zero) !! 1%nat = Some f
       /\ mean_rms f = F32.div (F32.of_int 1) (F32.of_int 50)
       /\ mler f = F32.div (F32.of_int 98) (F32.of_int 100).
Proof.
  split; [exact default_block_size|]. split; [lia|].
  destruct (mler_formula_and_range signum LOW_ENERGY_COEFFICIENT
              default_RMS_FRAMES_IN_LONG_FRAME 2
              (replicate 50 F32.zero ++ F32.of_int 1 :: replicate 49 F32.zero) 1
              signum_range default_block_size ltac:(lia))
    as (f & Hf & Hmean & Hmler & _).
  exists f. split; [exact Hf|]. split.
  - rewrite Hmean. vm_compute. reflexivity.
  - rewrite Hmler. vm_compute. reflexivity.
Defined.

(** ** Silence *)

Lemma rms_of_frames_silence (read_cache : list spec_float) :
  Forall silent read_cache -> rms_of_frames read_cache = F32.zero.
Proof.
  intros Hz. unfold rms_of_frames.
  assert (sum_squares read_cache (d_of_int 0) = F64.zero) as ->; [|vm_compute; reflexivity].
  change (d_of_int 0) with F64.zero. unfold sum_squares.
  induction Hz as [|x l Hx Hl IH]; cbn [fold_left]; [reflexivity|].
  destruct x as [s| | |]; try discriminate Hx.
  destruct s; exact IH.
Qed.

Lemma calculate_rms_silence (FRAMES_IN_RMS_FRAME RMS_FRAME_COUNT : nat)
    (samples : list spec_float) :
  Forall silent samples ->
  calculate_rms FRAMES_IN_RMS_FRAME RMS_FRAME_COUNT samples
  = replicate RMS_FRAME_COUNT F32.zero.
Proof.
  revert samples. induction RMS_FRAME_COUNT as [|count IH]; intros samples Hz;
    [reflexivity|].
  cbn [calculate_rms sf_readf_float replicate].
  rewrite rms_of_frames_silence by (apply Forall_take; exact Hz).
  rewrite IH by (apply Forall_drop; exact Hz). reflexivity.
Qed.

Section SilentBlock.
Variable sgn : spec_float -> Z.
Hypothesis sgn_zero : sgn F32.zero = 0.
Variable rms : list spec_float.

Lemma rms_sum_silence (block : list nat) :
  Forall (zero_at rms) block ->
  fold_left (fun rms_sum i => F32.add rms_sum (rms !!! i)) block F32.zero = F32.zero.
Proof.
  intros Hz. induction Hz as [|i l Hi Hl IH]; cbn [fold_left]; [reflexivity|].
  rewrite Hi. exact IH.
Qed.

Lemma silence_accumulates (block : list nat) (a : Z) :
  Forall (zero_at rms) block ->
  0 <= a -> a + Z.of_nat (length block) <= 2 * Z.of_nat max_block ->
  fold_left (variance_mler_step sgn rms F32.zero F32.zero) block (F32.zero, F32.of_int a)
  = (F32.zero, F32.of_int (a + Z.of_nat (length block))).
Proof.
  intros Hz. revert a.
  induction Hz as [|i l Hi Hl IH]; intros a Ha Hlen; cbn [fold_left length] in *.
  - rewrite Z.add_0_r. reflexivity.
  - unfold variance_mler_step at 2. cbn [fst snd]. rewrite Hi.
    change (F32.sub F32.zero F32.zero) with F32.zero. rewrite sgn_zero.
    change (add_deviation (add_deviation F32.zero F32.zero F32.zero) F32.zero F32.zero)
      with F32.zero.
    rewrite add_small by lia. rewrite IH by lia. do 2 f_equal. lia.
Qed.

Lemma long_frame_features_silence (m : positive) (e : Z)
    (RMS_FRAMES_IN_LONG_FRAME start_rms_frame : nat) :
  (0 < RMS_FRAMES_IN_LONG_FRAME <= max_block)%nat ->
  Forall (zero_at rms) (seq start_rms_frame RMS_FRAMES_IN_LONG_FRAME) ->
  long_frame_features sgn (S754_finite false m e) RMS_FRAMES_IN_LONG_FRAME rms start_rms_frame
  = silent_features.
Proof.
  intros Hn Hz. unfold long_frame_features.
  destruct (div_small RMS_FRAMES_IN_LONG_FRAME Hn) as (Hmean & Hhalf & _).
  rewrite (rms_sum_silence _ Hz), Hmean.
  change (F32.mul (S754_finite false m e) F32.zero) with F32.zero.
  change (F32.zero, F32.zero) with (F32.zero, F32.of_int 0).
  rewrite (silence_accumulates _ 0 Hz) by (rewrite ?length_seq; lia).
  cbn [fst snd]. rewrite length_seq, Z.add_0_l, Hmean, Hhalf. reflexivity.
Qed.
End SilentBlock.

Lemma map_constant {A B} (f : A -> B) (c : B) (l : list A) :
  (forall x, In x l -> f x = c) -> map f l = replicate (length l) c.
Proof.
  induction l as [|x l IH]; intros Hf; [reflexivity|].
  cbn [map length replicate]. rewrite Hf by (left; reflexivity).
  rewrite IH by (intros y Hy; apply Hf; right; exact Hy). reflexivity.
Qed.

(** C6. On a stream of zero samples, for every block size up to
    [max_block], every positive finite low-energy coefficient and a
    [signum] with [signum(0) = 0]: every RMS value is 0, every long frame
    has mean 0, variance 0, the normalized variance 0/0 (a NaN, which the
    classifier does not read) and the MLER 1/2, and with the music
    threshold 0.0 every long frame gets the label [false]. *)
Theorem silence_is_classified (sgn : spec_float -> Z) (m : positive) (e : Z)
    (FRAMES_IN_RMS_FRAME RMS_FRAME_COUNT RMS_FRAMES_IN_LONG_FRAME LONG_FRAME_COUNT : nat)
    (samples : list spec_float) :
  sgn F32.zero = 0 ->
  (0 < RMS_FRAMES_IN_LONG_FRAME <= max_block)%nat ->
  (LONG_FRAME_COUNT * RMS_FRAMES_IN_LONG_FRAME <= RMS_FRAME_COUNT)%nat ->
  Forall silent samples ->
  let rms := calculate_rms FRAMES_IN_RMS_FRAME RMS_FRAME_COUNT samples in
  let fs := calculate_features sgn (S754_finite false m e) RMS_FRAMES_IN_LONG_FRAME
                               LONG_FRAME_COUNT rms in
  fs = replicate LONG_FRAME_COUNT silent_features
  /\ is_nan (mler silent_features) = false
  /\ classify_segments UPPER_MUSIC_THRESHOLD (map mler fs)
     = replicate LONG_FRAME_COUNT false.
Proof.
  intros Hsgn Hn Hcount Hz rms fs.
  assert (fs = replicate LONG_FRAME_COUNT silent_features) as Hfs.
  { unfold fs, calculate_features.
    rewrite (map_constant _ silent_features); [rewrite length_seq; reflexivity|].
    intros long_frame Hlf%in_seq.
    apply long_frame_features_silence; [exact Hsgn|exact Hn|].
    apply Forall_forall. intros i Hi%elem_of_seq.
    unfold rms. rewrite calculate_rms_silence by exact Hz.
    apply lookup_total_replicate_2. nia. }
  split; [exact Hfs|]. split; [reflexivity|].
  rewrite Hfs. unfold classify_segments. clear.
  induction LONG_FRAME_COUNT as [|count IH]; [reflexivity|].
  cbn [replicate map]. rewrite IH. reflexivity.
Qed.

Lemma silence_is_classified_witness :
  signum F32.zero = 0
  /\ (0 < default_RMS_FRAMES_IN_LONG_FRAME <= max_block)%nat
  /\ classify_segments UPPER_MUSIC_THRESHOLD
       (map mler (calculate_features signum LOW_ENERGY_COEFFICIENT
                    default_RMS_FRAMES_IN_LONG_FRAME 2
                    (calculate_rms 4 100 (replicate 400 F32.zero))))
     = [false; false].
Proof.
  split; [reflexivity|]. split; [exact default_block_size|].
  refine (proj2 (proj2 (silence_is_classified signum 13421773 (-26) 4 100
                          default_RMS_FRAMES_IN_LONG_FRAME 2
                          (replicate 400 F32.zero) _ _ _ _))).
  - reflexivity.
  - exact default_block_size.
  - vm_compute. lia.
  - apply Forall_replicate. reflexivity.
Defined.

(** * Further properties *)

(** ** RMS extractor: windows *)

Section RmsWindows.
Context {F D : Type} {arith : SampleArith F D}.

Lemma length_calculate_rms (FRAMES_IN_RMS_FRAME RMS_FRAME_COUNT : nat) (samples : list F) :
  length (calculate_rms FRAMES_IN_RMS_FRAME RMS_FRAME_COUNT samples) = RMS_FRAME_COUNT.
Proof.
  revert samples. induction RMS_FRAME_COUNT as [|count IH]; intros samples; [reflexivity|].
  cbn [calculate_rms sf_readf_float length]. rewrite IH. reflexivity.
Qed.

Lemma lookup_calculate_rms (FRAMES_IN_RMS_FRAME RMS_FRAME_COUNT : nat)
    (samples : list F) (i : nat) :
  (i < RMS_FRAME_COUNT)%nat ->
  calculate_rms FRAMES_IN_RMS_FRAME RMS_FRAME_COUNT samples !! i
  = Some (rms_of_frames
            (take FRAMES_IN_RMS_FRAME (drop (i * FRAMES_IN_RMS_FRAME) samples))).
Proof.
  revert samples i. induction RMS_FRAME_COUNT as [|count IH]; intros samples i Hi; [lia|].
  cbn [calculate_rms sf_readf_float]. destruct i as [|i].
  - reflexivity.
  - cbn [lookup list_lookup]. rewrite IH by lia. rewrite drop_drop. reflexivity.
Qed.

(** X1. [calculate_rms] writes exactly [RMS_FRAME_COUNT] values, and the
    value for RMS frame [i] is computed from the samples
    [i * FRAMES_IN_RMS_FRAME] .. [(i + 1) * FRAMES_IN_RMS_FRAME - 1] of
    the stream (fewer when the stream ends there) and from no others. *)
Theorem calculate_rms_windows (FRAMES_IN_RMS_FRAME RMS_FRAME_COUNT : nat)
    (samples : list F) (i : nat) :
  (i < RMS_FRAME_COUNT)%nat ->
  length (calculate_rms FRAMES_IN_RMS_FRAME RMS_FRAME_COUNT samples) = RMS_FRAME_COUNT
  /\ calculate_rms FRAMES_IN_RMS_FRAME RMS_FRAME_COUNT samples !! i
     = Some (rms_of_frames
               (take FRAMES_IN_RMS_FRAME (drop (i * FRAMES_IN_RMS_FRAME) samples))).
Proof.
  intros Hi. split; [apply length_calculate_rms|apply lookup_calculate_rms, Hi].
Qed.
End RmsWindows.

Lemma calculate_rms_windows_witness :
  (1 < 2)%nat
  /\ calculate_rms 2 2 [F32.of_int 1; F32.of_int 2; F32.of_int 3] !! 1%nat
     = Some (rms_of_frames [F32.of_int 3]).
Proof.
  split; [lia|].
  exact (proj2 (calculate_rms_windows 2 2 [F32.of_int 1; F32.of_int 2; F32.of_int 3] 1
                  ltac:(lia))).
Defined.

(** X2. Past the end of the stream no frame is read and the RMS value
    is 0. *)
Theorem calculate_rms_past_end (FRAMES_IN_RMS_FRAME RMS_FRAME_COUNT : nat)
    (samples : list spec_float) (i : nat) :
  (i < RMS_FRAME_COUNT)%nat ->
  (length samples <= i * FRAMES_IN_RMS_FRAME)%nat ->
  calculate_rms FRAMES_IN_RMS_FRAME RMS_FRAME_COUNT samples !! i = Some F32.zero.
Proof.
  intros Hi Hend.
  rewrite lookup_calculate_rms by exact Hi.
  rewrite drop_ge by exact Hend. rewrite take_nil. reflexivity.
Qed.

Lemma calculate_rms_past_end_witness :
  (1 < 2)%nat
  /\ calculate_rms 2 2 [F32.of_int 1; F32.of_int 2] !! 1%nat = Some F32.zero.
Proof.
  split; [lia|]. apply calculate_rms_past_end; cbn; lia.
Defined.

(** ** Signs *)

Lemma sign_clear_not_negative (x : spec_float) :
  sign_clear x = true -> F32.ltb x F32.zero = false.
Proof. destruct x as [[]|[]| |[] m e]; cbn; intros H; try discriminate H; reflexivity. Qed.

Section SignClear.
Variables prec emax : Z.

Lemma sign_clear_round_aux (m e : Z) (l : location) :
  sign_clear (binary_round_aux prec emax false m e l) = true.
Proof.
  unfold binary_round_aux.
  destruct (shr_fexp prec emax m e l) as [mrs' e'].
  destruct (shr_fexp prec emax _ e' loc_Exact) as [mrs'' e''].
  destruct (shr_m mrs''); [reflexivity| |reflexivity].
  destruct (e'' <=? emax - prec); reflexivity.
Qed.

Lemma sign_clear_round (m : positive) (e : Z) :
  sign_clear (binary_round prec emax false m e) = true.
Proof.
  unfold binary_round. destruct (shl_align _ _ _) as [mz ez]. apply sign_clear_round_aux.
Qed.

Lemma sign_clear_normalize (z e : Z) :
  0 <= z -> sign_clear (binary_normalize prec emax z e false) = true.
Proof.
  intros Hz. destruct z as [|p|p]; [reflexivity|apply sign_clear_round|lia].
Qed.

Lemma sign_clear_add (x y : spec_float) :
  sign_clear x = true -> sign_clear y = true -> sign_clear (SFadd prec emax x y) = true.
Proof.
  destruct x as [[]|[]| |[] mx ex], y as [[]|[]| |[] my ey]; cbn [sign_clear negb];
    intros Hx Hy; try discriminate Hx; try discriminate Hy; try reflexivity.
  unfold SFadd. cbn [cond_Zopp]. apply sign_clear_normalize. lia.
Qed.

Lemma sign_clear_square (x : spec_float) : sign_clear (SFmul prec emax x x) = true.
Proof.
  destruct x as [[]|[]| |[] m e]; try reflexivity; cbn [SFmul xorb];
    apply sign_clear_round_aux.
Qed.

Lemma sign_clear_div (x y : spec_float) :
  sign_clear x = true -> sign_clear y = true -> sign_clear (SFdiv prec emax x y) = true.
Proof.
  destruct x as [[]|[]| |[] mx ex], y as [[]|[]| |[] my ey]; cbn [sign_clear negb];
    intros Hx Hy; try discriminate Hx; try discriminate Hy; try reflexivity.
  unfold SFdiv. destruct (SFdiv_core_binary _ _ _ _ _ _) as [[mz ez] lz].
  apply sign_clear_round_aux.
Qed.

Lemma sign_clear_sqrt (x : spec_float) :
  sign_clear x = true -> sign_clear (SFsqrt prec emax x) = true.
Proof.
  destruct x as [[]|[]| |[] m e]; cbn [sign_clear negb]; intros Hx;
    try discriminate Hx; try reflexivity.
  unfold SFsqrt. destruct (SFsqrt_core_binary _ _ _ _) as [[mz ez] lz].
  apply sign_clear_round_aux.
Qed.

Lemma sign_clear_convert (x : spec_float) :
  sign_clear x = true ->
  sign_clear match x with
             | S754_finite s m e => binary_round prec emax s m e
             | _ => x
             end = true.
Proof.
  destruct x as [[]|[]| |[] m e]; cbn [sign_clear negb]; intros Hx;
    try discriminate Hx; try reflexivity.
  apply sign_clear_round.
Qed.
End SignClear.

Lemma sign_clear_sum_squares (read_cache : list spec_float) (local_rms : spec_float) :
  sign_clear local_rms = true -> sign_clear (sum_squares read_cache local_rms) = true.
Proof.
  revert local_rms. unfold sum_squares.
  induction read_cache as [|x l IH]; intros a Ha; [exact Ha|].
  cbn [fold_left]. apply IH. apply sign_clear_add; [exact Ha|apply sign_clear_square].
Qed.

Lemma sign_clear_rms_of_frames (read_cache : list spec_float) :
  sign_clear (rms_of_frames read_cache) = true.
Proof.
  unfold rms_of_frames. apply sign_clear_convert, sign_clear_sqrt, sign_clear_div;
    [|reflexivity].
  apply sign_clear_sum_squares. reflexivity.
Qed.

Lemma calculate_rms_sign_clear (FRAMES_IN_RMS_FRAME RMS_FRAME_COUNT : nat)
    (samples : list spec_float) :
  Forall (fun x => sign_clear x = true)
         (calculate_rms FRAMES_IN_RMS_FRAME RMS_FRAME_COUNT samples).
Proof.
  revert samples. induction RMS_FRAME_COUNT as [|count IH]; intros samples;
    cbn [calculate_rms sf_readf_float]; constructor; [|apply IH].
  apply sign_clear_rms_of_frames.
Qed.

(** X3. Whatever the samples are (infinities and NaN included), no RMS
    value that [calculate_rms] writes is negative: each has its sign bit
    clear or is a NaN, and [rms < 0] is false. *)
Theorem calculate_rms_not_negative (FRAMES_IN_RMS_FRAME RMS_FRAME_COUNT : nat)
    (samples : list spec_float) :
  Forall (fun x => sign_clear x = true /\ F32.ltb x F32.zero = false)
         (calculate_rms FRAMES_IN_RMS_FRAME RMS_FRAME_COUNT samples).
Proof.
  eapply Forall_impl; [apply calculate_rms_sign_clear|].
  intros x Hx. split; [exact Hx|apply sign_clear_not_negative, Hx].
Qed.

(** ** Feature aggregator: signs *)

Lemma sign_clear_add_deviation (variance_difference_sum x rms_sum : spec_float) :
  sign_clear variance_difference_sum = true ->
  sign_clear (add_deviation variance_difference_sum x rms_sum) = true.
Proof.
  intros Hv. unfold add_deviation.
  apply sign_clear_convert, sign_clear_add; [apply sign_clear_convert, Hv|].
  apply sign_clear_square.
Qed.

Lemma sign_clear_of_int (z : Z) : 0 <= z -> sign_clear (F32.of_int z) = true.
Proof. apply sign_clear_normalize. Qed.

Section FeatureSigns.
Variable sgn : spec_float -> Z.
Variables (rms : list spec_float) (rms_sum lowthres : spec_float).

Lemma sign_clear_variance_sum (block : list nat) (acc : spec_float * spec_float) :
  sign_clear (fst acc) = true ->
  sign_clear (fst (fold_left (variance_mler_step sgn rms rms_sum lowthres) block acc)) = true.
Proof.
  revert acc. induction block as [|i block IH]; intros acc Hacc; [exact Hacc|].
  cbn [fold_left]. apply IH. unfold variance_mler_step. cbn [fst].
  apply sign_clear_add_deviation, sign_clear_add_deviation, Hacc.
Qed.

Lemma sign_clear_mler_sum (block : list nat) (acc : spec_float * spec_float) :
  (forall x, -1 <= sgn x) ->
  sign_clear (snd acc) = true ->
  sign_clear (snd (fold_left (variance_mler_step sgn rms rms_sum lowthres) block acc)) = true.
Proof.
  intros Hsgn. revert acc. induction block as [|i block IH]; intros acc Hacc; [exact Hacc|].
  cbn [fold_left]. apply IH. unfold variance_mler_step. cbn [snd].
  apply sign_clear_add; [exact Hacc|].
  apply sign_clear_of_int. specialize (Hsgn (F32.sub lowthres (rms !!! i))). lia.
Qed.
End FeatureSigns.

Lemma sign_clear_variance (sgn : spec_float -> Z) (coefficient : spec_float)
    (RMS_FRAMES_IN_LONG_FRAME : nat) (rms : list spec_float) (start_rms_frame : nat) :
  sign_clear (variance_rms (long_frame_features sgn coefficient RMS_FRAMES_IN_LONG_FRAME
                              rms start_rms_frame)) = true.
Proof.
  unfold long_frame_features. cbn [variance_rms].
  apply sign_clear_div; [|apply sign_clear_of_int; lia].
  apply sign_clear_variance_sum. reflexivity.
Qed.

(** X4. The variance that [calculate_features] stores is never negative,
    for every block size and all RMS values: its sign bit is clear or it
    is a NaN. *)
Theorem variance_not_negative (sgn : spec_float -> Z) (coefficient : spec_float)
    (RMS_FRAMES_IN_LONG_FRAME : nat) (rms : list spec_float) (start_rms_frame : nat) :
  let f := long_frame_features sgn coefficient RMS_FRAMES_IN_LONG_FRAME rms start_rms_frame in
  sign_clear (variance_rms f) = true /\ F32.ltb (variance_rms f) F32.zero = false.
Proof.
  intros f. pose proof (sign_clear_variance sgn coefficient RMS_FRAMES_IN_LONG_FRAME rms
                          start_rms_frame) as Hs.
  split; [exact Hs|apply sign_clear_not_negative, Hs].
Qed.

Lemma sign_clear_lookup (rms : list spec_float) (i : nat) :
  Forall (fun x => sign_clear x = true) rms -> sign_clear (rms !!! i) = true.
Proof.
  intros Hall. rewrite list_lookup_total_alt.
  destruct (rms !! i) as [x|] eqn:Hx; [|reflexivity].
  apply (proj1 (Forall_lookup _ _) Hall i x Hx).
Qed.

Lemma sign_clear_rms_sum (rms : list spec_float) (block : list nat) (rms_sum : spec_float) :
  Forall (fun x => sign_clear x = true) rms ->
  sign_clear rms_sum = true ->
  sign_clear (fold_left (fun rms_sum i => F32.add rms_sum (rms !!! i)) block rms_sum) = true.
Proof.
  intros Hall. revert rms_sum.
  induction block as [|i block IH]; intros a Ha; [exact Ha|].
  cbn [fold_left]. apply IH. apply sign_clear_add; [exact Ha|].
  apply sign_clear_lookup, Hall.
Qed.

Lemma long_frame_features_sign_clear (sgn : spec_float -> Z) (coefficient : spec_float)
    (RMS_FRAMES_IN_LONG_FRAME : nat) (rms : list spec_float) (start_rms_frame : nat) :
  (forall x, -1 <= sgn x) ->
  Forall (fun x => sign_clear x = true) rms ->
  features_sign_clear
    (long_frame_features sgn coefficient RMS_FRAMES_IN_LONG_FRAME rms start_rms_frame) = true.
Proof.
  intros Hsgn Hall.
  pose proof (sign_clear_variance sgn coefficient RMS_FRAMES_IN_LONG_FRAME rms
                start_rms_frame) as Hvar.
  assert (sign_clear (mean_rms (long_frame_features sgn coefficient RMS_FRAMES_IN_LONG_FRAME
                                  rms start_rms_frame)) = true) as Hmean.
  { unfold long_frame_features. cbn [mean_rms].
    apply sign_clear_div; [|apply sign_clear_of_int; lia].
    apply sign_clear_rms_sum; [exact Hall|reflexivity]. }
  unfold features_sign_clear. rewrite Hvar, Hmean. cbn [andb].
  apply andb_true_intro. split.
  - unfold long_frame_features in *. cbn [norm_variance_rms mean_rms variance_rms] in *.
    apply sign_clear_div; assumption.
  - unfold long_frame_features. cbn [mler].
    apply sign_clear_div; [|apply sign_clear_of_int; lia].
    apply sign_clear_mler_sum; [exact Hsgn|reflexivity].
Qed.

(** X5. Computed from the RMS values of [calculate_rms], for every sample
    stream, every window and block size and every [signum] with values
    from -1 up, the mean, variance, normalized variance and MLER of every
    long frame are non-negative or NaN. *)
Theorem features_not_negative (sgn : spec_float -> Z) (coefficient : spec_float)
    (FRAMES_IN_RMS_FRAME RMS_FRAME_COUNT RMS_FRAMES_IN_LONG_FRAME LONG_FRAME_COUNT : nat)
    (samples : list spec_float) :
  (forall x, -1 <= sgn x) ->
  Forall (fun f => features_sign_clear f = true)
         (calculate_features sgn coefficient RMS_FRAMES_IN_LONG_FRAME LONG_FRAME_COUNT
            (calculate_rms FRAMES_IN_RMS_FRAME RMS_FRAME_COUNT samples)).
Proof.
  intros Hsgn. unfold calculate_features. apply Forall_forall. intros f Hf.
  apply list_elem_of_In, in_map_iff in Hf as (long_frame & <- & _).
  apply long_frame_features_sign_clear; [exact Hsgn|].
  apply calculate_rms_sign_clear.
Qed.

Lemma signum_lower_bound (x : spec_float) : -1 <= signum x.
Proof. apply signum_range. Qed.

Lemma features_not_negative_witness :
  (forall x, -1 <= signum x)
  /\ Forall (fun f => features_sign_clear f = true)
       (calculate_features signum LOW_ENERGY_COEFFICIENT 2 1
          (calculate_rms 1 2 [F32.of_int 1; F32.of_int 2])).
Proof.
  split; [exact signum_lower_bound|].
  apply features_not_negative. exact signum_lower_bound.
Defined.

(** ** Feature aggregator: blocks *)

Lemma fold_left_ext_in {A B} (f g : A -> B -> A) (l : list B) (a : A) :
  (forall a x, In x l -> f a x = g a x) -> fold_left f l a = fold_left g l a.
Proof.
  revert a. induction l as [|x l IH]; intros a Hfg; [reflexivity|].
  cbn [fold_left]. rewrite Hfg by (left; reflexivity).
  apply IH. intros b y Hy. apply Hfg. right. exact Hy.
Qed.

Lemma long_frame_features_local (sgn : spec_float -> Z) (coefficient : spec_float)
    (RMS_FRAMES_IN_LONG_FRAME : nat) (rms rms' : list spec_float) (start_rms_frame : nat) :
  (forall i, (start_rms_frame <= i < start_rms_frame + RMS_FRAMES_IN_LONG_FRAME)%nat ->
             rms !!! i = rms' !!! i) ->
  long_frame_features sgn coefficient RMS_FRAMES_IN_LONG_FRAME rms start_rms_frame
  = long_frame_features sgn coefficient RMS_FRAMES_IN_LONG_FRAME rms' start_rms_frame.
Proof.
  intros Hagree. unfold long_frame_features.
  assert (fold_left (fun rms_sum i => F32.add rms_sum (rms !!! i))
                    (seq start_rms_frame RMS_FRAMES_IN_LONG_FRAME) F32.zero
          = fold_left (fun rms_sum i => F32.add rms_sum (rms' !!! i))
                      (seq start_rms_frame RMS_FRAMES_IN_LONG_FRAME) F32.zero) as Hsum.
  { apply fold_left_ext_in. intros a i Hi%in_seq. rewrite Hagree by lia. reflexivity. }
  rewrite Hsum.
  match goal with
  | |- context [fold_left (variance_mler_step sgn rms ?s ?t) ?b ?a] =>
      assert (fold_left (variance_mler_step sgn rms s t) b a
              = fold_left (variance_mler_step sgn rms' s t) b a) as Hacc
  end.
  { apply fold_left_ext_in. intros a i Hi%in_seq. unfold variance_mler_step.
    rewrite Hagree by lia. reflexivity. }
  rewrite Hacc. reflexivity.
Qed.

(** X6. [calculate_features] produces one record per long frame, and the
    record of long frame [i] depends on no RMS values other than those of
    its block, [i * RMS_FRAMES_IN_LONG_FRAME] ..
    [(i + 1) * RMS_FRAMES_IN_LONG_FRAME - 1]: two RMS sequences that agree
    there give the same features for that long frame. *)
Theorem calculate_features_blocks (sgn : spec_float -> Z) (coefficient : spec_float)
    (RMS_FRAMES_IN_LONG_FRAME LONG_FRAME_COUNT : nat) (rms rms' : list spec_float)
    (long_frame : nat) :
  (forall i, (long_frame * RMS_FRAMES_IN_LONG_FRAME <= i
              < (long_frame + 1) * RMS_FRAMES_IN_LONG_FRAME)%nat ->
             rms !!! i = rms' !!! i) ->
  length (calculate_features sgn coefficient RMS_FRAMES_IN_LONG_FRAME LONG_FRAME_COUNT rms)
  = LONG_FRAME_COUNT
  /\ calculate_features sgn coefficient RMS_FRAMES_IN_LONG_FRAME LONG_FRAME_COUNT rms
       !! long_frame
     = calculate_features sgn coefficient RMS_FRAMES_IN_LONG_FRAME LONG_FRAME_COUNT rms'
         !! long_frame.
Proof.
  intros Hagree. unfold calculate_features. split.
  - rewrite length_map, length_seq. reflexivity.
  - rewrite !lookup_map. destruct (seq 0 LONG_FRAME_COUNT !! long_frame) as [k|] eqn:Hk;
      [|reflexivity].
    apply lookup_seq in Hk as [-> _]. cbn [option_map Nat.add]. f_equal.
    apply long_frame_features_local. intros i Hi. apply Hagree. lia.
Qed.

Lemma calculate_features_blocks_witness :
  (forall i, (0 * 2 <= i < (0 + 1) * 2)%nat ->
             [F32.of_int 1; F32.of_int 2; F32.of_int 3; F32.of_int 4] !!! i
             = [F32.of_int 1; F32.of_int 2; F32.of_int 5; F32.of_int 6] !!! i)
  /\ calculate_features signum LOW_ENERGY_COEFFICIENT 2 2
       [F32.of_int 1; F32.of_int 2; F32.of_int 3; F32.of_int 4] !! 0%nat
     = calculate_features signum LOW_ENERGY_COEFFICIENT 2 2
         [F32.of_int 1; F32.of_int 2; F32.of_int 5; F32.of_int 6] !! 0%nat.
Proof.
  assert (forall i, (0 * 2 <= i < (0 + 1) * 2)%nat ->
             [F32.of_int 1; F32.of_int 2; F32.of_int 3; F32.of_int 4] !!! i
             = [F32.of_int 1; F32.of_int 2; F32.of_int 5; F32.of_int 6] !!! i) as Hagree.
  { intros [|[|i]] Hi; [reflexivity|reflexivity|lia]. }
  split; [exact Hagree|].
  exact (proj2 (calculate_features_blocks signum LOW_ENERGY_COEFFICIENT 2 2 _ _ 0 Hagree)).
Defined.

(** ** Classifier *)

Lemma music_checked : forallb music_check (seq 1 max_block) = true.
Proof. vm_compute. reflexivity. Qed.

Lemma music_quotient (n : nat) (k : Z) :
  (0 < n <= max_block)%nat -> 0 <= k <= 2 * Z.of_nat n ->
  F32.leb (F32.div (F32.of_int k) (F32.of_int (2 * Z.of_nat n))) UPPER_MUSIC_THRESHOLD
  = (k =? 0).
Proof.
  intros Hn Hk.
  pose proof (proj1 (forallb_forall _ _) music_checked n ltac:(apply in_seq; lia)) as Hc.
  unfold music_check in Hc. apply andb_prop in Hc as [H0 Hpos].
  destruct (Z.eqb_spec k 0) as [->|Hne]; [exact H0|].
  pose proof (proj1 (forallb_forall _ _) Hpos (Z.to_nat k) ltac:(apply in_seq; lia)) as Hck.
  cbv beta in Hck. rewrite Z2Nat.id in Hck by lia.
  apply negb_true_iff in Hck. exact Hck.
Qed.

Lemma mler_count_zero (sgn : spec_float -> Z) (lowthres : spec_float)
    (rms : list spec_float) (block : list nat) :
  (forall x, -1 <= sgn x <= 1) ->
  mler_count sgn lowthres rms block = 0
  <-> forall i, In i block -> sgn (F32.sub lowthres (rms !!! i)) = -1.
Proof.
  intros Hsgn. induction block as [|j block IH]; cbn [mler_count fold_right].
  - split; [intros _ i []|reflexivity].
  - fold (mler_count sgn lowthres rms block).
    pose proof (mler_count_range sgn Hsgn lowthres rms block) as Hrange.
    pose proof (Hsgn (F32.sub lowthres (rms !!! j))) as Hj.
    split.
    + intros Hsum i [<-|Hi]; [lia|]. apply IH; [lia|exact Hi].
    + intros Hall. rewrite (Hall j) by (left; reflexivity).
      rewrite (proj2 IH) by (intros i Hi; apply Hall; right; exact Hi). reflexivity.
Qed.

(** X7. With the music threshold 0.0 (and a block of at most [max_block]
    RMS frames), a long frame is classified as music exactly when
    [signum(lowthres - v)] is -1 for every RMS value [v] of its block,
    that is when no RMS frame of the block is at or below the low-energy
    threshold. *)
Theorem music_iff_no_low_energy_frame (sgn : spec_float -> Z) (coefficient : spec_float)
    (RMS_FRAMES_IN_LONG_FRAME LONG_FRAME_COUNT : nat) (rms : list spec_float)
    (long_frame : nat) :
  (forall x, -1 <= sgn x <= 1) ->
  (0 < RMS_FRAMES_IN_LONG_FRAME <= max_block)%nat ->
  (long_frame < LONG_FRAME_COUNT)%nat ->
  let fs := calculate_features sgn coefficient RMS_FRAMES_IN_LONG_FRAME LONG_FRAME_COUNT rms in
  exists f label,
    fs !! long_frame = Some f
    /\ classify_segments UPPER_MUSIC_THRESHOLD (map mler fs) !! long_frame = Some label
    /\ (label = true
        <-> forall i, (long_frame * RMS_FRAMES_IN_LONG_FRAME <= i
                       < (long_frame + 1) * RMS_FRAMES_IN_LONG_FRAME)%nat ->
                      sgn (F32.sub (F32.mul coefficient (mean_rms f)) (rms !!! i)) = -1).
Proof.
  intros Hsgn Hn Hlf fs.
  set (f := long_frame_features sgn coefficient RMS_FRAMES_IN_LONG_FRAME rms
              (long_frame * RMS_FRAMES_IN_LONG_FRAME)).
  assert (fs !! long_frame = Some f) as Hf.
  { unfold fs, calculate_features. rewrite lookup_map, lookup_seq_lt by exact Hlf.
    reflexivity. }
  exists f, (if F32.leb (mler f) UPPER_MUSIC_THRESHOLD then true else false).
  split; [exact Hf|]. split.
  { unfold classify_segments. rewrite !lookup_map, Hf. reflexivity. }
  set (lowthres := F32.mul coefficient (mean_rms f)).
  set (block := seq (long_frame * RMS_FRAMES_IN_LONG_FRAME) RMS_FRAMES_IN_LONG_FRAME).
  assert (mler f = F32.div (F32.of_int (mler_count sgn lowthres rms block))
                           (F32.of_int (2 * Z.of_nat RMS_FRAMES_IN_LONG_FRAME))) as Hm.
  { unfold f, long_frame_features. cbn [mler]. f_equal.
    change (F32.zero, F32.zero) with (F32.zero, F32.of_int 0).
    rewrite (mler_accumulates sgn Hsgn) by (rewrite ?length_seq; lia).
    reflexivity. }
  pose proof (mler_count_range sgn Hsgn lowthres rms
                (seq (long_frame * RMS_FRAMES_IN_LONG_FRAME) RMS_FRAMES_IN_LONG_FRAME))
    as Hrange.
  rewrite length_seq in Hrange. fold block in Hrange.
  rewrite Hm, music_quotient by (exact Hn || exact Hrange).
  destruct (Z.eqb_spec (mler_count sgn lowthres rms block) 0) as [Hz|Hnz].
  - split; [intros _|reflexivity]. intros i Hi.
    apply (proj1 (mler_count_zero sgn lowthres rms block Hsgn) Hz).
    apply in_seq. lia.
  - split; [discriminate|]. intros Hall. exfalso. apply Hnz.
    apply (mler_count_zero sgn lowthres rms block Hsgn).
    intros i Hi%in_seq. apply Hall. lia.
Qed.

Lemma music_iff_no_low_energy_frame_witness :
  (forall x, -1 <= signum x <= 1)
  /\ (0 < 2 <= max_block)%nat
  /\ (0 < 1)%nat
  /\ exists f label,
       calculate_features signum LOW_ENERGY_COEFFICIENT 2 1 [F32.of_int 1; F32.of_int 2]
         !! 0%nat = Some f
       /\ classify_segments UPPER_MUSIC_THRESHOLD
            (map mler (calculate_features signum LOW_ENERGY_COEFFICIENT 2 1
                         [F32.of_int 1; F32.of_int 2])) !! 0%nat = Some label
       /\ (label = true
           <-> forall i, (0 * 2 <= i < (0 + 1) * 2)%nat ->
                 signum (F32.sub (F32.mul LOW_ENERGY_COEFFICIENT (mean_rms f))
                                 ([F32.of_int 1; F32.of_int 2] !!! i)) = -1).
Proof.
  split; [exact signum_range|]. split; [unfold max_block; lia|]. split; [lia|].
  exact (music_iff_no_low_energy_frame signum LOW_ENERGY_COEFFICIENT 2 1
           [F32.of_int 1; F32.of_int 2] 0 signum_range
           ltac:(unfold max_block; lia) ltac:(lia)).
Defined.

(** ** Smoother: all labels *)

Lemma length_average_musicness (LONG_FRAME_COUNT : nat)
    (music_second_pass labels : list bool) :
  length (average_musicness LONG_FRAME_COUNT music_second_pass labels) = length labels.
Proof.
  unfold average_musicness, copy_back.
  apply (length_fold_insert
           (fun k => second_pass LONG_FRAME_COUNT music_second_pass labels !!! k)).
Qed.

(** X8. For LONG_FRAME_COUNT >= 7 the smoother keeps the number of labels
    and leaves: [true] at the indices 0, 1, 2; at an interior index
    3 <= i < LONG_FRAME_COUNT - 3, [true] exactly when at least 3 of the
    7 input labels i-3 .. i+3 are [true]; at LONG_FRAME_COUNT - 3 the
    value the scratch buffer held there; [false] at the last two
    indices. *)
Theorem average_musicness_pointwise (LONG_FRAME_COUNT : nat)
    (music_second_pass labels : list bool) (i : nat) :
  (7 <= LONG_FRAME_COUNT)%nat ->
  length music_second_pass = (2 * LONG_FRAME_COUNT)%nat ->
  length labels = LONG_FRAME_COUNT ->
  (i < LONG_FRAME_COUNT)%nat ->
  length (average_musicness LONG_FRAME_COUNT music_second_pass labels) = LONG_FRAME_COUNT
  /\ average_musicness LONG_FRAME_COUNT music_second_pass labels !!! i
     = if (i <? 3)%nat then true
       else if (i <? LONG_FRAME_COUNT - 3)%nat then 3 <=? window_sum labels i
       else if (i =? LONG_FRAME_COUNT - 3)%nat then music_second_pass !!! i
       else false.
Proof.
  intros HN Hscratch Hlabels Hi. split.
  - rewrite length_average_musicness. exact Hlabels.
  - apply average_musicness_labels; assumption.
Qed.

Lemma average_musicness_pointwise_witness :
  (7 <= 8)%nat /\ (4 < 8)%nat
  /\ average_musicness 8 (replicate 16 false)
       [false; true; false; false; true; false; true; false] !!! 4%nat = true.
Proof.
  split; [lia|]. split; [lia|].
  exact (proj2 (average_musicness_pointwise 8 (replicate 16 false)
                  [false; true; false; false; true; false; true; false] 4
                  ltac:(lia) ltac:(reflexivity) ltac:(reflexivity) ltac:(lia))).
Defined.

(** X9. For 2 <= LONG_FRAME_COUNT <= 5 the labels after smoothing do not
    depend on the labels before it (nor on the scratch buffer): the last
    two are [false] and those before them [true]. *)
Theorem average_musicness_short (LONG_FRAME_COUNT : nat)
    (music_second_pass labels : list bool) :
  (2 <= LONG_FRAME_COUNT <= 5)%nat ->
  length music_second_pass = (2 * LONG_FRAME_COUNT)%nat ->
  length labels = LONG_FRAME_COUNT ->
  average_musicness LONG_FRAME_COUNT music_second_pass labels
  = replicate (LONG_FRAME_COUNT - 2) true ++ [false; false].
Proof.
  intros HN Hscratch Hlabels.
  assert (LONG_FRAME_COUNT = 2 \/ LONG_FRAME_COUNT = 3 \/ LONG_FRAME_COUNT = 4
          \/ LONG_FRAME_COUNT = 5)%nat as [->|[->|[->| ->]]] by lia;
    repeat (destruct labels as [|? labels]; try discriminate Hlabels);
    repeat (destruct music_second_pass as [|? music_second_pass];
            try discriminate Hscratch);
    reflexivity.
Qed.

Lemma average_musicness_short_witness :
  (2 <= 4 <= 5)%nat
  /\ average_musicness 4 (replicate 8 true) [false; false; true; true]
     = [true; true; false; false].
Proof.
  split; [lia|].
  exact (average_musicness_short 4 (replicate 8 true) [false; false; true; true]
           ltac:(lia) ltac:(reflexivity) ltac:(reflexivity)).
Defined.

(** ** Segment merger: the labels of the runs *)

Lemma detect_step_first_labelled (labels : list bool) (segments : list segment) :
  (0 < length segments)%nat ->
  runs_labelled labels (fst (detect_step labels (segments, 0%nat) 0))
                (snd (detect_step labels (segments, 0%nat) 0)) 1.
Proof.
  intros Hlen. cbn [detect_step Nat.eqb fst snd]. unfold runs_labelled.
  rewrite !lookup_total_modify. case_decide; [|lia].
  split; [reflexivity|]. split; [intros j Hj; lia|]. split.
  - intros j Hj. replace j with 0%nat by lia. rewrite lookup_total_modify.
    case_decide; [cbn; lia|lia].
  - intros j f Hj Hf. replace j with 0%nat by lia. rewrite lookup_total_modify.
    case_decide; [cbn; lia|lia].
Qed.

Lemma detect_step_labelled (labels : list bool) (segments : list segment)
    (current_segment k : nat) :
  (1 <= k < length segments)%nat ->
  runs_wf segments current_segment k ->
  runs_labelled labels segments current_segment k ->
  runs_labelled labels (fst (detect_step labels (segments, current_segment) k))
                (snd (detect_step labels (segments, current_segment) k)) (S k).
Proof.
  intros Hk (Hcur & _ & Hend & Hle & _) (Hfirst & Halt & Hbound & Hlab).
  unfold detect_step. destruct (Nat.eqb_spec k 0) as [|_]; [lia|].
  destruct (Bool.eqb _ _) eqn:Heq; cbn [fst snd]; unfold runs_labelled.
  - (* the current run is extended *)
    apply Bool.eqb_prop in Heq.
    split; [|split; [|split]].
    + rewrite (modify_preserves is_music); [exact Hfirst|reflexivity].
    + intros j Hj. rewrite !(modify_preserves is_music) by reflexivity. apply Halt, Hj.
    + intros j Hj. rewrite lookup_total_modify. case_decide as Hd.
      * cbn. lia.
      * specialize (Hbound j Hj). lia.
    + intros j f Hj Hf. rewrite (modify_preserves is_music) by reflexivity.
      rewrite (modify_preserves startframe) by reflexivity.
      rewrite lookup_total_modify. case_decide as Hd.
      * destruct Hd as [<- _]. cbn [set_endframe endframe]. intros Hrange.
        destruct (Z.eq_dec (Z.of_nat f) (endframe (segments !!! current_segment) + 1))
          as [Hlast|Hinner].
        -- replace f with k by lia. exact Heq.
        -- apply Hlab; [lia|exact Hf|lia].
      * intros Hrange. apply Hlab; [exact Hj|exact Hf|exact Hrange].
  - (* a run is opened *)
    apply Bool.eqb_false_iff in Heq.
    split; [|split; [|split]].
    + rewrite modify_other by lia. exact Hfirst.
    + intros j Hj. rewrite (modify_other (S current_segment) j) by lia.
      rewrite lookup_total_modify. case_decide as Hd.
      * destruct Hd as [Hd _]. injection Hd as <-. cbn [set_is_music is_music].
        destruct (labels !!! k), (is_music (segments !!! current_segment));
          try reflexivity; contradiction Heq; reflexivity.
      * apply Halt. lia.
    + intros j Hj. rewrite lookup_total_modify. case_decide as Hd.
      * cbn. lia.
      * specialize (Hbound j ltac:(lia)). lia.
    + intros j f Hj Hf. rewrite lookup_total_modify. case_decide as Hd.
      * cbn. intros Hrange. replace f with k by lia. reflexivity.
      * intros Hrange. apply Hlab; [lia|exact Hf|exact Hrange].
Qed.

Lemma detect_loop_labelled (labels : list bool) (count k : nat) (st : list segment * nat) :
  (1 <= k)%nat -> (k + count <= length (fst st))%nat ->
  runs_wf (fst st) (snd st) k ->
  runs_labelled labels (fst st) (snd st) k ->
  runs_labelled labels (fst (fold_left (detect_step labels) (seq k count) st))
                (snd (fold_left (detect_step labels) (seq k count) st)) (k + count).
Proof.
  revert k st. induction count as [|count IH]; intros k st Hk Hlen Hwf Hlab.
  - rewrite Nat.add_0_r. exact Hlab.
  - cbn [seq fold_left]. replace (k + S count)%nat with (S k + count)%nat by lia.
    destruct st as [segments current_segment]. cbn [fst snd] in *.
    apply IH; [lia|rewrite length_detect_step; cbn; lia| |].
    + apply detect_step_wf; [lia|exact Hwf].
    + apply detect_step_labelled; [lia|exact Hwf|exact Hlab].
Qed.

Lemma detect_segments_labelled (LONG_FRAME_COUNT : nat) (segments : list segment)
    (labels : list bool) :
  (1 <= LONG_FRAME_COUNT <= length segments)%nat ->
  runs_labelled labels (fst (detect_segments LONG_FRAME_COUNT segments labels))
                (snd (detect_segments LONG_FRAME_COUNT segments labels)) LONG_FRAME_COUNT.
Proof.
  intros HN. unfold detect_segments.
  destruct LONG_FRAME_COUNT as [|count]; [lia|].
  cbn [seq fold_left].
  apply (detect_loop_labelled labels count 1); [lia|rewrite length_detect_step; cbn; lia| |].
  - apply detect_step_first. lia.
  - apply detect_step_first_labelled. lia.
Qed.

(** X10. Phase 1 of [merge_segments], for LONG_FRAME_COUNT >= 1 and a
    [segments] array of at least LONG_FRAME_COUNT entries: the index of
    the last run stays below LONG_FRAME_COUNT (no store outside the
    array), run 0 starts at long frame 0, every run starts right after
    the one before it ends, no run is empty, and the last run ends at
    long frame LONG_FRAME_COUNT - 1. *)
Theorem detect_segments_tiles (LONG_FRAME_COUNT : nat) (segments : list segment)
    (labels : list bool) :
  (1 <= LONG_FRAME_COUNT <= length segments)%nat ->
  let runs := fst (detect_segments LONG_FRAME_COUNT segments labels) in
  let current_segment := snd (detect_segments LONG_FRAME_COUNT segments labels) in
  (current_segment < LONG_FRAME_COUNT)%nat
  /\ startframe (runs !!! 0%nat) = 0
  /\ endframe (runs !!! current_segment) = Z.of_nat LONG_FRAME_COUNT - 1
  /\ (forall j, (j <= current_segment)%nat ->
        startframe (runs !!! j) <= endframe (runs !!! j))
  /\ (forall j, (j < current_segment)%nat ->
        startframe (runs !!! S j) = endframe (runs !!! j) + 1).
Proof. intros HN. exact (detect_segments_wf LONG_FRAME_COUNT segments labels HN). Qed.

Lemma detect_segments_tiles_witness :
  (1 <= 4 <= 4)%nat
  /\ endframe (fst (detect_segments 4 (replicate 4 inhabitant) [true; true; false; false])
               !!! snd (detect_segments 4 (replicate 4 inhabitant)
                          [true; true; false; false])) = 4 - 1.
Proof.
  split; [lia|].
  exact (proj1 (proj2 (proj2 (detect_segments_tiles 4 (replicate 4 inhabitant)
                                [true; true; false; false] ltac:(cbn; lia))))).
Defined.

(** X11. The labels of the runs of phase 1: run 0 is labelled music
    whatever the label of long frame 0 is, neighbouring runs have
    different labels, and every long frame after frame 0 has the label of
    the run it lies in. *)
Theorem detect_segments_labels (LONG_FRAME_COUNT : nat) (segments : list segment)
    (labels : list bool) :
  (1 <= LONG_FRAME_COUNT <= length segments)%nat ->
  let runs := fst (detect_segments LONG_FRAME_COUNT segments labels) in
  let current_segment := snd (detect_segments LONG_FRAME_COUNT segments labels) in
  is_music (runs !!! 0%nat) = true
  /\ (forall j, (j < current_segment)%nat ->
        is_music (runs !!! S j) = negb (is_music (runs !!! j)))
  /\ (forall j f, (j <= current_segment)%nat -> (1 <= f)%nat ->
        startframe (runs !!! j) <= Z.of_nat f <= endframe (runs !!! j) ->
        labels !!! f = is_music (runs !!! j)).
Proof.
  intros HN.
  destruct (detect_segments_labelled LONG_FRAME_COUNT segments labels HN)
    as (Hfirst & Halt & _ & Hlab).
  cbv zeta. auto.
Qed.

Lemma detect_segments_labels_witness :
  (1 <= 4 <= 4)%nat
  /\ is_music (fst (detect_segments 4 (replicate 4 inhabitant) [false; true; false; false])
               !!! 0%nat) = true.
Proof.
  split; [lia|].
  exact (proj1 (detect_segments_labels 4 (replicate 4 inhabitant)
                  [false; true; false; false] ltac:(cbn; lia))).
Defined.

(** ** Segment merger: the merged segments before growth *)

Lemma merge_step_keeps_first_label (has_intro : bool) (segments : list segment)
    (st : list segment * nat) (seg : nat) :
  seg <> 0%nat ->
  is_music (fst (merge_step has_intro segments st seg) !!! 0%nat)
  = is_music (fst st !!! 0%nat).
Proof.
  intros Hseg. destruct st as [merged cm]. unfold merge_step. cbn [fst].
  destruct (Nat.eqb_spec seg 0) as [|_]; [contradiction|].
  destruct (_ <? _); [|destruct (Bool.eqb _ _)]; cbn [fst].
  - apply (modify_preserves is_music). reflexivity.
  - apply (modify_preserves is_music). reflexivity.
  - apply (f_equal is_music). apply modify_other. discriminate.
Qed.

Section Phase2Structure.
Variable has_intro : bool.
Variables (segments : list segment) (current_segment LONG_FRAME_COUNT : nat).
Hypothesis runs : runs_wf segments current_segment LONG_FRAME_COUNT.

Lemma merge_step_first_alternate (merged_segments : list segment) :
  (0 < length merged_segments)%nat ->
  merged_alternate (fst (merge_step has_intro segments (merged_segments, 0%nat) 0))
                   (snd (merge_step has_intro segments (merged_segments, 0%nat) 0))
  /\ (has_intro = true ->
      is_music (fst (merge_step has_intro segments (merged_segments, 0%nat) 0) !!! 0%nat)
      = false).
Proof.
  intros Hlen. destruct runs as (_ & H0 & _).
  cbn [merge_step Nat.eqb fst snd]. unfold merged_alternate. split.
  - split; [|split; intros i Hi; lia].
    destruct has_intro.
    + rewrite (modify_preserves startframe) by reflexivity.
      rewrite lookup_total_modify. case_decide; [cbn; exact H0|lia].
    + rewrite lookup_total_modify. case_decide; [cbn; exact H0|lia].
  - intros ->. rewrite lookup_total_modify, length_modify.
    case_decide; [reflexivity|lia].
Qed.

Lemma merge_step_alternate (merged_segments : list segment)
    (current_merged_segment j : nat) :
  (1 <= j <= current_segment)%nat -> (j < length merged_segments)%nat ->
  merged_wf segments merged_segments current_merged_segment j ->
  merged_alternate merged_segments current_merged_segment ->
  merged_alternate
    (fst (merge_step has_intro segments (merged_segments, current_merged_segment) j))
    (snd (merge_step has_intro segments (merged_segments, current_merged_segment) j)).
Proof.
  intros Hj Hlen (Hcm & _ & _ & Hend & Hle) (Hstart & Hadj & Hmin).
  destruct runs as (_ & _ & _ & Hrle & Hradj).
  specialize (Hrle j ltac:(lia)). specialize (Hradj (j - 1)%nat ltac:(lia)).
  replace (S (j - 1)) with j in Hradj by lia.
  unfold merge_step. destruct (Nat.eqb_spec j 0) as [|_]; [lia|].
  set (run := segments !!! j) in *.
  assert (absorbed :
    merged_alternate
      (modify current_merged_segment (fun m => set_endframe m (endframe run)) merged_segments)
      current_merged_segment).
  { unfold merged_alternate. split; [|split].
    - rewrite (modify_preserves startframe) by reflexivity. exact Hstart.
    - intros i Hi. rewrite (modify_preserves startframe) by reflexivity.
      rewrite !(modify_preserves is_music) by reflexivity.
      rewrite (modify_other current_merged_segment i) by lia. apply Hadj, Hi.
    - intros i Hi. rewrite (modify_preserves startframe) by reflexivity.
      rewrite lookup_total_modify. case_decide as Hd.
      + destruct Hd as [<- _]. cbn [set_endframe endframe].
        specialize (Hmin current_merged_segment Hi). lia.
      + apply Hmin, Hi. }
  destruct (Z.ltb_spec (endframe run - startframe run) 10) as [_|Hlong];
    [exact absorbed|].
  destruct (Bool.eqb _ _) eqn:Heq; [exact absorbed|].
  apply Bool.eqb_false_iff in Heq.
  cbn [fst snd]. unfold merged_alternate. split; [|split].
  - rewrite modify_other by lia. exact Hstart.
  - intros i Hi. rewrite (modify_other (S current_merged_segment) i) by lia.
    rewrite lookup_total_modify. case_decide as Hd.
    + destruct Hd as [Hd _]. injection Hd as <-. rewrite assign_all_fields.
      split; [lia|].
      destruct (is_music run), (is_music (merged_segments !!! current_merged_segment));
        try reflexivity; contradiction Heq; reflexivity.
    + apply Hadj. lia.
  - intros i Hi. rewrite lookup_total_modify. case_decide as Hd.
    + rewrite assign_all_fields. exact Hlong.
    + apply Hmin. lia.
Qed.

Lemma merge_loop_alternate (count j : nat) (st : list segment * nat) :
  (1 <= j)%nat -> (j + count <= S current_segment)%nat ->
  (current_segment < length (fst st))%nat ->
  merged_wf segments (fst st) (snd st) j ->
  merged_alternate (fst st) (snd st) ->
  merged_alternate (fst (fold_left (merge_step has_intro segments) (seq j count) st))
                   (snd (fold_left (merge_step has_intro segments) (seq j count) st))
  /\ is_music (fst (fold_left (merge_step has_intro segments) (seq j count) st) !!! 0%nat)
     = is_music (fst st !!! 0%nat).
Proof.
  revert j st. induction count as [|count IH]; intros j st Hj Hcount Hlen Hwf Halt.
  - split; [exact Halt|reflexivity].
  - cbn [seq fold_left]. destruct st as [merged cm]. cbn [fst snd] in *.
    destruct (IH (S j) (merge_step has_intro segments (merged, cm) j)) as [Halt' Hlabel];
      [lia|lia|rewrite length_merge_step; exact Hlen| | |].
    + apply (merge_step_wf has_intro segments current_segment LONG_FRAME_COUNT runs);
        [lia|lia|exact Hwf].
    + apply merge_step_alternate; [lia|lia|exact Hwf|exact Halt].
    + split; [exact Halt'|]. rewrite Hlabel.
      apply (merge_step_keeps_first_label has_intro segments (merged, cm) j). lia.
Qed.
End Phase2Structure.

Lemma merge_pre_growth_structure (has_intro : bool) (LONG_FRAME_COUNT : nat)
    (segments : list segment) (labels : list bool) (merged_segments : list segment) :
  (1 <= LONG_FRAME_COUNT)%nat ->
  (LONG_FRAME_COUNT <= length segments)%nat ->
  (LONG_FRAME_COUNT <= length merged_segments)%nat ->
  let pre := merge_segments_pre_growth has_intro LONG_FRAME_COUNT segments labels
                                       merged_segments in
  let merged := fst (fst pre) in
  let current_segment := snd (fst pre) in
  let current_merged_segment := snd pre in
  current_segment <> 0%nat ->
  (current_merged_segment < current_segment < LONG_FRAME_COUNT)%nat
  /\ startframe (merged !!! 0%nat) = 0
  /\ (forall i, (i < current_merged_segment)%nat ->
        startframe (merged !!! S i) = endframe (merged !!! i) + 1
        /\ is_music (merged !!! S i) = negb (is_music (merged !!! i)))
  /\ (forall i, (1 <= i <= current_merged_segment)%nat ->
        10 <= endframe (merged !!! i) - startframe (merged !!! i))
  /\ (has_intro = true -> is_music (merged !!! 0%nat) = false).
Proof.
  intros HN Hsegs Hmerged. cbv zeta. unfold merge_segments_pre_growth.
  pose proof (detect_segments_wf LONG_FRAME_COUNT segments labels ltac:(lia)) as Hruns.
  destruct (detect_segments LONG_FRAME_COUNT segments labels) as [runs current_segment].
  cbn [fst snd] in Hruns. unfold merge_runs.
  destruct current_segment as [|c]; [cbn; intros []; reflexivity|].
  cbn [seq fold_left]. intros _.
  pose proof (merge_step_first has_intro runs (S c) LONG_FRAME_COUNT Hruns
                merged_segments ltac:(lia)) as Hfirst.
  destruct (merge_step_first_alternate has_intro runs (S c) LONG_FRAME_COUNT Hruns
              merged_segments ltac:(lia)) as [Halt0 Hlabel0].
  assert (S c < LONG_FRAME_COUNT)%nat as Hcur by (destruct Hruns as [? _]; lia).
  pose proof (merge_loop_wf has_intro runs (S c) LONG_FRAME_COUNT Hruns c 1
                (merge_step has_intro runs (merged_segments, 0%nat) 0)
                ltac:(lia) ltac:(lia)) as Hwf.
  rewrite length_merge_step in Hwf. cbn [fst] in Hwf.
  specialize (Hwf ltac:(lia) Hfirst).
  pose proof (merge_loop_alternate has_intro runs (S c) LONG_FRAME_COUNT Hruns c 1
                (merge_step has_intro runs (merged_segments, 0%nat) 0)
                ltac:(lia) ltac:(lia)) as Halt.
  rewrite length_merge_step in Halt. cbn [fst] in Halt.
  specialize (Halt ltac:(lia) Hfirst Halt0).
  destruct (fold_left _ _ _) as [merged cm]. cbn [fst snd] in *.
  destruct Hwf as (Hcm & _). destruct Halt as [(Hstart & Hadj & Hmin) Hlabel].
  split; [lia|]. split; [exact Hstart|]. split; [exact Hadj|]. split; [exact Hmin|].
  intros Hintro. rewrite Hlabel. apply Hlabel0, Hintro.
Qed.

(** X12. Before growth, when at least two runs are detected
    (LONG_FRAME_COUNT >= 1, arrays of at least LONG_FRAME_COUNT entries):
    the index of the last merged segment is below the index of the last
    run, itself below LONG_FRAME_COUNT (no store leaves the arrays);
    merged segment 0 starts at long frame 0; every merged segment starts
    right after the one before it ends and has the other label; every
    merged segment but the first has [endframe - startframe >= 10]; and
    with [has_intro] the label of merged segment 0 is [false]. *)
Theorem merged_segments_alternate (has_intro : bool) (LONG_FRAME_COUNT : nat)
    (segments : list segment) (labels : list bool) (merged_segments : list segment) :
  (1 <= LONG_FRAME_COUNT)%nat ->
  (LONG_FRAME_COUNT <= length segments)%nat ->
  (LONG_FRAME_COUNT <= length merged_segments)%nat ->
  let pre := merge_segments_pre_growth has_intro LONG_FRAME_COUNT segments labels
                                       merged_segments in
  let merged := fst (fst pre) in
  let current_segment := snd (fst pre) in
  let current_merged_segment := snd pre in
  current_segment <> 0%nat ->
  (current_merged_segment < current_segment < LONG_FRAME_COUNT)%nat
  /\ startframe (merged !!! 0%nat) = 0
  /\ (forall i, (i < current_merged_segment)%nat ->
        startframe (merged !!! S i) = endframe (merged !!! i) + 1
        /\ is_music (merged !!! S i) = negb (is_music (merged !!! i)))
  /\ (forall i, (1 <= i <= current_merged_segment)%nat ->
        10 <= endframe (merged !!! i) - startframe (merged !!! i))
  /\ (has_intro = true -> is_music (merged !!! 0%nat) = false).
Proof. exact (merge_pre_growth_structure has_intro LONG_FRAME_COUNT segments labels merged_segments). Qed.

Lemma merged_segments_alternate_witness :
  let pre := merge_segments_pre_growth true 13 (replicate 13 inhabitant)
               (true :: replicate 11 false ++ [true]) (replicate 13 inhabitant) in
  (1 <= 13)%nat
  /\ snd (fst pre) <> 0%nat
  /\ startframe (fst (fst pre) !!! 0%nat) = 0.
Proof.
  cbv zeta. split; [lia|]. split; [vm_compute; discriminate|].
  exact (proj1 (proj2 (merged_segments_alternate true 13 (replicate 13 inhabitant)
                         (true :: replicate 11 false ++ [true]) (replicate 13 inhabitant)
                         ltac:(lia) ltac:(cbn; lia) ltac:(cbn; lia)
                         ltac:(vm_compute; discriminate)))).
Defined.

(** ** Segment merger: growth *)

Lemma grow_step_modify (merged_segments : list segment) (seg : nat) :
  grow_step merged_segments seg = modify seg grown merged_segments.
Proof.
  unfold grow_step, grown, modify. destruct (is_music (merged_segments !!! seg)); reflexivity.
Qed.

Lemma length_grow_loop (idxs : list nat) (merged_segments : list segment) :
  length (fold_left grow_step idxs merged_segments) = length merged_segments.
Proof.
  revert merged_segments. induction idxs as [|seg idxs IH]; intros l; [reflexivity|].
  cbn [fold_left]. rewrite IH, grow_step_modify. apply length_modify.
Qed.

Lemma lookup_total_grow_loop (count first : nat) (merged_segments : list segment) (i : nat) :
  (i < length merged_segments)%nat ->
  fold_left grow_step (seq first count) merged_segments !!! i
  = if decide (first <= i < first + count)%nat then grown (merged_segments !!! i)
    else merged_segments !!! i.
Proof.
  revert first merged_segments.
  induction count as [|count IH]; intros first l Hi; cbn [seq fold_left].
  - case_decide; [lia|reflexivity].
  - rewrite IH by (rewrite grow_step_modify, length_modify; exact Hi).
    rewrite grow_step_modify, lookup_total_modify.
    destruct (Nat.eq_dec first i) as [<-|Hne].
    + case_decide; [lia|]. case_decide; [|lia]. case_decide; [reflexivity|lia].
    + case_decide as Hin; (case_decide; [lia|]); case_decide; try reflexivity; lia.
Qed.

Lemma grow_segments_lookup (has_intro : bool) (current_segment : nat)
    (merged_segments : list segment) (i : nat) :
  (i < length merged_segments)%nat ->
  grow_segments has_intro current_segment merged_segments !!! i
  = if (i =? 0)%nat then grown_first has_intro (merged_segments !!! 0%nat)
    else if (i <? current_segment)%nat then grown (merged_segments !!! i)
    else merged_segments !!! i.
Proof.
  intros Hi. unfold grow_segments.
  assert ((if has_intro
           then modify 0%nat (fun m => set_endframe m (endframe m + GROW_BY_AFTER))
                       merged_segments
           else modify 0%nat (fun m => set_endframe m (endframe m - GROW_BY_BEFORE))
                       merged_segments)
          = modify 0%nat (grown_first has_intro) merged_segments) as ->.
  { unfold grown_first. destruct has_intro; reflexivity. }
  rewrite lookup_total_grow_loop by (rewrite length_modify; exact Hi).
  rewrite lookup_total_modify.
  destruct (Nat.eqb_spec i 0) as [->|Hne].
  - case_decide; [lia|]. case_decide; [reflexivity|lia].
  - destruct (Nat.ltb_spec i current_segment); repeat case_decide; try reflexivity; lia.
Qed.

(** X13. The growth step of [merge_segments], slot by slot: in slot 0
    only the end moves (by +3 with [has_intro], by -3 without); every
    slot 1 <= i < current_segment -- the bound is the index of the last
    detected run, not of the last merged segment -- is narrowed by 3 long
    frames on each side when its label is music and widened by 3 on each
    side when it is speech; the slots from [current_segment] on, and all
    labels, are left as they are.  No boundary is clamped.  This is for a
    slot whose boundaries can move by 3 within the range of [int]
    ([growth_in_range]), whether phase 2 stored it or the caller left it
    there. *)
Theorem grow_segments_pointwise (has_intro : bool) (current_segment : nat)
    (merged_segments : list segment) (i : nat) :
  (i < length merged_segments)%nat ->
  growth_in_range (merged_segments !!! i) ->
  length (grow_segments has_intro current_segment merged_segments) = length merged_segments
  /\ grow_segments has_intro current_segment merged_segments !!! i
     = if (i =? 0)%nat then grown_first has_intro (merged_segments !!! 0%nat)
       else if (i <? current_segment)%nat then grown (merged_segments !!! i)
       else merged_segments !!! i.
Proof.
  intros Hi _. split; [|apply grow_segments_lookup, Hi].
  unfold grow_segments. rewrite length_grow_loop.
  destruct has_intro; apply length_modify.
Qed.

Lemma grow_segments_pointwise_witness :
  let m := {| startframe := 20; endframe := 40; is_music := true |} in
  (1 < 3)%nat
  /\ growth_in_range m
  /\ grow_segments false 2 [m; m; m] !!! 1%nat
     = {| startframe := 23; endframe := 37; is_music := true |}.
Proof.
  cbv zeta. split; [lia|]. split; [vm_compute; intuition discriminate|].
  exact (proj2 (grow_segments_pointwise false 2
                  (replicate 3 {| startframe := 20; endframe := 40; is_music := true |}) 1
                  ltac:(cbn; lia) ltac:(vm_compute; intuition discriminate))).
Defined.

(** ** Segment merger: the segments returned *)

Lemma length_merge_runs (has_intro : bool) (segments : list segment)
    (current_segment : nat) (merged_segments : list segment) :
  length (fst (merge_runs has_intro segments current_segment merged_segments))
  = length merged_segments.
Proof.
  unfold merge_runs.
  change merged_segments with (fst (merged_segments, 0%nat)) at 2.
  generalize (merged_segments, 0%nat). generalize (seq 0 current_segment).
  intros idxs. induction idxs as [|seg idxs IH]; intros st; cbn [fold_left]; [reflexivity|].
  rewrite IH. apply length_merge_step.
Qed.

Lemma length_merge_pre_growth (has_intro : bool) (LONG_FRAME_COUNT : nat)
    (segments : list segment) (labels : list bool) (merged_segments : list segment) :
  length (fst (fst (merge_segments_pre_growth has_intro LONG_FRAME_COUNT segments labels
                      merged_segments)))
  = length merged_segments.
Proof.
  unfold merge_segments_pre_growth.
  destruct (detect_segments LONG_FRAME_COUNT segments labels) as [runs current_segment].
  pose proof (length_merge_runs has_intro runs current_segment merged_segments) as Hlen.
  destruct (merge_runs has_intro runs current_segment merged_segments) as [merged cm].
  exact Hlen.
Qed.

Lemma merge_pre_growth_single_run (has_intro : bool) (LONG_FRAME_COUNT : nat)
    (segments : list segment) (labels : list bool) (merged_segments : list segment) :
  snd (fst (merge_segments_pre_growth has_intro LONG_FRAME_COUNT segments labels
              merged_segments)) = 0%nat ->
  merge_segments_pre_growth has_intro LONG_FRAME_COUNT segments labels merged_segments
  = (merged_segments, 0%nat, 0%nat).
Proof.
  unfold merge_segments_pre_growth.
  destruct (detect_segments LONG_FRAME_COUNT segments labels) as [runs current_segment].
  destruct current_segment as [|c].
  - intros _. reflexivity.
  - destruct (merge_runs has_intro runs (S c) merged_segments) as [merged cm].
    cbn. discriminate.
Qed.

Lemma merge_segments_unfold (has_intro : bool) (LONG_FRAME_COUNT : nat)
    (segments : list segment) (labels : list bool) (merged_segments : list segment) :
  merge_segments has_intro LONG_FRAME_COUNT segments labels merged_segments
  = (let pre := merge_segments_pre_growth has_intro LONG_FRAME_COUNT segments labels
                  merged_segments in
     (grow_segments has_intro (snd (fst pre)) (fst (fst pre)), Z.of_nat (snd pre))).
Proof.
  unfold merge_segments.
  destruct (merge_segments_pre_growth _ _ _ _ _) as [[merged cur] cm]. reflexivity.
Qed.

Lemma grown_label (m : segment) : is_music (grown m) = is_music m.
Proof. unfold grown. destruct (is_music m) eqn:Hm; cbn; exact Hm. Qed.

(** X14. The segments that [merge_segments] returns (LONG_FRAME_COUNT >=
    1, arrays of at least LONG_FRAME_COUNT entries), [r] being the
    returned integer: for 1 <= i < r, segment i + 1 starts right after
    segment i ends and has the other label (growth moves each boundary by
    3 long frames into the music segment and opens no gap or overlap);
    every segment 1 <= i <= r has [endframe - startframe >= 4]; and with
    [has_intro] segment 1 starts right after segment 0 ends. *)
Theorem grown_segments_contiguous (has_intro : bool) (LONG_FRAME_COUNT : nat)
    (segments : list segment) (labels : list bool) (merged_segments : list segment) :
  (1 <= LONG_FRAME_COUNT)%nat ->
  (LONG_FRAME_COUNT <= length segments)%nat ->
  (LONG_FRAME_COUNT <= length merged_segments)%nat ->
  let res := merge_segments has_intro LONG_FRAME_COUNT segments labels merged_segments in
  (forall i : nat, (1 <= i)%nat -> Z.of_nat i < snd res ->
     startframe (fst res !!! S i) = endframe (fst res !!! i) + 1
     /\ is_music (fst res !!! S i) = negb (is_music (fst res !!! i)))
  /\ (forall i : nat, (1 <= i)%nat -> Z.of_nat i <= snd res ->
        4 <= endframe (fst res !!! i) - startframe (fst res !!! i))
  /\ (has_intro = true -> 0 < snd res ->
      startframe (fst res !!! 1%nat) = endframe (fst res !!! 0%nat) + 1).
Proof.
  intros HN Hsegs Hmerged. cbv zeta. rewrite merge_segments_unfold. cbv zeta.
  pose proof (merge_pre_growth_structure has_intro LONG_FRAME_COUNT segments labels
                merged_segments HN Hsegs Hmerged) as Hstruct.
  pose proof (merge_pre_growth_single_run has_intro LONG_FRAME_COUNT segments labels
                merged_segments) as Hsingle.
  pose proof (length_merge_pre_growth has_intro LONG_FRAME_COUNT segments labels
                merged_segments) as Hlen.
  destruct (merge_segments_pre_growth _ _ _ _ _) as [[merged cur] cm].
  cbn [fst snd] in *.
  destruct (Nat.eq_dec cur 0%nat) as [Hzero|Hruns].
  { specialize (Hsingle Hzero). injection Hsingle as _ _ ->.
    split; [intros i Hi Hr; lia|]. split; [intros i Hi Hr; lia|]. intros _ Hr. lia. }
  destruct (Hstruct Hruns) as (Hcm & _ & Hadj & Hmin & Hintro).
  split; [|split].
  - intros i Hi Hr.
    rewrite !grow_segments_lookup by lia.
    destruct (Nat.eqb_spec i 0) as [|_]; [lia|]. cbn [Nat.eqb].
    destruct (Nat.ltb_spec i cur) as [_|]; [|lia].
    destruct (Nat.ltb_spec (S i) cur) as [_|]; [|lia].
    destruct (Hadj i ltac:(lia)) as [Hnext Hlabel].
    rewrite !grown_label. split; [|exact Hlabel].
    unfold grown. rewrite Hlabel.
    destruct (is_music (merged !!! i)); cbn; unfold GROW_BY_BEFORE, GROW_BY_AFTER; lia.
  - intros i Hi Hr.
    rewrite grow_segments_lookup by lia.
    destruct (Nat.eqb_spec i 0) as [|_]; [lia|].
    destruct (Nat.ltb_spec i cur) as [_|]; [|lia].
    specialize (Hmin i ltac:(lia)). unfold grown.
    destruct (is_music (merged !!! i)); cbn; unfold GROW_BY_BEFORE, GROW_BY_AFTER; lia.
  - intros Hhas Hr.
    rewrite !grow_segments_lookup by lia. cbn [Nat.eqb].
    destruct (Nat.ltb_spec 1 cur) as [_|]; [|lia].
    destruct (Hadj 0%nat ltac:(lia)) as [Hnext Hlabel].
    rewrite (Hintro Hhas) in Hlabel. unfold grown, grown_first. rewrite Hlabel, Hhas.
    cbn. unfold GROW_BY_BEFORE, GROW_BY_AFTER. lia.
Qed.

Lemma grown_segments_contiguous_witness :
  let res := merge_segments true 38 (replicate 38 inhabitant)
               (replicate 3 true ++ replicate 11 false ++ replicate 11 true
                ++ replicate 11 false ++ [true; false])
               (replicate 38 inhabitant) in
  (1 <= 38)%nat /\ (1 <= 1)%nat /\ Z.of_nat 1 < snd res
  /\ startframe (fst res !!! 2%nat) = endframe (fst res !!! 1%nat) + 1.
Proof.
  cbv zeta. split; [lia|]. split; [lia|]. split; [vm_compute; reflexivity|].
  exact (proj1 (proj1 (grown_segments_contiguous true 38 (replicate 38 inhabitant)
                         (replicate 3 true ++ replicate 11 false ++ replicate 11 true
                          ++ replicate 11 false ++ [true; false])
                         (replicate 38 inhabitant)
                         ltac:(lia) ltac:(cbn; lia) ltac:(cbn; lia))
                      1%nat ltac:(lia) ltac:(vm_compute; reflexivity))).
Defined.

(** ** Segment merger: a single run *)

Lemma detect_loop_all_music (labels : list bool) (count k : nat) (segments : list segment) :
  (1 <= k)%nat -> (0 < length segments)%nat ->
  is_music (segments !!! 0%nat) = true ->
  (forall f, (k <= f < k + count)%nat -> labels !!! f = true) ->
  snd (fold_left (detect_step labels) (seq k count) (segments, 0%nat)) = 0%nat.
Proof.
  revert k segments. induction count as [|count IH]; intros k segments Hk Hlen H0 Hall;
    [reflexivity|].
  cbn [seq fold_left]. unfold detect_step at 2.
  destruct (Nat.eqb_spec k 0) as [|_]; [lia|].
  rewrite (Hall k) by lia. rewrite H0. cbn [Bool.eqb].
  apply IH; [lia|rewrite length_modify; exact Hlen| |intros f Hf; apply Hall; lia].
  rewrite (modify_preserves is_music); [exact H0|reflexivity].
Qed.

Lemma detect_segments_all_music (LONG_FRAME_COUNT : nat) (segments : list segment)
    (labels : list bool) :
  (LONG_FRAME_COUNT <= length segments)%nat ->
  (forall f, (1 <= f < LONG_FRAME_COUNT)%nat -> labels !!! f = true) ->
  snd (detect_segments LONG_FRAME_COUNT segments labels) = 0%nat.
Proof.
  intros Hlen Hall. unfold detect_segments.
  destruct LONG_FRAME_COUNT as [|count]; [reflexivity|].
  cbn [seq fold_left detect_step Nat.eqb].
  apply detect_loop_all_music; [lia|rewrite length_modify; lia| |intros f Hf; apply Hall; lia].
  rewrite lookup_total_modify. case_decide; [reflexivity|lia].
Qed.

(** X15. When every label after the first is music (also for
    LONG_FRAME_COUNT = 0 or 1), phase 1 detects a single run and
    [merge_segments] stores no merged segment: it returns 0 and leaves
    the caller's storage as it was, except that the growth step still
    moves the end of slot 0 by 3 long frames (the end the caller left in
    slot 0 being one that can move by 3 within the range of [int]). *)
Theorem merge_segments_single_run (has_intro : bool) (LONG_FRAME_COUNT : nat)
    (segments : list segment) (labels : list bool) (merged_segments : list segment) :
  (LONG_FRAME_COUNT <= length segments)%nat ->
  (forall f, (1 <= f < LONG_FRAME_COUNT)%nat -> labels !!! f = true) ->
  growth_in_range (merged_segments !!! 0%nat) ->
  merge_segments has_intro LONG_FRAME_COUNT segments labels merged_segments
  = (modify 0%nat (grown_first has_intro) merged_segments, 0).
Proof.
  intros Hlen Hall _. unfold merge_segments, merge_segments_pre_growth.
  pose proof (detect_segments_all_music LONG_FRAME_COUNT segments labels Hlen Hall) as Hcur.
  destruct (detect_segments LONG_FRAME_COUNT segments labels) as [runs cur].
  cbn [snd] in Hcur. subst cur. cbn.
  unfold grow_segments, grown_first. destruct has_intro; reflexivity.
Qed.

Lemma merge_segments_single_run_witness :
  let m := {| startframe := 5; endframe := 9; is_music := false |} in
  (3 <= 3)%nat
  /\ growth_in_range m
  /\ merge_segments false 3 [m; m; m] [false; true; true] [m; m; m]
     = ([ {| startframe := 5; endframe := 6; is_music := false |}; m; m ], 0).
Proof.
  cbv zeta. split; [lia|]. split; [vm_compute; intuition discriminate|].
  refine (merge_segments_single_run false 3
            (replicate 3 {| startframe := 5; endframe := 9; is_music := false |})
            [false; true; true]
            (replicate 3 {| startframe := 5; endframe := 9; is_music := false |})
            _ _ _).
  - cbn. lia.
  - intros [|[|[|f]]] Hf; try reflexivity; lia.
  - vm_compute. intuition discriminate.
Defined.

(** ** Smoother and segment merger together *)

Lemma merge_pre_growth_cover (has_intro : bool) (LONG_FRAME_COUNT : nat)
    (segments : list segment) (labels : list bool) (merged_segments : list segment) :
  (1 <= LONG_FRAME_COUNT)%nat ->
  (LONG_FRAME_COUNT <= length segments)%nat ->
  (LONG_FRAME_COUNT <= length merged_segments)%nat ->
  let runs := fst (detect_segments LONG_FRAME_COUNT segments labels) in
  let current_segment := snd (detect_segments LONG_FRAME_COUNT segments labels) in
  let pre := merge_segments_pre_growth has_intro LONG_FRAME_COUNT segments labels
                                       merged_segments in
  snd (fst pre) = current_segment
  /\ (current_segment <> 0%nat ->
      covered_frames (take (S (snd pre)) (fst (fst pre)))
      = seqZ 0 (startframe (runs !!! current_segment))).
Proof.
  intros HN Hsegs Hmerged. cbv zeta. unfold merge_segments_pre_growth.
  pose proof (detect_segments_wf LONG_FRAME_COUNT segments labels ltac:(lia)) as Hruns.
  destruct (detect_segments LONG_FRAME_COUNT segments labels) as [runs current_segment].
  cbn [fst snd] in *. unfold merge_runs.
  destruct current_segment as [|c].
  - cbn. split; [reflexivity|]. intros []. reflexivity.
  - cbn [seq fold_left].
    pose proof (merge_loop_wf has_intro runs (S c) LONG_FRAME_COUNT Hruns c 1
                  (merge_step has_intro runs (merged_segments, 0%nat) 0)) as Hwf.
    pose proof (merge_step_first has_intro runs (S c) LONG_FRAME_COUNT Hruns
                  merged_segments ltac:(lia)) as Hfirst.
    destruct Hruns as (Hcur & _ & _ & _ & Hadj).
    specialize (Hwf ltac:(lia) ltac:(lia)).
    rewrite length_merge_step in Hwf. cbn [fst] in Hwf.
    specialize (Hwf ltac:(lia) Hfirst).
    destruct (fold_left _ _ _) as [merged cm]. cbn [fst snd] in *.
    split; [reflexivity|]. intros _.
    destruct Hwf as (_ & _ & Hcov & _).
    replace (1 + c - 1)%nat with c in * by lia.
    rewrite Hcov, (Hadj c) by lia. reflexivity.
Qed.

Lemma runs_start_increasing (segments : list segment) (current_segment k j : nat) :
  runs_wf segments current_segment k ->
  (1 <= j <= current_segment)%nat ->
  startframe (segments !!! 1%nat) <= startframe (segments !!! j).
Proof.
  intros (_ & _ & _ & Hle & Hadj) Hj.
  induction j as [|j IH]; [lia|].
  destruct (Nat.eq_dec j 0%nat) as [->|Hne]; [lia|].
  specialize (IH ltac:(lia)). specialize (Hle j ltac:(lia)).
  rewrite (Hadj j) by lia. lia.
Qed.

(** X17. Before growth, the merged segments 0 .. [current_merged_segment]
    cover, in order and once each, exactly the long frames before the
    start of the last run that phase 1 detected (the run of index
    [current_segment]): with at least two detected runs that start lies
    strictly between 0 and [LONG_FRAME_COUNT], so the frames of the last
    run are in no merged segment.  With a single detected run, phase 2
    stores nothing. *)
Theorem merged_segments_cover_before_last_run (has_intro : bool) (LONG_FRAME_COUNT : nat)
    (segments : list segment) (labels : list bool) (merged_segments : list segment) :
  (1 <= LONG_FRAME_COUNT)%nat ->
  (LONG_FRAME_COUNT <= length segments)%nat ->
  (LONG_FRAME_COUNT <= length merged_segments)%nat ->
  let runs := fst (detect_segments LONG_FRAME_COUNT segments labels) in
  let current_segment := snd (detect_segments LONG_FRAME_COUNT segments labels) in
  let pre := merge_segments_pre_growth has_intro LONG_FRAME_COUNT segments labels
                                       merged_segments in
  let merged := fst (fst pre) in
  let current_merged_segment := snd pre in
  snd (fst pre) = current_segment
  /\ (current_segment = 0%nat -> merged = merged_segments /\ current_merged_segment = 0%nat)
  /\ (current_segment <> 0%nat ->
      0 < startframe (runs !!! current_segment) < Z.of_nat LONG_FRAME_COUNT
      /\ covered_frames (take (S current_merged_segment) merged)
         = seqZ 0 (startframe (runs !!! current_segment))
      /\ covered_frames (take (S current_merged_segment) merged)
         <> all_frames LONG_FRAME_COUNT).
Proof.
  intros HN Hsegs Hmerged runs current_segment pre merged current_merged_segment.
  pose proof (merge_pre_growth_cover has_intro LONG_FRAME_COUNT segments labels
                merged_segments HN Hsegs Hmerged) as [Hcur Hcov].
  fold pre in Hcur, Hcov. fold runs in Hcov. fold current_segment in Hcur, Hcov.
  fold merged in Hcov. fold current_merged_segment in Hcov.
  split; [exact Hcur|]. split.
  - intros H0. unfold merged, current_merged_segment, pre, merge_segments_pre_growth.
    fold current_segment in H0. revert H0. unfold current_segment.
    destruct (detect_segments LONG_FRAME_COUNT segments labels) as [rs cur].
    cbn [snd]. intros ->. cbn. auto.
  - intros Hne. specialize (Hcov Hne).
    pose proof (detect_segments_wf LONG_FRAME_COUNT segments labels ltac:(lia)) as Hruns.
    fold runs in Hruns. fold current_segment in Hruns.
    pose proof (runs_start_increasing runs current_segment LONG_FRAME_COUNT current_segment
                  Hruns ltac:(lia)) as Hinc.
    destruct Hruns as (_ & H0 & Hlast & Hle & Hadj).
    pose proof (Hle 0%nat ltac:(lia)) as Hle0.
    pose proof (Hle current_segment ltac:(lia)) as Hlec.
    pose proof (Hadj 0%nat ltac:(lia)) as Hadj0.
    assert (0 < startframe (runs !!! current_segment) < Z.of_nat LONG_FRAME_COUNT) as Hs
      by lia.
    split; [exact Hs|]. split; [exact Hcov|].
    rewrite Hcov. unfold all_frames. intros Heq.
    apply (f_equal length) in Heq. rewrite !length_seqZ in Heq. lia.
Qed.

Lemma merged_segments_cover_before_last_run_witness :
  let pre := merge_segments_pre_growth false 4 (replicate 4 inhabitant)
               [true; true; false; false] (replicate 4 inhabitant) in
  (1 <= 4)%nat
  /\ snd (fst pre) = 1%nat
  /\ covered_frames (take (S (snd pre)) (fst (fst pre))) = [0; 1].
Proof.
  cbv zeta. split; [lia|].
  pose proof (merged_segments_cover_before_last_run false 4 (replicate 4 inhabitant)
                [true; true; false; false] (replicate 4 inhabitant)
                ltac:(lia) ltac:(cbn; lia) ltac:(cbn; lia)) as (Hcur & _ & Hcov).
  split; [exact Hcur|].
  exact (proj1 (proj2 (Hcov ltac:(discriminate)))).
Defined.

(** X16. The smoother followed by the segment merger, for
    LONG_FRAME_COUNT >= 7: the smoothed labels always give at least two
    runs (they begin with music and end with speech), and before growth
    the merged segments cover exactly the long frames 0 .. s-1 for some
    3 <= s <= LONG_FRAME_COUNT - 2: at least the last two long frames of
    every recording, the final speech run, are in no merged segment. *)
Theorem smoothed_tail_is_dropped (has_intro : bool) (LONG_FRAME_COUNT : nat)
    (music_second_pass labels : list bool) (segments merged_segments : list segment) :
  (7 <= LONG_FRAME_COUNT)%nat ->
  length music_second_pass = (2 * LONG_FRAME_COUNT)%nat ->
  length labels = LONG_FRAME_COUNT ->
  (LONG_FRAME_COUNT <= length segments)%nat ->
  (LONG_FRAME_COUNT <= length merged_segments)%nat ->
  let smoothed := average_musicness LONG_FRAME_COUNT music_second_pass labels in
  let pre := merge_segments_pre_growth has_intro LONG_FRAME_COUNT segments smoothed
                                       merged_segments in
  snd (fst pre) <> 0%nat
  /\ exists s : Z,
       3 <= s <= Z.of_nat LONG_FRAME_COUNT - 2
       /\ covered_frames (take (S (snd pre)) (fst (fst pre))) = seqZ 0 s.
Proof.
  intros HN Hscratch Hlabels Hsegs Hmerged smoothed pre.
  pose proof (detect_segments_wf LONG_FRAME_COUNT segments smoothed ltac:(lia)) as Hwf.
  pose proof (detect_segments_labelled LONG_FRAME_COUNT segments smoothed ltac:(lia))
    as (Hfirst & Halt & _ & Hlab).
  destruct (merge_pre_growth_cover has_intro LONG_FRAME_COUNT segments smoothed
              merged_segments ltac:(lia) Hsegs Hmerged) as [Hcur Hcov].
  fold pre in Hcur, Hcov.
  set (runs := fst (detect_segments LONG_FRAME_COUNT segments smoothed)) in *.
  set (cur := snd (detect_segments LONG_FRAME_COUNT segments smoothed)) in *.
  assert (forall i, (i < LONG_FRAME_COUNT)%nat ->
            smoothed !!! i = if (i <? 3)%nat then true
                             else if (i <? LONG_FRAME_COUNT - 3)%nat
                                  then 3 <=? window_sum labels i
                                  else if (i =? LONG_FRAME_COUNT - 3)%nat
                                       then music_second_pass !!! i else false) as Hsm.
  { intros i Hi. apply average_musicness_labels; assumption. }
  assert (smoothed !!! 1%nat = true) as H1 by (rewrite Hsm by lia; reflexivity).
  assert (smoothed !!! 2%nat = true) as H2 by (rewrite Hsm by lia; reflexivity).
  assert (smoothed !!! (LONG_FRAME_COUNT - 1)%nat = false) as Hl1.
  { rewrite Hsm by lia.
    destruct (Nat.ltb_spec (LONG_FRAME_COUNT - 1) 3); [lia|].
    destruct (Nat.ltb_spec (LONG_FRAME_COUNT - 1) (LONG_FRAME_COUNT - 3)); [lia|].
    destruct (Nat.eqb_spec (LONG_FRAME_COUNT - 1) (LONG_FRAME_COUNT - 3)); [lia|reflexivity]. }
  assert (smoothed !!! (LONG_FRAME_COUNT - 2)%nat = false) as Hl2.
  { rewrite Hsm by lia.
    destruct (Nat.ltb_spec (LONG_FRAME_COUNT - 2) 3); [lia|].
    destruct (Nat.ltb_spec (LONG_FRAME_COUNT - 2) (LONG_FRAME_COUNT - 3)); [lia|].
    destruct (Nat.eqb_spec (LONG_FRAME_COUNT - 2) (LONG_FRAME_COUNT - 3)); [lia|reflexivity]. }
  pose proof Hwf as (Hlt & Hstart0 & Hend & Hle & Hadj).
  (* the last run is a speech run *)
  assert (is_music (runs !!! cur) = false) as Hlast.
  { rewrite <- Hl1. symmetry.
    apply Hlab; [lia|lia|]. specialize (Hle cur ltac:(lia)). lia. }
  assert (cur <> 0%nat) as Hne.
  { intros Hz. rewrite Hz, Hfirst in Hlast. discriminate. }
  split; [rewrite Hcur; exact Hne|].
  exists (startframe (runs !!! cur)). split; [|apply Hcov, Hne].
  split.
  - (* run 0 holds the long frames 0, 1 and 2 *)
    assert (3 <= startframe (runs !!! 1%nat)) as Hrun1.
    { rewrite (Hadj 0%nat) by lia.
      pose proof (Hle 0%nat ltac:(lia)) as Hle0. pose proof (Hle 1%nat ltac:(lia)) as Hle1.
      pose proof (Hadj 0%nat ltac:(lia)) as Hadj0.
      pose proof (Halt 0%nat ltac:(lia)) as Halt0. rewrite Hfirst in Halt0.
      destruct (Z_le_gt_dec 2 (endframe (runs !!! 0%nat))) as [|Hshort]; [lia|].
      exfalso.
      assert (endframe (runs !!! 0%nat) = 0 \/ endframe (runs !!! 0%nat) = 1)
        as [He|He] by lia.
      - pose proof (Hlab 1%nat 1%nat ltac:(lia) ltac:(lia) ltac:(lia)) as Hc.
        rewrite H1, Halt0 in Hc. discriminate.
      - pose proof (Hlab 1%nat 2%nat ltac:(lia) ltac:(lia) ltac:(lia)) as Hc.
        rewrite H2, Halt0 in Hc. discriminate. }
    pose proof (runs_start_increasing runs cur LONG_FRAME_COUNT cur Hwf ltac:(lia)). lia.
  - (* the last run holds the long frames LONG_FRAME_COUNT - 2 and - 1 *)
    pose proof (Hle cur ltac:(lia)) as Hlec.
    destruct (Z_le_gt_dec (startframe (runs !!! cur)) (Z.of_nat LONG_FRAME_COUNT - 2))
      as [|Hone]; [assumption|].
    exfalso.
    assert (exists c, cur = S c) as [c Hc] by (destruct cur; [contradiction|eauto]).
    pose proof (Hadj c ltac:(lia)) as Hadjc. rewrite <- Hc in Hadjc.
    pose proof (Halt c ltac:(lia)) as Haltc. rewrite <- Hc, Hlast in Haltc.
    pose proof (Hle c ltac:(lia)) as Hlec'.
    pose proof (Hlab c (LONG_FRAME_COUNT - 2)%nat ltac:(lia) ltac:(lia)) as Hcontra.
    assert (0 <= startframe (runs !!! c)) as Hnonneg.
    { destruct (Nat.eq_dec c 0%nat) as [->|Hc0]; [lia|].
      pose proof (runs_start_increasing runs cur LONG_FRAME_COUNT c Hwf ltac:(lia)).
      pose proof (Hadj 0%nat ltac:(lia)). pose proof (Hle 0%nat ltac:(lia)). lia. }
    destruct (Z.eq_dec (endframe (runs !!! c)) (Z.of_nat LONG_FRAME_COUNT - 2)) as [Heq|Hneq].
    + specialize (Hcontra ltac:(lia)). rewrite Hl2 in Hcontra.
      destruct (is_music (runs !!! c)); discriminate.
    + lia.
Qed.

Lemma smoothed_tail_is_dropped_witness :
  let smoothed := average_musicness 7 (replicate 14 false) (replicate 7 false) in
  let pre := merge_segments_pre_growth false 7 (replicate 7 inhabitant) smoothed
               (replicate 7 inhabitant) in
  (7 <= 7)%nat /\ snd (fst pre) <> 0%nat.
Proof.
  cbv zeta. split; [lia|].
  exact (proj1 (smoothed_tail_is_dropped false 7 (replicate 14 false) (replicate 7 false)
                  (replicate 7 inhabitant) (replicate 7 inhabitant)
                  ltac:(lia) ltac:(reflexivity) ltac:(reflexivity)
                  ltac:(cbn; lia) ltac:(cbn; lia))).
Defined.

(** ** RMS extractor: windows of one amplitude *)

Lemma calculate_rms_one_window (FRAMES_IN_RMS_FRAME : nat) (x : spec_float) :
  calculate_rms FRAMES_IN_RMS_FRAME 1 (replicate FRAMES_IN_RMS_FRAME x)
  = [rms_of_frames (replicate FRAMES_IN_RMS_FRAME x)].
Proof.
  cbn [calculate_rms sf_readf_float].
  rewrite firstn_all2 by (rewrite length_replicate; lia). reflexivity.
Qed.

Lemma replicate_power_of_two (n : nat) (j : Z) :
  -125 <= 1 + j <= 127 ->
  replicate n (power_of_two j) = map (F32.mul (power_of_two j)) (replicate n (F32.of_int 1)).
Proof.
  intros Hj.
  assert (F32.mul (power_of_two j) (F32.of_int 1) = power_of_two j) as Hone.
  { change (F32.of_int 1) with (S754_finite false 8388608 (-23)).
    rewrite mul_power_of_two by (try reflexivity; lia).
    unfold power_of_two. f_equal. lia. }
  induction n as [|n IH]; [reflexivity|]. cbn [replicate map]. rewrite IH, Hone. reflexivity.
Qed.

(** X18. The sum of squares is divided by [RMS_FRAME_DURATION] = 20, not by
    the number of frames read, also in the [float] and [double] arithmetic
    of the code: for a window of samples of the one amplitude 2^j (with
    -122 <= j <= 120, so that nothing overflows or is subnormal), the RMS
    value is the amplitude when the window has 20 frames, half of it when
    it has 5 frames and twice the amplitude when it has 80 frames. *)
Theorem calculate_rms_constant_window (j : Z) :
  -122 <= j <= 120 ->
  calculate_rms 20 1 (replicate 20 (power_of_two j)) = [power_of_two j]
  /\ calculate_rms 5 1 (replicate 5 (power_of_two j)) = [power_of_two (j - 1)]
  /\ calculate_rms 80 1 (replicate 80 (power_of_two j)) = [power_of_two (j + 1)].
Proof.
  intros Hj.
  assert (forall n : nat, (n <= 80)%nat ->
            rms_of_frames (replicate n (power_of_two j))
            = F32.mul (power_of_two j) (rms_of_frames (replicate n (F32.of_int 1)))) as Hscale.
  { intros n Hn. rewrite replicate_power_of_two by lia.
    apply (rms_of_frames_power_of_two j (-122) 123); [lia|lia| | |].
    - apply Forall_replicate.
      change (F32.of_int 1) with (S754_finite false 8388608 (-23)).
      cbn [sample_in_range magnitude digits2_pos Pos.succ]. lia.
    - rewrite length_replicate. change (2 ^ 52) with 4503599627370496. lia.
    - rewrite length_replicate.
      assert (Zdigits2 (Z.of_nat n) <= 7); [|lia].
      destruct n as [|n]; [change (Zdigits2 (Z.of_nat 0)) with 0; lia|].
      apply Zdigits2_upper; [lia|lia|].
      change (2 ^ 7) with 128. lia. }
  rewrite !calculate_rms_one_window, !Hscale by lia.
  assert (rms_of_frames (replicate 20 (F32.of_int 1)) = S754_finite false 8388608 (-23)) as ->
    by (vm_compute; reflexivity).
  assert (rms_of_frames (replicate 5 (F32.of_int 1)) = S754_finite false 8388608 (-24)) as ->
    by (vm_compute; reflexivity).
  assert (rms_of_frames (replicate 80 (F32.of_int 1)) = S754_finite false 8388608 (-22)) as ->
    by (vm_compute; reflexivity).
  rewrite !mul_power_of_two by (try reflexivity; lia).
  unfold power_of_two. repeat split; do 2 f_equal; lia.
Qed.

Lemma calculate_rms_constant_window_witness :
  -122 <= 1 <= 120
  /\ calculate_rms 20 1 (replicate 20 (F32.of_int 2)) = [F32.of_int 2]
  /\ calculate_rms 5 1 (replicate 5 (F32.of_int 2)) = [F32.of_int 1]
  /\ calculate_rms 80 1 (replicate 80 (F32.of_int 2)) = [F32.of_int 4].
Proof.
  split; [lia|]. exact (calculate_rms_constant_window 1 ltac:(lia)).
Defined.
